(** * Flow geometry and particle trips of the food-system digital twin

    A shallow embedding of [src/hooks/useFlows.ts]: the normalisation of raw
    flow records into [Flow]s, the three path generators ([getCurvedPaths],
    [getSelfPath], [getRoadPaths]) and the trip simulator ([getPathTrips]),
    followed by the properties the specification states about them.

    Conventions of the embedding.
    - A JavaScript [number] is a [number] below: a rational, [NaN] or one of
      the two infinities.  Arithmetic on the special values follows IEEE 754
      as JavaScript exposes it; the result of an operation on finite values
      is the exact one passed through the rounding of the arithmetic in
      force, a [Rounding].  There is a single zero, taken as [+0].
    - [binary64] is the rounding of the source: to the nearest double, ties
      to even, with subnormal numbers and overflow to the infinities.
      [ideal] rounds nothing.  A property stated in a section with an
      arbitrary [Rounding] holds for every rounding, so for [binary64]; one
      stated for a [Lawful] rounding holds for [binary64], which is
      [Lawful] ([binary64_lawful]); the remaining ones (C3, C4, C9, X8, X9
      and X22, and the runs that follow them) are stated in [ideal]
      arithmetic.
    - [Math.random] is a fixed sequence of draws read through a cursor; the
      cursor is the state threaded through the code.
    - A computation either returns, throws, or does not end; see [M].
    - Loop counters and the lengths of arrays are natural numbers: the
      embedding follows the code below the limits of the engine ([2^53] for
      a counter, [2^32 - 1] for the length of an array).
    - What the file imports from elsewhere (turf, google-polyline, [@/utils],
      [@/constants], the [Math] trigonometry) is a field of [Imports]. *)

From Stdlib Require Import QArith Qround Qminmax Qpower Qreduction ZArith Lia Lqa.
From Stdlib Require Import List String Bool Arith Morphisms.
Import ListNotations.

Local Open Scope Q_scope.

(** ** JavaScript numbers *)

Inductive number : Type :=
| Num (q : Q)
| NaN
| PosInf
| NegInf.

Declare Scope js_scope.
Delimit Scope js_scope with js.
Bind Scope js_scope with number.

(** How the exact result of an operation on two finite numbers becomes a
    number: by the rounding of the arithmetic in force. *)
Class Rounding : Type := { rnd : Q -> number }.

(** The arithmetic of the rationals: no result is rounded. *)
Definition ideal : Rounding := {| rnd := Num |}.

Module JS.

Definition of_Z (z : Z) : number := Num (inject_Z z).
Definition of_nat (n : nat) : number := of_Z (Z.of_nat n).

Definition is_finite (a : number) : bool :=
  match a with Num _ => true | _ => false end.

(** The sign of a rational as JavaScript arithmetic sees it: [Lt], [Eq]
    or [Gt] against zero. *)
Definition sign (q : Q) : comparison := q ?= 0.

Definition neg (a : number) : number :=
  match a with
  | Num q => Num (- q)
  | NaN => NaN
  | PosInf => NegInf
  | NegInf => PosInf
  end.

Definition add `{Rounding} (a b : number) : number :=
  match a, b with
  | NaN, _ | _, NaN => NaN
  | Num p, Num q => rnd (p + q)
  | PosInf, NegInf | NegInf, PosInf => NaN
  | PosInf, _ | _, PosInf => PosInf
  | NegInf, _ | _, NegInf => NegInf
  end.

Definition sub `{Rounding} (a b : number) : number := add a (neg b).

(** An infinity scaled by a finite factor. *)
Definition scale_inf (positive : bool) (q : Q) : number :=
  match sign q with
  | Eq => NaN
  | Gt => if positive then PosInf else NegInf
  | Lt => if positive then NegInf else PosInf
  end.

Definition mul `{Rounding} (a b : number) : number :=
  match a, b with
  | NaN, _ | _, NaN => NaN
  | Num p, Num q => rnd (p * q)
  | PosInf, Num q | Num q, PosInf => scale_inf true q
  | NegInf, Num q | Num q, NegInf => scale_inf false q
  | PosInf, PosInf | NegInf, NegInf => PosInf
  | PosInf, NegInf | NegInf, PosInf => NegInf
  end.

(** Division: a finite number over zero is an infinity of the sign of
    the numerator ([0 / 0] is [NaN]); a finite number over an infinity
    is zero. *)
Definition div `{Rounding} (a b : number) : number :=
  match a, b with
  | NaN, _ | _, NaN => NaN
  | Num p, Num q =>
      match sign q with
      | Eq => match sign p with Eq => NaN | Gt => PosInf | Lt => NegInf end
      | _ => rnd (p / q)
      end
  | Num _, (PosInf | NegInf) => Num 0
  | PosInf, Num q => match sign q with Lt => NegInf | _ => PosInf end
  | NegInf, Num q => match sign q with Lt => PosInf | _ => NegInf end
  | (PosInf | NegInf), (PosInf | NegInf) => NaN
  end.

(** [a < b]; every comparison with [NaN] is false. *)
Definition lt (a b : number) : bool :=
  match a, b with
  | NaN, _ | _, NaN => false
  | Num p, Num q => negb (Qle_bool q p)
  | NegInf, NegInf => false
  | NegInf, _ => true
  | _, PosInf => match a with PosInf => false | _ => true end
  | _, _ => false
  end.

(** [a <= b]. *)
Definition le (a b : number) : bool :=
  match a, b with
  | NaN, _ | _, NaN => false
  | Num p, Num q => Qle_bool p q
  | NegInf, _ => true
  | _, PosInf => true
  | _, _ => false
  end.

(** The same value: rationals up to [==], the special values up to
    identity.  (This is the meta-level identity of values, not [===],
    for which [NaN] differs from itself.) *)
Definition same (a b : number) : Prop :=
  match a, b with
  | Num p, Num q => p == q
  | NaN, NaN | PosInf, PosInf | NegInf, NegInf => True
  | _, _ => False
  end.

End JS.

Notation "a + b" := (JS.add a b) : js_scope.
Notation "a - b" := (JS.sub a b) : js_scope.
Notation "a * b" := (JS.mul a b) : js_scope.
Notation "a / b" := (JS.div a b) : js_scope.
Notation "- a" := (JS.neg a) : js_scope.
Notation "a <? b" := (JS.lt a b) (at level 70) : js_scope.
Notation "a <=? b" := (JS.le a b) (at level 70) : js_scope.
Infix "=js=" := JS.same (at level 70, no associativity).

(** Numeric literals of the source: an integer, [0.5], and a decimal, which
    is the number its value rounds to. *)
Definition lit (z : Z) : number := JS.of_Z z.
Definition half : number := Num (1 # 2).
Definition decimal `{Rounding} (q : Q) : number := rnd q.

(** ** The arithmetic of the source: binary64

    Round to nearest, ties to even, on 53 significant bits, with the
    subnormal numbers below [2^-1022] and overflow to an infinity from
    [2^1024 - 2^970] on. *)

Module Binary64.

(** [2^e] *)
Definition pow2 (e : Z) : Q := 2 ^ e.

(** The nearest integer, the even one of two that are as near. *)
Definition nearest_even (q : Q) : Z :=
  let f := Qfloor q in
  match Qcompare (q - inject_Z f) (1 # 2) with
  | Lt => f
  | Gt => (f + 1)%Z
  | Eq => if Z.even f then f else (f + 1)%Z
  end.

(** The integer part of the binary logarithm of a positive rational. *)
Definition ilog2 (q : Q) : Z :=
  let l := (Z.log2 (Qnum q) - Z.log2 (Zpos (Qden q)))%Z in
  if Qle_bool (pow2 l) q then l else (l - 1)%Z.

(** The exponent of the last of the 53 bits of a positive rational; it
    stops at -1074, where the subnormal numbers lie. *)
Definition ulp_exponent (q : Q) : Z := Z.max (ilog2 q - 52) (-1074).

(** A positive rational on the grid of its exponent. *)
Definition nearest (q : Q) : Q :=
  let e := ulp_exponent q in
  inject_Z (nearest_even (q / pow2 e)) * pow2 e.

Definition round (q : Q) : number :=
  let q := Qred q in
  match Qcompare q 0 with
  | Eq => Num 0
  | Gt => let v := nearest q in
          if Qle_bool (pow2 1024) v then PosInf else Num (Qred v)
  | Lt => let v := nearest (- q) in
          if Qle_bool (pow2 1024) v then NegInf else Num (Qred (- v))
  end.

End Binary64.

Definition binary64 : Rounding := {| rnd := Binary64.round |}.

(** What the properties that depend on the rounding use of it: it depends
    on the value of the rational alone, it keeps the order, it leaves the
    integers up to [2^53] alone and a half, it commutes with the change of
    sign, and what it returns it returns again. *)
Class Lawful (arithmetic : Rounding) : Prop := {
  rnd_eq : forall p q : Q, p == q -> rnd p = rnd q;
  rnd_le : forall p q : Q, p <= q -> JS.le (rnd p) (rnd q) = true;
  rnd_integer :
    forall z : Z, (Z.abs z <= 2 ^ 53)%Z -> rnd (inject_Z z) = Num (inject_Z z);
  rnd_half : rnd (1 # 2) = Num (1 # 2);
  rnd_opp : forall q : Q, rnd (- q) = JS.neg (rnd q);
  rnd_fixed : forall p q : Q, rnd p = Num q -> rnd q = Num q
}.


(** ** Computations: the cursor into the random draws, exceptions, loops *)

(** What a computation does: it returns a value, the cursor moved on; it
    throws; or it does not return.  [for_lt] gives [Diverges] to a loop
    under the bound [Infinity], which never exits normally; whether one of
    its iterations throws is what [for_lt_guarded] follows, test by test. *)
Inductive outcome (A : Type) : Type :=
| Returns (a : A) (cursor : nat)
| Throws (error : string)
| Diverges.

Arguments Returns {A} a cursor.
Arguments Throws {A} error.
Arguments Diverges {A}.

(** A computation started with the cursor at the next unread draw. *)
Definition M (A : Type) : Type := nat -> outcome A.

Definition ret {A} (a : A) : M A := fun s => Returns a s.

Definition throw {A} (error : string) : M A := fun _ => Throws error.

Definition bind {A B} (c : M A) (k : A -> M B) : M B :=
  fun s =>
    match c s with
    | Returns a s' => k a s'
    | Throws e => Throws e
    | Diverges => Diverges
    end.

Notation "x <- c ;; k" := (bind c (fun x => k))
  (at level 61, c at next level, right associativity).

(** The sequence [Math.random()] returns, one draw per call. *)
Class RandomSource : Type := { draw : nat -> Q }.

(** Every draw lies in [[0, 1)], as [Math.random] promises. *)
Definition unit_draws (R : RandomSource) : Prop :=
  forall i : nat, 0 <= draw i /\ draw i < 1.

(** [Math.cos], [Math.sin] and [Math.atan2]: transcendental, so taken as
    given rather than computed. *)
Class Trigonometry : Type := {
  trig_cos : number -> number;
  trig_sin : number -> number;
  trig_atan2 : number -> number -> number
}.

Module Math.

Definition cos `{Trigonometry} : number -> number := trig_cos.
Definition sin `{Trigonometry} : number -> number := trig_sin.
Definition atan2 `{Trigonometry} : number -> number -> number := trig_atan2.

(** [Math.min] and [Math.max] of two arguments. *)
Definition min (a b : number) : number :=
  match a, b with
  | NaN, _ | _, NaN => NaN
  | _, _ => if JS.lt b a then b else a
  end.

Definition max (a b : number) : number :=
  match a, b with
  | NaN, _ | _, NaN => NaN
  | _, _ => if JS.lt a b then b else a
  end.

(** [Math.floor], and [Math.round], which rounds halves upwards. *)
Definition floor (a : number) : number :=
  match a with
  | Num q => JS.of_Z (Qfloor q)
  | _ => a
  end.

Definition round (a : number) : number :=
  match a with
  | Num q => JS.of_Z (Qfloor (q + (1 # 2)))
  | _ => a
  end.

Definition random `{RandomSource} : M number :=
  fun s => Returns (Num (draw s)) (S s).

End Math.

(** How many times [for (let i = 0; i < n; i++)] runs its body when the body
    leaves [i] and [n] alone: the number of naturals below [n].  There is
    none below [NaN], and no end to them below [Infinity]. *)
Definition trip_count (n : number) : option nat :=
  match n with
  | Num q => Some (Z.to_nat (Qceiling q))
  | PosInf => None
  | NaN | NegInf => Some 0%nat
  end.

(** The body run on each index in turn, the accumulated value passed along. *)
Fixpoint foldM {St : Type} (body : nat -> St -> M St) (indices : list nat) (acc : St)
  : M St :=
  match indices with
  | [] => ret acc
  | i :: rest => acc' <- body i acc ;; foldM body rest acc'
  end.

(** [for (let i = 0; i < n; i++) acc = body(i, acc)].  When [n] is
    [Infinity] the guard never fails and the loop never exits normally (it
    runs for ever, unless an iteration throws), which [Diverges] records.
    [for_lt_guarded] below is the same loop driven by its guard, and
    [for_lt_guarded_enough] relates the two. *)
Definition for_lt {St : Type} (n : number) (body : nat -> St -> M St) (init : St)
  : M St :=
  match trip_count n with
  | Some k => foldM body (seq 0 k) init
  | None => fun _ => Diverges
  end.

(** The loop as the source writes it: test [i < n], run the body, increment;
    [fuel] bounds the number of tests. *)
Fixpoint for_lt_guarded {St : Type} (fuel : nat) (i : nat) (n : number)
    (body : nat -> St -> M St) (acc : St) : M St :=
  match fuel with
  | O => fun _ => Diverges
  | S fuel' =>
      if (JS.of_nat i <? n)%js
      then acc' <- body i acc ;; for_lt_guarded fuel' (S i) n body acc'
      else ret acc
  end.

(** [Array.prototype.reduce] with an initial value; the callback receives
    the accumulator, the element and its index. *)
Fixpoint reduce_from {A B : Type} (f : B -> A -> nat -> B) (i : nat)
    (l : list A) (acc : B) : B :=
  match l with
  | [] => acc
  | x :: rest => reduce_from f (S i) rest (f acc x i)
  end.

Definition reduce {A B : Type} (f : B -> A -> nat -> B) (l : list A) (init : B) : B :=
  reduce_from f 0 l init.

(** [a[i]] used as a number: reading past the end gives [undefined], which
    arithmetic turns into [NaN]. *)
Definition index (a : list number) (i : nat) : number := nth i a NaN.

(** [s || ...] and [s ? ... : ...] on a string: the empty string is falsy. *)
Definition truthy (s : string) : bool := negb (String.eqb s EmptyString).

(** [i || 0] on [number | null]: [null] and [0] both give [0]. *)
Definition or_zero (i : option nat) : nat :=
  match i with
  | None => 0%nat
  | Some O => 0%nat
  | Some i => i
  end.

(** ** Data model ([@/types]) *)

(** A GeoJSON position, [[x, y]]. *)
Definition Position : Type := (number * number)%type.

Module Flow.
(** [routeGeometry] holds the coordinates of the [LineString]. *)
Record t : Type := {
  source : Position;
  target : Position;
  sourceId : string;
  targetId : string;
  routeGeometry : option (list Position);
  value : number;
  valuesRatiosByFoodGroup : option (list number)
}.
End Flow.

Module Path.
Record t : Type := {
  coordinates : list Position;
  distances : list number;
  totalDistance : number
}.
End Path.

Module Waypoint.
Record t : Type := {
  coordinates : Position;
  timestamp : number
}.
End Waypoint.

Module Trip.
Record t (Category : Type) : Type := {
  waypoints : list Waypoint.t;
  color : list number;
  foodGroup : Category
}.
Arguments waypoints {Category} _.
Arguments color {Category} _.
Arguments foodGroup {Category} _.
End Trip.

(** What [getStats] hands to [useFlows]. *)
Module Stats.
Record t : Type := {
  total : number;
  byCropGroupCumulative : option (list number)
}.
End Stats.

(** A raw record of the API ([RawCountyWithFlows]); the two breakdowns are
    only passed on to [getStats]. *)
Module Raw.
Record t (ByCrop ByCropGroup : Type) : Type := {
  county_id : string;
  county_centroid : Position;
  route_geometry : option string;
  route_direction : option string;
  flowsByCrop : ByCrop;
  flowsByCropGroup : ByCropGroup
}.
Arguments county_id {ByCrop ByCropGroup} _.
Arguments county_centroid {ByCrop ByCropGroup} _.
Arguments route_geometry {ByCrop ByCropGroup} _.
Arguments route_direction {ByCrop ByCropGroup} _.
Arguments flowsByCrop {ByCrop ByCropGroup} _.
Arguments flowsByCropGroup {ByCrop ByCropGroup} _.
End Raw.

(** An entry of [CATEGORIES_PROPS]; only its colour is read. *)
Record CategoryProps : Type := { hex_color : string }.

(** ** What the file imports *)

Class Imports : Type := {
  (** [@/types] and [@/constants] *)
  Category : Type;
  FlowsByCrop : Type;
  FlowsByCropGroup : Type;
  CATEGORIES : list Category;
  CATEGORIES_PROPS : Category -> CategoryProps;
  (** [@/utils] *)
  getDistances : list Position -> list number * number;
  getStats : FlowsByCropGroup -> FlowsByCrop -> Stats.t;
  hexToRgb : string -> list number;
  (** [@turf/turf]: [distance(point(a), point(b))]; the ring
      [circle(point(c), a, b, units).geometry.coordinates[0]] of the call
      with the three arguments the source passes after the centre, in that
      order (what turf makes of each of them is turf's business); the
      coordinates of [bezierSpline(lineString(l), { resolution: 500 })] *)
  distance : Position -> Position -> number;
  circle : Position -> number -> number -> string -> list Position;
  bezierSpline : list Position -> list Position;
  (** [google-polyline]: [polyline.decode] *)
  polyline_decode : string -> list (number * number)
}.

(** ** Parameters of the generators, with the defaults of the source *)

Record PathsParams : Type := {
  linesPerLinkMultiplicator : number;
  maxLinesPerLink : number;
  minWaypointsPer1000km : number;
  maxWaypointsPer1000km : number;
  minDeviationDegrees : number;
  maxDeviationDegrees : number;
  smooth : bool
}.

Definition defaultPathsParams `{Rounding} : PathsParams := {|
  linesPerLinkMultiplicator := lit 1;
  maxLinesPerLink := lit 30;
  minWaypointsPer1000km := lit 4;
  maxWaypointsPer1000km := lit 8;
  minDeviationDegrees := lit 0;
  maxDeviationDegrees := decimal (6 # 10);
  smooth := false
|}.

Record TripsParams : Type := {
  numParticlesMultiplicator : number;
  fromTimestamp : number;
  toTimeStamp : number;
  intervalHumanize : number;
  speedKps : number;
  speedKpsHumanize : number;
  maxParticles : number
}.

Definition defaultTripsParams : TripsParams := {|
  numParticlesMultiplicator := lit 1;
  fromTimestamp := lit 0;
  toTimeStamp := lit 100;
  intervalHumanize := half;
  speedKps := lit 100;
  speedKpsHumanize := half;
  maxParticles := lit 500
|}.

(** [a.slice(0, n)]: [n] is truncated to an integer, a negative [n] counts
    from the end of the array. *)
Definition slice_to {A : Type} (n : number) (a : list A) : list A :=
  match n with
  | Num q =>
      let k := Z.quot (Qnum q) (Zpos (Qden q)) in
      if (k <? 0)%Z
      then firstn (Z.to_nat (Z.of_nat (List.length a) + k)) a
      else firstn (Z.to_nat k) a
  | PosInf => a
  | NaN | NegInf => []
  end.

(** [a.map(f)] when [f] draws random numbers or may throw. *)
Fixpoint mapM {A B : Type} (f : A -> M B) (a : list A) : M (list B) :=
  match a with
  | [] => ret []
  | x :: rest => y <- f x ;; ys <- mapM f rest ;; ret (y :: ys)
  end.

Section UseFlows.

Context `{Imports} `{Trigonometry} `{RandomSource} `{Rounding}.

Local Open Scope js_scope.

(** *** Flow normaliser: [useFlows] *)

(** [([lng, lat]) => [lat, lng]] *)
Definition swap (pair : number * number) : Position :=
  let '(lng, lat) := pair in (lat, lng).

(** The callback [useFlows] maps over the raw records. *)
Definition useFlows_record (flowType : string) (selectedCentroid : Position)
    (selectedId : string) (raw : Raw.t FlowsByCrop FlowsByCropGroup) : Flow.t :=
  let stats := getStats (Raw.flowsByCropGroup raw) (Raw.flowsByCrop raw) in
  let value := Math.max (lit 1) (Stats.total stats / lit 200000000) in
  let consumer := String.eqb flowType "consumer" in
  let source := if consumer then Raw.county_centroid raw else selectedCentroid in
  let target := if consumer then selectedCentroid else Raw.county_centroid raw in
  let sourceId := if consumer then Raw.county_id raw else selectedId in
  let targetId := if consumer then selectedId else Raw.county_id raw in
  let routeGeometry :=
    match Raw.route_geometry raw with
    | Some encoded =>
        if truthy encoded
        then Some (map swap (polyline_decode encoded))
        else None
    | None => None
    end in
  let routeGeometry :=
    match Raw.route_direction raw with
    | Some direction =>
        if String.eqb direction "backward"
        then option_map (@rev Position) routeGeometry
        else routeGeometry
    | None => routeGeometry
    end in
  {| Flow.source := source;
     Flow.target := target;
     Flow.sourceId := sourceId;
     Flow.targetId := targetId;
     Flow.routeGeometry := routeGeometry;
     Flow.value := value;
     Flow.valuesRatiosByFoodGroup := Stats.byCropGroupCumulative stats |}.

(** [useFlows]: nothing while the selected county (its id and centroid),
    the counties or the flows are missing; otherwise the first
    [maxTargetCounties] records, normalised. *)
Definition useFlows (selectedCounty : option (string * Position))
    (counties : option unit)
    (flowsData : option (list (Raw.t FlowsByCrop FlowsByCropGroup)))
    (flowType : string) (maxTargetCounties : number) : list Flow.t :=
  match selectedCounty, counties, flowsData with
  | Some (selectedId, selectedCentroid), Some _, Some flows =>
      map (useFlows_record flowType selectedCentroid selectedId)
          (slice_to maxTargetCounties flows)
  | _, _, _ => []
  end.

(** *** Path synthesiser *)

(** [waypointIndex % 2 === 0 ? 1 : -1] *)
Definition deviationSign (waypointIndex : nat) : number :=
  if Nat.even waypointIndex then lit 1 else lit (-1).

(** [deviationSign * Math.random() * (maxDeviationDegrees -
    minDeviationDegrees) + minDeviationDegrees], [random] being the draw. *)
Definition deviation (p : PathsParams) (waypointIndex : nat) (random : number)
  : number :=
  deviationSign waypointIndex * random
    * (maxDeviationDegrees p - minDeviationDegrees p)
  + minDeviationDegrees p.

(** One interior waypoint, from its index, the number of waypoints of its
    line and its deviation. *)
Definition waypoint (link : Flow.t) (numWaypoints : number) (waypointIndex : nat)
    (deviation : number) : Position :=
  let '(startX, startY) := Flow.source link in
  let '(endX, endY) := Flow.target link in
  let waypointRatio :=
    lit 1 / (numWaypoints + lit 1) * (JS.of_nat waypointIndex + lit 1) in
  let midX := startX + (endX - startX) * waypointRatio in
  let midY := startY + (endY - startY) * waypointRatio in
  let angle := Math.atan2 (endY - startY) (endX - startX) in
  (deviation * Math.cos angle + midX, - deviation * Math.sin angle + midY).

Definition numLinesPerLink (link : Flow.t) (p : PathsParams) : number :=
  Math.min (Math.round (Flow.value link * linesPerLinkMultiplicator p))
           (maxLinesPerLink p).

(** [Math.round((dist / 1000) * minWaypointsPer1000km)], and the same for
    the maximum, [dist] being the distance from the source to the target. *)
Definition minWaypoints (link : Flow.t) (p : PathsParams) : number :=
  let dist := distance (Flow.source link) (Flow.target link) in
  Math.round (dist / lit 1000 * minWaypointsPer1000km p).

Definition maxWaypoints (link : Flow.t) (p : PathsParams) : number :=
  let dist := distance (Flow.source link) (Flow.target link) in
  Math.round (dist / lit 1000 * maxWaypointsPer1000km p).

(** [Math.floor(Math.random() * (1 + maxWaypoints - minWaypoints)) +
    minWaypoints] *)
Definition numWaypoints (link : Flow.t) (p : PathsParams) (random : number)
  : number :=
  Math.floor (random * (lit 1 + maxWaypoints link p - minWaypoints link p))
  + minWaypoints link p.

Definition getCurvedPaths (link : Flow.t) (p : PathsParams) : M (list Path.t) :=
  for_lt (numLinesPerLink link p) (fun lineIndex paths =>
    random <- Math.random ;;
    let numWaypoints := numWaypoints link p random in
    waypoints <- for_lt numWaypoints (fun waypointIndex waypoints =>
      random <- Math.random ;;
      ret (waypoints
             ++ [waypoint link numWaypoints waypointIndex
                   (deviation p waypointIndex random)])) [] ;;
    let allWaypoints := [Flow.source link] ++ waypoints ++ [Flow.target link] in
    let feature := if smooth p then bezierSpline allWaypoints else allWaypoints in
    let '(distances, totalDistance) := getDistances feature in
    ret (paths ++ [{| Path.coordinates := feature;
                      Path.distances := distances;
                      Path.totalDistance := totalDistance |}])) [].

Definition getSelfPath (link : Flow.t) : list Path.t :=
  let circleCoords := circle (Flow.source link) (lit 30) (lit 20) "kilometers" in
  let '(distances, totalDistance) := getDistances circleCoords in
  [{| Path.coordinates := circleCoords;
      Path.distances := distances;
      Path.totalDistance := totalDistance |}].

(** [link.routeGeometry?.coordinates || []] *)
Definition routeCoordinates (link : Flow.t) : list Position :=
  match Flow.routeGeometry link with
  | Some coordinates => coordinates
  | None => []
  end.

Definition getRoadPaths (link : Flow.t) : list Path.t :=
  let '(distances, totalDistance) := getDistances (routeCoordinates link) in
  [{| Path.coordinates := routeCoordinates link;
      Path.distances := distances;
      Path.totalDistance := totalDistance |}].

(** [l.sourceId === l.targetId] *)
Definition isSelf (l : Flow.t) : bool :=
  String.eqb (Flow.sourceId l) (Flow.targetId l).

(** [isSelf ? getSelfPath(l) : getCurvedPaths(l, params)], the paths
    [useFlowsWithCurvedPaths] attaches to the flow [l]. *)
Definition curvedPathsOf (params : PathsParams) (l : Flow.t) : M (list Path.t) :=
  if isSelf l then ret (getSelfPath l) else getCurvedPaths l params.

Definition useFlowsWithCurvedPaths (flows : list Flow.t) (params : PathsParams)
  : M (list (Flow.t * list Path.t)) :=
  mapM (fun l => paths <- curvedPathsOf params l ;; ret (l, paths)) flows.

(** [isSelf ? getSelfPath(l) : getRoadPaths(l)], the paths
    [useFlowsWithRoadPaths] attaches to the flow [l]. *)
Definition roadPathsOf (l : Flow.t) : list Path.t :=
  if isSelf l then getSelfPath l else getRoadPaths l.

Definition useFlowsWithRoadPaths (flows : list Flow.t)
  : list (Flow.t * list Path.t) :=
  map (fun l => (l, roadPathsOf l)) flows.

(** *** Trip simulator: [getPathTrips] *)

Definition numParticles (flow : Flow.t) (p : TripsParams) : number :=
  Math.min (Flow.value flow * numParticlesMultiplicator p) (maxParticles p).

(** [interval = d / numParticles] with [d = toTimeStamp - fromTimestamp] *)
Definition interval (flow : Flow.t) (p : TripsParams) : number :=
  let d := toTimeStamp p - fromTimestamp p in
  d / numParticles flow p.

(** [speedKps + (Math.random() - 0.5) * 2 * speedKps * speedKpsHumanize] *)
Definition humanizedSpeedKps (p : TripsParams) (random : number) : number :=
  let humanizeSpeedKps := (random - half) * lit 2 * speedKps p * speedKpsHumanize p in
  speedKps p + humanizeSpeedKps.

Definition baseDuration (path : Path.t) (p : TripsParams) (random : number)
  : number :=
  Path.totalDistance path / humanizedSpeedKps p random.

(** [fromTimestamp + i * interval + humanizeInterval] *)
Definition timestampStart (flow : Flow.t) (p : TripsParams) (i : nat)
    (random : number) : number :=
  let humanizeInterval :=
    (random - half) * lit 2 * interval flow p * intervalHumanize p in
  fromTimestamp p + JS.of_nat i * interval flow p + humanizeInterval.

(** The accumulator of the reduction over the coordinates of the path. *)
Record Accumulator : Type := {
  waypoints : list Waypoint.t;
  accDistance : number
}.

Definition waypointsAccumulator (path : Path.t)
    (timestampStart timestampDelta : number) : Accumulator :=
  reduce
    (fun accumulator currentCoords currentIndex =>
       let accDistance := accDistance accumulator in
       let accDistanceRatio := accDistance / Path.totalDistance path in
       let timestamp := timestampStart + accDistanceRatio * timestampDelta in
       {| accDistance := accDistance + index (Path.distances path) currentIndex;
          waypoints :=
            waypoints accumulator
              ++ [{| Waypoint.coordinates := currentCoords;
                     Waypoint.timestamp := timestamp |}] |})
    (Path.coordinates path)
    {| waypoints := []; accDistance := lit 0 |}.

(** The distance accumulated when the reduction reaches coordinate [k]:
    the sum of the entries of [distances] before [k]. *)
Fixpoint accDistanceBefore (distances : list number) (k : nat) : number :=
  match k with
  | O => lit 0
  | S j => accDistanceBefore distances j + index distances j
  end.

(** The waypoints of particle [i], from the two draws that set its speed
    and its start. *)
Definition tripWaypoints (path : Path.t) (flow : Flow.t) (p : TripsParams)
    (i : nat) (randomSpeed randomInterval : number) : list Waypoint.t :=
  let timestampStart := timestampStart flow p i randomInterval in
  let timestampEnd := timestampStart + baseDuration path p randomSpeed in
  let timestampDelta := timestampEnd - timestampStart in
  waypoints (waypointsAccumulator path timestampStart timestampDelta).

(** The reduction that picks the category, and its [|| 0]. *)
Definition categoryIndex (randomCategoryRatio : number) (ratios : list number)
  : nat :=
  or_zero
    (reduce
       (fun (acc : option nat) ratio i =>
          match acc with
          | Some _ => acc
          | None => if randomCategoryRatio <? ratio then Some i else acc
          end)
       ratios None).

(** [CATEGORIES[categoryIndex]] and the colour of its entry in
    [CATEGORIES_PROPS]; an index past the table gives [undefined], and the
    read of [.color] then throws. *)
Definition categoryColor (categoryIndex : nat) : M (Category * list number) :=
  match nth_error CATEGORIES categoryIndex with
  | Some category =>
      ret (category, hexToRgb (hex_color (CATEGORIES_PROPS category)))
  | None => throw "TypeError"
  end.

(** The body of the loop of [getPathTrips]: particle [i], with the trips
    pushed so far. *)
Definition particle (path : Path.t) (flow : Flow.t) (p : TripsParams)
    (i : nat) (trips : list (Trip.t Category)) : M (list (Trip.t Category)) :=
  randomSpeed <- Math.random ;;
  randomInterval <- Math.random ;;
  let waypoints := tripWaypoints path flow p i randomSpeed randomInterval in
  match Flow.valuesRatiosByFoodGroup flow with
  | None => ret trips
  | Some ratios =>
      randomCategoryRatio <- Math.random ;;
      let categoryIndex := categoryIndex randomCategoryRatio ratios in
      categoryAndColor <- categoryColor categoryIndex ;;
      let '(category, color) := categoryAndColor in
      ret (trips ++ [{| Trip.waypoints := waypoints;
                        Trip.color := color ++ [lit 255];
                        Trip.foodGroup := category |}])
  end.

Definition getPathTrips (path : Path.t) (flow : Flow.t) (p : TripsParams)
  : M (list (Trip.t Category)) :=
  for_lt (numParticles flow p) (particle path flow p) [].

(** [getPathTrips] with its loop driven by the guard [i < numParticles], as
    the source writes it; [fuel] bounds the number of tests of the guard.
    It follows the run also under the bound [Infinity], where the loop
    stops only if an iteration throws. *)
Definition getPathTrips_guarded (fuel : nat) (path : Path.t) (flow : Flow.t)
    (p : TripsParams) : M (list (Trip.t Category)) :=
  for_lt_guarded fuel 0 (numParticles flow p) (particle path flow p) [].

(** The trip particle [i] of [getPathTrips] pushes when its iteration starts
    with the cursor at [s] and the flow has the shares [ratios]: it reads
    the draws [s], [s + 1] and [s + 2]; there is none when the category
    index falls outside [CATEGORIES]. *)
Definition tripAt (path : Path.t) (flow : Flow.t) (p : TripsParams)
    (ratios : list number) (i s : nat) : option (Trip.t Category) :=
  match nth_error CATEGORIES (categoryIndex (Num (draw (S (S s)))) ratios) with
  | Some category =>
      Some {| Trip.waypoints :=
                tripWaypoints path flow p i (Num (draw s)) (Num (draw (S s)));
              Trip.color :=
                hexToRgb (hex_color (CATEGORIES_PROPS category)) ++ [lit 255];
              Trip.foodGroup := category |}
  | None => None
  end.

End UseFlows.

(** ** A concrete setting

    Stand-ins for the imports, on which the code can be run: they fix what
    the theorems below leave open, and carry their witnesses and the
    counterexamples.  None of them claims to be the imported code. *)

#[global] Existing Instance ideal.

Module Sample.

Local Open Scope js_scope.

Definition abs (a : number) : number := if a <? lit 0 then - a else a.

(** A hundred kilometres per degree, along the axes. *)
Definition flat_distance (a b : Position) : number :=
  lit 100 * (abs (fst a - fst b) + abs (snd a - snd b)).

(** One distance per coordinate, the last one zero. *)
Fixpoint segments (l : list Position) : list number :=
  match l with
  | a :: (b :: _) as rest => flat_distance a b :: segments rest
  | [_] => [lit 0]
  | [] => []
  end.

Definition table_distances (l : list Position) : list number * number :=
  (segments l, fold_left JS.add (segments l) (lit 0)).

(** A closed diamond around the centre, whatever the number of steps. *)
Definition diamond (c : Position) (radius steps : number) (units : string)
  : list Position :=
  let '(x, y) := c in
  let r := radius / lit 100 in
  [(x + r, y); (x, y + r); (x - r, y); (x, y - r); (x + r, y)].

(** Each character as a pair: its code and its place in the string. *)
Fixpoint decode_from (i : nat) (s : string) : list (number * number) :=
  match s with
  | EmptyString => []
  | String c rest =>
      (JS.of_nat (Ascii.nat_of_ascii c), JS.of_nat i) :: decode_from (S i) rest
  end.

Definition total (magnitudes : list Q) : Q := fold_left Qplus magnitudes 0%Q.

(** Running sums of the group magnitudes over their total. *)
Fixpoint cumulative (sofar total : Q) (magnitudes : list Q) : list number :=
  match magnitudes with
  | [] => []
  | m :: rest =>
      (Num (Qred (sofar + m)) / Num total) :: cumulative (sofar + m) total rest
  end.

Definition share_stats (byCropGroup byCrop : list Q) : Stats.t :=
  {| Stats.total := Num (total byCropGroup);
     Stats.byCropGroupCumulative :=
       Some (cumulative 0 (total byCropGroup) byCropGroup) |}.

Definition palette (hex : string) : list number :=
  if String.eqb hex "#e41a1c" then [lit 228; lit 26; lit 28]
  else if String.eqb hex "#377eb8" then [lit 55; lit 126; lit 184]
  else if String.eqb hex "#4daf4a" then [lit 77; lit 175; lit 74]
  else [lit 0; lit 0; lit 0].

Definition props (category : string) : CategoryProps :=
  if String.eqb category "grain" then {| hex_color := "#e41a1c" |}
  else if String.eqb category "nuts" then {| hex_color := "#377eb8" |}
  else {| hex_color := "#4daf4a" |}.

#[global] Instance imports : Imports := {|
  Category := string;
  FlowsByCrop := list Q;
  FlowsByCropGroup := list Q;
  CATEGORIES := ["grain"; "nuts"; "vegetables"]%string;
  CATEGORIES_PROPS := props;
  getDistances := table_distances;
  getStats := share_stats;
  hexToRgb := palette;
  distance := flat_distance;
  circle := diamond;
  bezierSpline := fun l => l;
  polyline_decode := decode_from 0
|}.

(** The three functions at the one angle the examples meet: [atan2(0, x)]
    for a positive [x] is [0], [cos 0] is [1] and [sin 0] is [0]; elsewhere
    the table has no entry. *)
#[global] Instance trigonometry : Trigonometry := {|
  trig_cos := fun a => match a with Num q => if Qeq_bool q 0 then lit 1 else NaN | _ => NaN end;
  trig_sin := fun a => match a with Num q => if Qeq_bool q 0 then lit 0 else NaN | _ => NaN end;
  trig_atan2 := fun y x =>
    match y, x with
    | Num p, Num q => if Qeq_bool p 0 && negb (Qle_bool q 0) then lit 0 else NaN
    | _, _ => NaN
    end
|}.

(** Draws 0, 1/4, 1/2, 3/4, 0, ... *)
#[global] Instance quarters : RandomSource := {|
  draw := fun i => (inject_Z (Z.of_nat (i mod 4)) / 4)%Q
|}.

(** Every draw 0. *)
Definition zeros : RandomSource := {| draw := fun _ => 0%Q |}.

(** A flow from A at the origin to B four degrees east of it. *)
Definition flow (value : number) : Flow.t := {|
  Flow.source := (lit 0, lit 0);
  Flow.target := (lit 4, lit 0);
  Flow.sourceId := "A";
  Flow.targetId := "B";
  Flow.routeGeometry := None;
  Flow.value := value;
  Flow.valuesRatiosByFoodGroup := Some [Num (2 # 10); Num (5 # 10); lit 1]
|}.

(** A raw record for county 21001, from its group magnitudes, its encoded
    route and the direction of the route. *)
Definition record (byCropGroup : list Q) (route direction : option string)
  : Raw.t (@FlowsByCrop imports) (@FlowsByCropGroup imports) := {|
  Raw.county_id := "21001";
  Raw.county_centroid := (lit 4, lit 0);
  Raw.route_geometry := route;
  Raw.route_direction := direction;
  Raw.flowsByCrop := [];
  Raw.flowsByCropGroup := byCropGroup
|}.

(** The default path parameters under a minimal deviation of 0.2. *)
Definition deviating : PathsParams := {|
  linesPerLinkMultiplicator := lit 1;
  maxLinesPerLink := lit 30;
  minWaypointsPer1000km := lit 4;
  maxWaypointsPer1000km := lit 8;
  minDeviationDegrees := Num (2 # 10);
  maxDeviationDegrees := Num (6 # 10);
  smooth := false
|}.

(** The default trip parameters under another multiplicator and cap. *)
Definition particles (multiplicator cap : number) : TripsParams := {|
  numParticlesMultiplicator := multiplicator;
  fromTimestamp := lit 0;
  toTimeStamp := lit 100;
  intervalHumanize := half;
  speedKps := lit 100;
  speedKpsHumanize := half;
  maxParticles := cap
|}.

(** The path of road mode for a flow without a route: no coordinates. *)
Definition empty_path : Path.t := {|
  Path.coordinates := [];
  Path.distances := [];
  Path.totalDistance := lit 0
|}.

(** The straight path from A to B, 400 km long. *)
Definition straight_path : Path.t := {|
  Path.coordinates := [(lit 0, lit 0); (lit 4, lit 0)];
  Path.distances := [lit 400; lit 0];
  Path.totalDistance := lit 400
|}.

(** Two coordinates on the same spot: a path of length zero. *)
Definition still_path : Path.t := {|
  Path.coordinates := [(lit 0, lit 0); (lit 0, lit 0)];
  Path.distances := [lit 0; lit 0];
  Path.totalDistance := lit 0
|}.

(** The default trip parameters under another humanisation of the speed. *)
Definition humanized (speedHumanize : number) : TripsParams := {|
  numParticlesMultiplicator := lit 1;
  fromTimestamp := lit 0;
  toTimeStamp := lit 100;
  intervalHumanize := half;
  speedKps := lit 100;
  speedKpsHumanize := speedHumanize;
  maxParticles := lit 500
|}.

End Sample.

(** A list of optional values read as one optional list: all of them, or
    nothing when one is missing. *)
Fixpoint those {A : Type} (l : list (option A)) : option (list A) :=
  match l with
  | [] => Some []
  | None :: _ => None
  | Some x :: rest =>
      match those rest with
      | Some xs => Some (x :: xs)
      | None => None
      end
  end.

(** ** The trips of all flows: [useFlowsWithTrips] *)

(** The controls of the ["trips"] panel, with their initial values. *)
Module Controls.
Record t : Type := {
  numParticlesCurvedPathsMultiplicator : number;
  numParticlesRoadsMultiplicator : number;
  fromTimestamp : number;
  toTimeStamp : number;
  intervalHumanize : number;
  speedKps : number;
  speedKpsHumanize : number;
  maxParticles : number
}.

Definition initial : t := {|
  numParticlesCurvedPathsMultiplicator := lit 10;
  numParticlesRoadsMultiplicator := lit 100;
  fromTimestamp := lit 0;
  toTimeStamp := lit 100;
  intervalHumanize := half;
  speedKps := lit 100;
  speedKpsHumanize := half;
  maxParticles := lit 100
|}.
End Controls.

(** [{ ...params, numParticlesMultiplicator: roads ?
    params.numParticlesRoadsMultiplicator :
    params.numParticlesCurvedPathsMultiplicator }] as [getPathTrips]
    destructures it. *)
Definition tripsParams (roads : bool) (params : Controls.t) : TripsParams := {|
  numParticlesMultiplicator :=
    if roads then Controls.numParticlesRoadsMultiplicator params
    else Controls.numParticlesCurvedPathsMultiplicator params;
  fromTimestamp := Controls.fromTimestamp params;
  toTimeStamp := Controls.toTimeStamp params;
  intervalHumanize := Controls.intervalHumanize params;
  speedKps := Controls.speedKps params;
  speedKpsHumanize := Controls.speedKpsHumanize params;
  maxParticles := Controls.maxParticles params
|}.

Section UseFlowsWithTrips.

Context `{Imports} `{RandomSource} `{Rounding}.

(** [l.paths.map((p) => getPathTrips(p, l, params)).flat()] *)
Definition flowTrips (params : TripsParams) (l : Flow.t) (paths : list Path.t)
  : M (list (Trip.t Category)) :=
  trips <- mapM (fun p => getPathTrips p l params) paths ;;
  ret (List.concat trips).

(** A flow with its paths is a pair; [{ ...l, trips }] adds the trips. *)
Definition useFlowsWithTrips
    (flowsWithCurvedPaths flowsWithRoadPaths : list (Flow.t * list Path.t))
    (params : Controls.t) (roads : bool)
  : M (list (Flow.t * list Path.t * list (Trip.t Category))) :=
  let flowsWithPaths :=
    if roads then flowsWithRoadPaths else flowsWithCurvedPaths in
  mapM (fun l =>
          trips <- flowTrips (tripsParams roads params) (fst l) (snd l) ;;
          ret (l, trips))
       flowsWithPaths.

End UseFlowsWithTrips.

(** ** The selected county ([selectedCountyAtom]) *)

(** A county feature: the properties of [County], and its geometry. *)
Module County.
Record t (Geometry : Type) : Type := {
  geoid : string;
  name : string;
  geometry : Geometry
}.
Arguments geoid {Geometry} _.
Arguments name {Geometry} _.
Arguments geometry {Geometry} _.
End County.

(** [if (!countyId || !counties) return; return counties.features.find(
    (county) => county.properties.geoid === countyId)] *)
Definition selectedCountyAtom {Geometry : Type} (countyId : string)
    (counties : option (list (County.t Geometry))) : option (County.t Geometry) :=
  if negb (truthy countyId) then None
  else
    match counties with
    | None => None
    | Some features =>
        find (fun county => String.eqb (County.geoid county) countyId) features
    end.

(** What [useFlows] reads of the selected county: its [geoid], and its
    centroid as turf's [centroid] computes it. *)
Definition selectedInput {Geometry : Type} (centroid : County.t Geometry -> Position)
    (selectedCounty : option (County.t Geometry)) : option (string * Position) :=
  option_map (fun county => (County.geoid county, centroid county)) selectedCounty.

(** ** The style of the map: [useMapStyle] *)

Module MapStyle.

(** A source of the style: one the initial style brings, the raster of the
    stress tiles, or the GeoJSON collection of the routes (each feature by
    the coordinates of its line). *)
Inductive source (S : Type) : Type :=
| InitialSource (s : S)
| Raster (tiles : list string) (tileSize : number) (scheme : string)
| GeoJSON (features : list (list Position)).

Arguments InitialSource {S} s.
Arguments Raster {S} tiles tileSize scheme.
Arguments GeoJSON {S} features.

(** A layer: one the initial style brings, the raster layer with the stops
    of its colour interpolation, its mix and its range, or a line layer. *)
Inductive layer (L : Type) : Type :=
| InitialLayer (l : L)
| RasterLayer (id source : string) (rasterColor : list (number * string))
    (rasterColorMix rasterColorRange : list number)
| LineLayer (id source lineColor : string) (lineWidth : number).

Arguments InitialLayer {L} l.
Arguments RasterLayer {L} id source rasterColor rasterColorMix rasterColorRange.
Arguments LineLayer {L} id source lineColor lineWidth.

(** A style: its sources by key, in the order of the keys, its layers, and
    whatever else it holds. *)
Record t (S L R : Type) : Type := {
  sources : list (string * S);
  layers : list L;
  rest : R
}.
Arguments sources {S L R} _.
Arguments layers {S L R} _.
Arguments rest {S L R} _.

(** [o[k]] *)
Fixpoint lookup {V : Type} (k : string) (o : list (string * V)) : option V :=
  match o with
  | [] => None
  | (k', v) :: others => if String.eqb k' k then Some v else lookup k others
  end.

(** [o[k] = v]: the value of an existing key is replaced where the key
    stands, a new key comes last. *)
Fixpoint assign {V : Type} (k : string) (v : V) (o : list (string * V))
  : list (string * V) :=
  match o with
  | [] => [(k, v)]
  | (k', v') :: others =>
      if String.eqb k' k then (k, v) :: others else (k', v') :: assign k v others
  end.

(** The id of a layer the hook adds. *)
Definition added_id {L : Type} (l : layer L) : option string :=
  match l with
  | InitialLayer _ => None
  | RasterLayer id _ _ _ _ => Some id
  | LineLayer id _ _ _ => Some id
  end.

(** The key of the source a layer the hook adds draws from. *)
Definition added_source {L : Type} (l : layer L) : option string :=
  match l with
  | InitialLayer _ => None
  | RasterLayer _ source _ _ _ => Some source
  | LineLayer _ source _ _ => Some source
  end.

End MapStyle.

(** The five colours of the ["stress color scale"] panel. *)
Record StressColors : Type := {
  color0 : string;
  color1 : string;
  color2 : string;
  color3 : string;
  color4 : string
}.

(** [useMapStyle]: [roads] and [stress] are the values of the two atoms
    ([stress] is [null] or an adverse condition). *)
Definition useMapStyle {S L R Stress : Type} (initialMapStyle : MapStyle.t S L R)
    (flows : list Flow.t) (roads : bool) (stress : option Stress)
    (colors : StressColors)
  : MapStyle.t (MapStyle.source S) (MapStyle.layer L) R :=
  let sources :=
    map (fun kv => (fst kv, MapStyle.InitialSource (snd kv)))
        (MapStyle.sources initialMapStyle) in
  let layers := map MapStyle.InitialLayer (MapStyle.layers initialMapStyle) in
  let '(sources, layers) :=
    match stress with
    | Some _ =>
        (MapStyle.assign "stress"
           (MapStyle.Raster
              ["https://food-system-digital-twin-public.s3.us-east-2.amazonaws.com/tiles/{z}/{x}/{y}.png"%string]
              (lit 256) "tms")
           sources,
         layers
           ++ [MapStyle.RasterLayer "cog-layer" "stress"
                 [(lit 0, color0 colors); (lit 7, color1 colors);
                  (lit 15, color2 colors); (lit 23, color3 colors);
                  (lit 31, color4 colors)]
                 [lit 31; lit 0; lit 0; lit 0]
                 [lit 0; lit 31]])
    | None => (sources, layers)
    end in
  let '(sources, layers) :=
    if roads then
      let routes :=
        flat_map (fun flow =>
                    match Flow.routeGeometry flow with
                    | Some coordinates => [coordinates]
                    | None => []
                    end) flows in
      (MapStyle.assign "routes" (MapStyle.GeoJSON routes) sources,
       layers ++ [MapStyle.LineLayer "routes" "routes" "#ffffff" (lit 4)])
    else (sources, layers) in
  {| MapStyle.sources := sources;
     MapStyle.layers := layers;
     MapStyle.rest := MapStyle.rest initialMapStyle |}.

(** ** The adverse conditions of the API ([outbound.js]) *)

Module Api.

(** A row of the query: its destination county, its value, and the columns
    that are only passed on. *)
Record row (Columns : Type) : Type := {
  county_id : string;
  value : number;
  columns : Columns
}.
Arguments county_id {Columns} _.
Arguments value {Columns} _.
Arguments columns {Columns} _.

(** [{ ...f, value_drought, value_heat_stress }] *)
Record adverse (Columns : Type) : Type := {
  flow : row Columns;
  value_drought : number;
  value_heat_stress : number
}.
Arguments flow {Columns} _.
Arguments value_drought {Columns} _.
Arguments value_heat_stress {Columns} _.

(** [Math.round(f.value * (0.5 + 0.5 * Math.random()))], [random] being
    the draw. *)
Definition adverseValue `{Rounding} (value random : number) : number :=
  Math.round (value * (half + half * random))%js.

(** [outbound.map((f) => ({ ...f, value_drought: ..., value_heat_stress:
    ... }))] *)
Definition outboundsWithAdverseConditions `{RandomSource} `{Rounding}
    {Columns : Type}
    (outbound : list (row Columns)) : M (list (adverse Columns)) :=
  mapM (fun f =>
          randomDrought <- Math.random ;;
          randomHeat <- Math.random ;;
          ret {| flow := f;
                 value_drought := adverseValue (value f) randomDrought;
                 value_heat_stress := adverseValue (value f) randomHeat |})
       outbound.

End Api.

(** ** A setting with too few categories

    The sample imports with a table of one category: the three shares of
    the sample flow reach past it. *)

Module Scenario.

Definition uncovered : Imports := {|
  Category := string;
  FlowsByCrop := list Q;
  FlowsByCropGroup := list Q;
  CATEGORIES := ["grain"]%string;
  CATEGORIES_PROPS := Sample.props;
  getDistances := Sample.table_distances;
  getStats := Sample.share_stats;
  hexToRgb := Sample.palette;
  distance := Sample.flat_distance;
  circle := Sample.diamond;
  bezierSpline := fun l => l;
  polyline_decode := Sample.decode_from 0
|}.

(** The sample flow of value 1, with the straight path in curved mode and
    the empty path in road mode. *)
Definition curved : list (Flow.t * list Path.t) :=
  [(Sample.flow (lit 1), [Sample.straight_path])].

Definition road : list (Flow.t * list Path.t) :=
  [(Sample.flow (lit 1), [Sample.empty_path])].

(** The flow the normaliser makes, in the arithmetic given, of a record
    for county 21001 with these group magnitudes, the county 21137 being
    selected at the origin. *)
Definition flow_of_total (arithmetic : Rounding) (byCropGroup : list Q) : Flow.t :=
  @useFlows_record Sample.imports arithmetic "consumer" (lit 0, lit 0) "21137"
    (Sample.record byCropGroup None None).

(** The default path parameters under another multiplicator and cap. *)
Definition lines (multiplicator cap : number) : PathsParams := {|
  linesPerLinkMultiplicator := multiplicator;
  maxLinesPerLink := cap;
  minWaypointsPer1000km := lit 4;
  maxWaypointsPer1000km := lit 8;
  minDeviationDegrees := lit 0;
  maxDeviationDegrees := @decimal binary64 (6 # 10);
  smooth := false
|}.

End Scenario.

(** * Properties *)

(** ** Loops *)

Lemma those_length {A : Type} (l : list (option A)) (xs : list A) :
  those l = Some xs -> List.length xs = List.length l.
Proof.
  revert xs; induction l as [|[x|] l IH]; simpl; intros xs E.
  - now inversion E.
  - destruct (those l) as [ys|]; [|discriminate].
    inversion E; subst; simpl; f_equal; now apply IH.
  - discriminate.
Qed.

Lemma those_nth {A : Type} (l : list (option A)) (xs : list A) (i : nat) (x : A) :
  those l = Some xs -> nth_error xs i = Some x -> nth_error l i = Some (Some x).
Proof.
  revert xs i; induction l as [|[y|] l IH]; simpl; intros xs i E N.
  - inversion E; subst; now destruct i.
  - destruct (those l) as [ys|]; [|discriminate].
    inversion E; subst.
    destruct i as [|i]; simpl in *; [now inversion N|].
    now apply (IH ys).
  - discriminate.
Qed.

Lemma those_all {A : Type} (l : list (option A)) :
  (forall o, In o l -> o <> None) -> exists xs, those l = Some xs.
Proof.
  induction l as [|[y|] l IH]; simpl; intros Hall.
  - now exists [].
  - destruct IH as [xs E]; [intros o Ho; apply Hall; now right|].
    rewrite E; now exists (y :: xs).
  - exfalso; apply (Hall None); [now left|reflexivity].
Qed.

(** A body that pushes one value, a function [f] of the index and of the
    cursor, after [c] draws, or throws when [f] has no value: the loop
    returns all the values, or throws. *)
Lemma foldM_push {A : Type} (body : nat -> list A -> M (list A))
    (f : nat -> nat -> option A) (c : nat) (e : string) :
  (forall i acc s,
      body i acc s = match f i s with
                     | Some x => Returns (acc ++ [x]) (s + c)
                     | None => Throws e
                     end) ->
  forall k a acc s,
    foldM body (seq a k) acc s =
    match those (map (fun j => f (a + j) (s + c * j))%nat (seq 0 k)) with
    | Some xs => Returns (acc ++ xs) (s + c * k)
    | None => Throws e
    end.
Proof.
  intros Hbody k; induction k as [|k IH]; intros a acc s.
  - simpl. unfold ret. now rewrite app_nil_r, Nat.mul_0_r, Nat.add_0_r.
  - change (seq a (S k)) with (a :: seq (S a) k).
    change (seq 0 (S k)) with (0%nat :: seq 1 k).
    rewrite <- (seq_shift k 0).
    cbn [foldM map those]. unfold bind at 1. rewrite Hbody.
    rewrite map_map, Nat.mul_0_r, !Nat.add_0_r.
    destruct (f a s) as [x|]; [|reflexivity].
    rewrite IH.
    rewrite (map_ext (fun j => f (a + S j) (s + c * S j))%nat
                     (fun j => f (S a + j) (s + c + c * j))%nat).
    2:{ intros j. f_equal; lia. }
    destruct (those _) as [xs|]; [|reflexivity].
    rewrite <- app_assoc. simpl. f_equal. lia.
Qed.

(** A body that leaves the accumulator alone. *)
Lemma foldM_skip {St : Type} (body : nat -> St -> M St) (c : nat) :
  (forall i acc s, body i acc s = Returns acc (s + c)) ->
  forall l acc s, foldM body l acc s = Returns acc (s + c * List.length l).
Proof.
  intros Hbody l; induction l as [|i l IH]; intros acc s; simpl.
  - unfold ret. f_equal. lia.
  - unfold bind. rewrite Hbody, IH. f_equal. lia.
Qed.

(** A body that always returns with one more element: so does the loop,
    with one more element per index. *)
Lemma foldM_grows {A : Type} (body : nat -> list A -> M (list A)) :
  (forall i acc s, exists x s', body i acc s = Returns (acc ++ [x]) s') ->
  forall l acc s,
  exists out s', foldM body l acc s = Returns out s'
                 /\ List.length out = (List.length acc + List.length l)%nat.
Proof.
  intros Hbody l; induction l as [|i l IH]; intros acc s; simpl.
  - exists acc, s. split; [reflexivity|lia].
  - unfold bind. destruct (Hbody i acc s) as (x & s1 & E). rewrite E.
    destruct (IH (acc ++ [x]) s1) as (out & s' & E' & L).
    exists out, s'. split; [exact E'|].
    rewrite L, length_app. simpl. lia.
Qed.

(** ** Numbers *)

Lemma lt_true_iff (p q : Q) : JS.lt (Num p) (Num q) = true <-> p < q.
Proof.
  simpl. rewrite negb_true_iff. split.
  - intros E. apply Qnot_le_lt. intros L. apply Qle_bool_iff in L. congruence.
  - intros L. destruct (Qle_bool q p) eqn:E; [|reflexivity].
    apply Qle_bool_iff in E. exfalso. revert E. now apply Qlt_not_le.
Qed.

Lemma lt_false_iff (p q : Q) : JS.lt (Num p) (Num q) = false <-> q <= p.
Proof.
  simpl. rewrite negb_false_iff. apply Qle_bool_iff.
Qed.

Lemma le_true_iff (p q : Q) : JS.le (Num p) (Num q) = true <-> p <= q.
Proof. apply Qle_bool_iff. Qed.

(** An integer is below a rational exactly when it is below its ceiling. *)
Lemma below_ceiling (i : nat) (q : Q) :
  inject_Z (Z.of_nat i) < q <-> (i < Z.to_nat (Qceiling q))%nat.
Proof.
  split.
  - intros L.
    assert (inject_Z (Z.of_nat i) < inject_Z (Qceiling q)) as L'.
    { eapply Qlt_le_trans; [exact L|apply Qle_ceiling]. }
    rewrite <- Zlt_Qlt in L'. lia.
  - intros L.
    assert (Z.of_nat i <= Qceiling q - 1)%Z as L' by lia.
    rewrite Zle_Qle in L'.
    eapply Qle_lt_trans; [exact L'|apply Qceiling_lt].
Qed.

(** The guard [i < n] of a counting loop holds for exactly the first
    [trip_count n] indices, and for all of them when there is no count. *)
Lemma guard_trip_count (i : nat) (n : number) :
  (JS.of_nat i <? n)%js = true <->
  match trip_count n with
  | Some k => (i < k)%nat
  | None => True
  end.
Proof.
  destruct n as [q| | |]; simpl trip_count.
  - unfold JS.of_nat, JS.of_Z. rewrite lt_true_iff. apply below_ceiling.
  - simpl. split; [discriminate|lia].
  - simpl. tauto.
  - simpl. split; [discriminate|lia].
Qed.

(** The loop driven by its guard, given fuel for one test more than it has
    iterations left, is the loop over the indices below the bound. *)
Lemma for_lt_guarded_from {St : Type} (n : number) (body : nat -> St -> M St)
    (k : nat) :
  trip_count n = Some k ->
  forall fuel i acc s,
    (i <= k)%nat -> (k - i < fuel)%nat ->
    for_lt_guarded fuel i n body acc s = foldM body (seq i (k - i)) acc s.
Proof.
  intros Hk fuel; induction fuel as [|fuel IH]; intros i acc s Hi Hfuel; [lia|].
  cbn [for_lt_guarded].
  destruct (JS.of_nat i <? n)%js eqn:G.
  - apply guard_trip_count in G. rewrite Hk in G.
    replace (k - i)%nat with (S (k - S i)) by lia.
    cbn [seq foldM]. unfold bind.
    destruct (body i acc s) as [acc' s'| |]; [|reflexivity|reflexivity].
    apply IH; lia.
  - assert (~ (i < k)%nat) as G'.
    { intros L. pose proof (proj2 (guard_trip_count i n)) as B.
      rewrite Hk in B. rewrite (B L) in G. discriminate. }
    replace (k - i)%nat with 0%nat by lia. reflexivity.
Qed.

Lemma for_lt_guarded_enough {St : Type} (n : number) (body : nat -> St -> M St)
    (k fuel : nat) (init : St) (s : nat) :
  trip_count n = Some k -> (k < fuel)%nat ->
  for_lt_guarded fuel 0 n body init s = for_lt n body init s.
Proof.
  intros Hk Hfuel. unfold for_lt. rewrite Hk.
  rewrite (for_lt_guarded_from n body k Hk fuel 0 init s); [|lia|lia].
  now rewrite Nat.sub_0_r.
Qed.

(** Under the bound [Infinity] no amount of fuel lets the loop return. *)
Lemma for_lt_guarded_unbounded {St : Type} (body : nat -> St -> M St)
    (fuel i : nat) (acc : St) (s : nat) :
  forall out s', for_lt_guarded fuel i PosInf body acc s <> Returns out s'.
Proof.
  revert i acc s; induction fuel as [|fuel IH]; intros i acc s out s'.
  - discriminate.
  - cbn [for_lt_guarded]. change (JS.of_nat i <? PosInf)%js with true.
    cbn iota. unfold bind. destruct (body i acc s) as [acc' s1| |]; try discriminate.
    apply IH.
Qed.

Lemma trip_count_lit (m : Z) : trip_count (lit m) = Some (Z.to_nat m).
Proof.
  unfold lit, JS.of_Z. simpl. now rewrite Qceiling_Z.
Qed.

Lemma le_lit_iff (a b : Z) : JS.le (lit a) (lit b) = true <-> (a <= b)%Z.
Proof.
  unfold lit, JS.of_Z. rewrite le_true_iff. now rewrite <- Zle_Qle.
Qed.

Lemma lt_lit_iff (a b : Z) : JS.lt (lit a) (lit b) = true <-> (a < b)%Z.
Proof.
  unfold lit, JS.of_Z. rewrite lt_true_iff. now rewrite <- Zlt_Qlt.
Qed.

(** [Math.min] of a rounded number and an integer is an integer no larger
    than that integer, or [NaN], or [-Infinity]. *)
Lemma min_round_integer (x : number) (z : Z) :
  (exists m : Z, Math.min (Math.round x) (lit z) = lit m /\ (m <= z)%Z)
  \/ Math.min (Math.round x) (lit z) = NaN
  \/ Math.min (Math.round x) (lit z) = NegInf.
Proof.
  destruct x as [q| | |]; unfold Math.round.
  - left. set (r := Qfloor (q + (1 # 2))).
    change (Math.min (JS.of_Z r) (lit z))
      with (if JS.lt (lit z) (lit r) then lit z else lit r).
    destruct (JS.lt (lit z) (lit r)) eqn:E.
    + exists z. split; [reflexivity|lia].
    + exists r. split; [reflexivity|].
      destruct (Z.le_gt_cases r z) as [L|L]; [exact L|].
      apply lt_lit_iff in L. congruence.
  - right; left; reflexivity.
  - left. exists z. split; [reflexivity|lia].
  - right; right; reflexivity.
Qed.

(** ** The rounding of binary64 *)

(** *** Powers of two *)

Lemma pow2_pos (e : Z) : 0 < Binary64.pow2 e.
Proof. apply Qpower_0_lt. reflexivity. Qed.

Lemma pow2_add (a b : Z) :
  Binary64.pow2 (a + b) == Binary64.pow2 a * Binary64.pow2 b.
Proof. apply Qpower_plus. discriminate. Qed.

Lemma pow2_le (a b : Z) : (a <= b)%Z -> Binary64.pow2 a <= Binary64.pow2 b.
Proof. intros L. apply Qpower_le_compat_l; [exact L|discriminate]. Qed.

Lemma pow2_lt (a b : Z) : (a < b)%Z -> Binary64.pow2 a < Binary64.pow2 b.
Proof. intros L. apply Qpower_lt_compat_l; [exact L|reflexivity]. Qed.

Lemma pow2_lt_inv (a b : Z) : Binary64.pow2 a < Binary64.pow2 b -> (a < b)%Z.
Proof. intros L. apply (Qpower_lt_compat_l_inv 2); [exact L|reflexivity]. Qed.

Lemma pow2_Z (k : Z) : (0 <= k)%Z -> Binary64.pow2 k == inject_Z (2 ^ k).
Proof. intros L. symmetry. now apply Zpower_Qpower. Qed.

(** *** Rounding to the nearest integer *)

#[global] Instance nearest_even_comp : Proper (Qeq ==> eq) Binary64.nearest_even.
Proof.
  intros p q E. unfold Binary64.nearest_even.
  rewrite (Qfloor_comp _ _ E).
  assert (p - inject_Z (Qfloor q) == q - inject_Z (Qfloor q)) as E' by now rewrite E.
  now rewrite (Qcompare_comp _ _ E' (1 # 2) (1 # 2) (Qeq_refl _)).
Qed.

Lemma nearest_even_Z (z : Z) : Binary64.nearest_even (inject_Z z) = z.
Proof.
  unfold Binary64.nearest_even. rewrite Qfloor_Z.
  assert (inject_Z z - inject_Z z == 0) as E by ring.
  now rewrite (Qcompare_comp _ _ E (1 # 2) (1 # 2) (Qeq_refl _)).
Qed.

Lemma nearest_even_bounds (q : Q) :
  (Qfloor q <= Binary64.nearest_even q <= Qfloor q + 1)%Z.
Proof.
  unfold Binary64.nearest_even.
  destruct (Qcompare _ _); [destruct (Z.even _)| |]; lia.
Qed.

Lemma nearest_even_le (p q : Q) :
  p <= q -> (Binary64.nearest_even p <= Binary64.nearest_even q)%Z.
Proof.
  intros L. pose proof (Qfloor_resp_le p q L) as F.
  destruct (Z.eq_dec (Qfloor p) (Qfloor q)) as [E|N].
  - unfold Binary64.nearest_even. rewrite E.
    destruct (Qcompare_spec (p - inject_Z (Qfloor q)) (1 # 2)) as [Ep|Lp|Gp];
      destruct (Qcompare_spec (q - inject_Z (Qfloor q)) (1 # 2)) as [Eq|Lq|Gq];
      try destruct (Z.even (Qfloor q)); try lia; exfalso; lra.
  - pose proof (nearest_even_bounds p). pose proof (nearest_even_bounds q). lia.
Qed.

(** *** The binary logarithm *)

Lemma ilog2_spec (q : Q) :
  0 < q ->
  Binary64.pow2 (Binary64.ilog2 q) <= q
  /\ q < Binary64.pow2 (Binary64.ilog2 q + 1).
Proof.
  intros P. destruct q as [n d].
  assert (0 < n)%Z as Pn.
  { unfold Qlt in P. simpl in P. lia. }
  unfold Binary64.ilog2. cbn [Qnum Qden].
  set (a := Z.log2 n). set (b := Z.log2 (Z.pos d)). set (l := (a - b)%Z).
  assert (0 <= a)%Z as Pa by apply Z.log2_nonneg.
  assert (0 <= b)%Z as Pb by apply Z.log2_nonneg.
  destruct (Z.log2_spec n Pn) as (An & Bn). fold a in An, Bn.
  destruct (Z.log2_spec (Z.pos d) eq_refl) as (Ad & Bd). fold b in Ad, Bd.
  rewrite Zle_Qle, <- pow2_Z in An by lia.
  rewrite Zlt_Qlt, <- pow2_Z in Bn by lia.
  rewrite Zle_Qle, <- pow2_Z in Ad by lia.
  rewrite Zlt_Qlt, <- pow2_Z in Bd by lia.
  assert (0 < inject_Z (Z.pos d)) as PD by reflexivity.
  assert (n # d == inject_Z n / inject_Z (Z.pos d)) as E by apply Qmake_Qdiv.
  assert (Binary64.pow2 (l - 1) < n # d) as Low.
  { rewrite E. apply Qlt_shift_div_l; [exact PD|].
    apply Qlt_le_trans with (Binary64.pow2 (l - 1) * Binary64.pow2 (Z.succ b)).
    - apply Qmult_lt_l; [apply pow2_pos|exact Bd].
    - rewrite <- pow2_add. replace (l - 1 + Z.succ b)%Z with a by lia. exact An. }
  assert (n # d < Binary64.pow2 (l + 1)) as High.
  { rewrite E. apply Qlt_shift_div_r; [exact PD|].
    apply Qlt_le_trans with (Binary64.pow2 (Z.succ a)); [exact Bn|].
    replace (Z.succ a) with (l + 1 + b)%Z by lia. rewrite pow2_add.
    apply Qmult_le_l; [apply pow2_pos|exact Ad]. }
  destruct (Qle_bool (Binary64.pow2 l) (n # d)) eqn:T.
  - apply Qle_bool_iff in T. split; [exact T|exact High].
  - split; [now apply Qlt_le_weak|].
    replace (l - 1 + 1)%Z with l by lia.
    apply Qnot_le_lt. intros C. apply Qle_bool_iff in C. congruence.
Qed.

Lemma ilog2_unique (q : Q) (k : Z) :
  Binary64.pow2 k <= q -> q < Binary64.pow2 (k + 1) -> Binary64.ilog2 q = k.
Proof.
  intros Lo Hi.
  assert (0 < q) as P by (eapply Qlt_le_trans; [apply pow2_pos|exact Lo]).
  destruct (ilog2_spec q P) as (Lo' & Hi').
  assert (Binary64.pow2 k < Binary64.pow2 (Binary64.ilog2 q + 1)) as A
      by (eapply Qle_lt_trans; eassumption).
  assert (Binary64.pow2 (Binary64.ilog2 q) < Binary64.pow2 (k + 1)) as B
      by (eapply Qle_lt_trans; eassumption).
  apply pow2_lt_inv in A, B. lia.
Qed.

(** *** The exponent of the last place *)

Lemma ulp_exponent_ge (q : Q) : (-1074 <= Binary64.ulp_exponent q)%Z.
Proof. unfold Binary64.ulp_exponent. lia. Qed.

Lemma below_top (q : Q) :
  0 < q -> q < Binary64.pow2 (Binary64.ulp_exponent q + 53).
Proof.
  intros P. destruct (ilog2_spec q P) as (_ & Hi).
  eapply Qlt_le_trans; [exact Hi|]. apply pow2_le.
  unfold Binary64.ulp_exponent. lia.
Qed.

Lemma above_bottom (q : Q) :
  0 < q -> (-1074 < Binary64.ulp_exponent q)%Z ->
  Binary64.pow2 (Binary64.ulp_exponent q + 52) <= q.
Proof.
  intros P N. destruct (ilog2_spec q P) as (Lo & _).
  eapply Qle_trans; [|exact Lo]. apply pow2_le.
  unfold Binary64.ulp_exponent in *. lia.
Qed.

Lemma ilog2_le (p q : Q) :
  0 < p -> p <= q -> (Binary64.ilog2 p <= Binary64.ilog2 q)%Z.
Proof.
  intros P L.
  assert (0 < q) as Pq by (eapply Qlt_le_trans; eassumption).
  destruct (ilog2_spec p P) as (Lo & _). destruct (ilog2_spec q Pq) as (_ & Hi).
  assert (Binary64.pow2 (Binary64.ilog2 p) < Binary64.pow2 (Binary64.ilog2 q + 1)) as A.
  { eapply Qle_lt_trans; [exact Lo|]. eapply Qle_lt_trans; eassumption. }
  apply pow2_lt_inv in A. lia.
Qed.

Lemma ulp_exponent_le (p q : Q) :
  0 < p -> p <= q -> (Binary64.ulp_exponent p <= Binary64.ulp_exponent q)%Z.
Proof.
  intros P L. pose proof (ilog2_le p q P L). unfold Binary64.ulp_exponent. lia.
Qed.

Lemma ulp_exponent_comp (p q : Q) :
  0 < p -> p == q -> Binary64.ulp_exponent p = Binary64.ulp_exponent q.
Proof.
  intros P E. unfold Binary64.ulp_exponent. f_equal. f_equal.
  destruct (ilog2_spec p P) as (Lo & Hi). symmetry.
  apply ilog2_unique; now rewrite <- E.
Qed.

(** *** Rounding a positive rational to the grid *)

(** The scaled significand [q / 2^e], against an integer bound. *)
Lemma scaled_lt (q : Q) (e k : Z) :
  q < Binary64.pow2 (e + k) -> q / Binary64.pow2 e < Binary64.pow2 k.
Proof.
  intros L. apply Qlt_shift_div_r; [apply pow2_pos|].
  now rewrite Qmult_comm, <- pow2_add.
Qed.

Lemma scaled_ge (q : Q) (e k : Z) :
  Binary64.pow2 (e + k) <= q -> Binary64.pow2 k <= q / Binary64.pow2 e.
Proof.
  intros L. apply Qle_shift_div_l; [apply pow2_pos|].
  now rewrite Qmult_comm, <- pow2_add.
Qed.

Lemma nearest_nonneg (q : Q) : 0 < q -> 0 <= Binary64.nearest q.
Proof.
  intros P. unfold Binary64.nearest.
  apply Qmult_le_0_compat; [|apply Qlt_le_weak, pow2_pos].
  change 0 with (inject_Z 0). rewrite <- Zle_Qle.
  pose proof (nearest_even_bounds (q / Binary64.pow2 (Binary64.ulp_exponent q))) as B.
  assert (0 <= Qfloor (q / Binary64.pow2 (Binary64.ulp_exponent q)))%Z; [|lia].
  change 0%Z with (Qfloor 0). apply Qfloor_resp_le.
  apply Qle_shift_div_l; [apply pow2_pos|]. rewrite Qmult_0_l.
  now apply Qlt_le_weak.
Qed.

Lemma nearest_le_top (q : Q) :
  0 < q -> Binary64.nearest q <= Binary64.pow2 (Binary64.ulp_exponent q + 53).
Proof.
  intros P. unfold Binary64.nearest. set (e := Binary64.ulp_exponent q).
  rewrite Z.add_comm, pow2_add.
  apply Qmult_le_compat_r; [|apply Qlt_le_weak, pow2_pos].
  rewrite (pow2_Z 53) by lia. rewrite <- Zle_Qle.
  rewrite <- (nearest_even_Z (2 ^ 53)). apply nearest_even_le.
  rewrite <- pow2_Z by lia. apply Qlt_le_weak, scaled_lt. now apply below_top.
Qed.

Lemma nearest_ge_bottom (q : Q) :
  0 < q -> (-1074 < Binary64.ulp_exponent q)%Z ->
  Binary64.pow2 (Binary64.ulp_exponent q + 52) <= Binary64.nearest q.
Proof.
  intros P N. unfold Binary64.nearest. set (e := Binary64.ulp_exponent q).
  rewrite Z.add_comm, pow2_add.
  apply Qmult_le_compat_r; [|apply Qlt_le_weak, pow2_pos].
  rewrite (pow2_Z 52) by lia. rewrite <- Zle_Qle.
  rewrite <- (nearest_even_Z (2 ^ 52)). apply nearest_even_le.
  rewrite <- pow2_Z by lia. apply scaled_ge. now apply above_bottom.
Qed.

Lemma nearest_le (p q : Q) :
  0 < p -> p <= q -> Binary64.nearest p <= Binary64.nearest q.
Proof.
  intros P L.
  assert (0 < q) as Pq by (eapply Qlt_le_trans; eassumption).
  pose proof (ulp_exponent_le p q P L) as E.
  destruct (Z.eq_dec (Binary64.ulp_exponent p) (Binary64.ulp_exponent q)) as [Same|Less].
  - unfold Binary64.nearest. rewrite Same.
    apply Qmult_le_compat_r; [|apply Qlt_le_weak, pow2_pos].
    rewrite <- Zle_Qle. apply nearest_even_le.
    apply Qmult_le_compat_r; [exact L|].
    apply Qlt_le_weak, Qinv_lt_0_compat, pow2_pos.
  - apply Qle_trans with (Binary64.pow2 (Binary64.ulp_exponent p + 53));
      [now apply nearest_le_top|].
    apply Qle_trans with (Binary64.pow2 (Binary64.ulp_exponent q + 52)).
    + apply pow2_le. lia.
    + apply nearest_ge_bottom; [exact Pq|].
      pose proof (ulp_exponent_ge p). lia.
Qed.

(** A point of the grid rounds to itself. *)
Lemma nearest_exact (q : Q) (m : Z) :
  q == inject_Z m * Binary64.pow2 (Binary64.ulp_exponent q) ->
  Binary64.nearest q == q.
Proof.
  intros E. unfold Binary64.nearest.
  set (e := Binary64.ulp_exponent q) in *.
  assert (q / Binary64.pow2 e == inject_Z m) as S.
  { rewrite E at 1. field. intros Z0. pose proof (pow2_pos e) as P.
    rewrite Z0 in P. discriminate. }
  rewrite (nearest_even_comp _ _ S), nearest_even_Z. now symmetry.
Qed.

Lemma grid_fixed (q : Q) (m e : Z) :
  (0 < m <= 2 ^ 53)%Z -> (-1074 <= e)%Z ->
  q == inject_Z m * Binary64.pow2 e ->
  Binary64.nearest q == q.
Proof.
  intros (Pm & Lm) Le E.
  assert (0 < q) as P.
  { rewrite E. apply Qmult_lt_0_compat; [|apply pow2_pos].
    change 0 with (inject_Z 0). now rewrite <- Zlt_Qlt. }
  destruct (Z.eq_dec m (2 ^ 53)) as [Top|Below].
  - subst m. rewrite <- pow2_Z, <- pow2_add in E by lia.
    assert (Binary64.ilog2 q = (53 + e)%Z) as I.
    { apply ilog2_unique; rewrite E; [apply Qle_refl|apply pow2_lt; lia]. }
    apply (nearest_exact q (2 ^ 52)).
    unfold Binary64.ulp_exponent. rewrite I.
    rewrite Z.max_l by lia. rewrite <- pow2_Z, <- pow2_add by lia.
    rewrite E. now replace (52 + (53 + e - 52))%Z with (53 + e)%Z by lia.
  - assert (q < Binary64.pow2 (e + 53)) as Hi.
    { rewrite E, Z.add_comm, pow2_add.
      apply Qmult_lt_r; [apply pow2_pos|].
      rewrite (pow2_Z 53) by lia. rewrite <- Zlt_Qlt. lia. }
    assert (Binary64.ilog2 q < e + 53)%Z as I.
    { destruct (ilog2_spec q P) as (Lo & _).
      apply pow2_lt_inv. eapply Qle_lt_trans; eassumption. }
    set (e' := Binary64.ulp_exponent q).
    assert (e' <= e)%Z as L' by (unfold e', Binary64.ulp_exponent; lia).
    apply (nearest_exact q (m * 2 ^ (e - e'))). fold e'.
    rewrite inject_Z_mult, <- pow2_Z by lia.
    rewrite <- Qmult_assoc, <- pow2_add.
    rewrite E. now replace (e - e' + e')%Z with e by lia.
Qed.

(** *** The rounding of binary64 *)

Lemma Qred_Qred (q : Q) : Qred (Qred q) = Qred q.
Proof. apply Qred_complete, Qred_correct. Qed.

Lemma round_comp (p q : Q) : p == q -> Binary64.round p = Binary64.round q.
Proof. intros E. unfold Binary64.round. now rewrite (Qred_complete p q E). Qed.

Lemma Qopp_opp (q : Q) : - - q = q.
Proof. destruct q as [n d]. unfold Qopp. cbn [Qnum Qden]. now rewrite Z.opp_involutive. Qed.

Lemma round_opp (q : Q) : Binary64.round (- q) = JS.neg (Binary64.round q).
Proof.
  unfold Binary64.round. rewrite Qred_opp. set (c := Qred q).
  destruct (Qcompare_spec c 0) as [E|L|G];
    destruct (Qcompare_spec (- c) 0) as [E'|L'|G']; try (exfalso; lra);
    cbv zeta.
  - reflexivity.
  - destruct (Qle_bool _ _); [reflexivity|].
    cbn [JS.neg]. now rewrite Qred_opp, Qopp_opp.
  - rewrite Qopp_opp. destruct (Qle_bool _ _); [reflexivity|].
    cbn [JS.neg]. now rewrite Qred_opp.
Qed.

Lemma round_le (p q : Q) :
  p <= q -> JS.le (Binary64.round p) (Binary64.round q) = true.
Proof.
  intros L. unfold Binary64.round.
  assert (Qred p <= Qred q) as L' by now rewrite !Qred_correct.
  set (a := Qred p) in *. set (b := Qred q) in *. clearbody a b. clear L p q.
  destruct (Qcompare_spec a 0) as [Ea|La|Ga];
    destruct (Qcompare_spec b 0) as [Eb|Lb|Gb]; cbv zeta;
    try (exfalso; lra).
  - reflexivity.
  - destruct (Qle_bool _ _); [reflexivity|].
    cbn [JS.le]. apply Qle_bool_iff. rewrite Qred_correct.
    now apply nearest_nonneg.
  - destruct (Qle_bool _ _); [reflexivity|].
    cbn [JS.le]. apply Qle_bool_iff. rewrite Qred_correct.
    assert (0 <= Binary64.nearest (- a)) by (apply nearest_nonneg; lra). lra.
  - assert (Binary64.nearest (- b) <= Binary64.nearest (- a)) as N
        by (apply nearest_le; lra).
    destruct (Qle_bool (Binary64.pow2 1024) (Binary64.nearest (- a))) eqn:Ta;
      [now destruct (Qle_bool (Binary64.pow2 1024) (Binary64.nearest (- b)))|].
    destruct (Qle_bool (Binary64.pow2 1024) (Binary64.nearest (- b))) eqn:Tb.
    + apply Qle_bool_iff in Tb.
      assert (~ Binary64.pow2 1024 <= Binary64.nearest (- a)) as C.
      { intros C. apply Qle_bool_iff in C. congruence. }
      exfalso. apply C. lra.
    + cbn [JS.le]. apply Qle_bool_iff. rewrite !Qred_correct. lra.
  - assert (0 <= Binary64.nearest (- a)) by (apply nearest_nonneg; lra).
    assert (0 <= Binary64.nearest b) by (apply nearest_nonneg; lra).
    destruct (Qle_bool _ (Binary64.nearest (- a)));
      destruct (Qle_bool _ (Binary64.nearest b)); try reflexivity.
    cbn [JS.le]. apply Qle_bool_iff. rewrite !Qred_correct. lra.
  - assert (Binary64.nearest a <= Binary64.nearest b) as N
        by (apply nearest_le; lra).
    destruct (Qle_bool (Binary64.pow2 1024) (Binary64.nearest b)) eqn:Tb;
      [now destruct (Qle_bool (Binary64.pow2 1024) (Binary64.nearest a))|].
    destruct (Qle_bool (Binary64.pow2 1024) (Binary64.nearest a)) eqn:Ta.
    + apply Qle_bool_iff in Ta.
      assert (~ Binary64.pow2 1024 <= Binary64.nearest b) as C.
      { intros C. apply Qle_bool_iff in C. congruence. }
      exfalso. apply C. lra.
    + cbn [JS.le]. apply Qle_bool_iff. rewrite !Qred_correct. lra.
Qed.

(** The points of the grid below the overflow threshold round to
    themselves. *)
Lemma round_grid (q : Q) (m e : Z) :
  (0 < m <= 2 ^ 53)%Z -> (-1074 <= e)%Z ->
  q == inject_Z m * Binary64.pow2 e -> q < Binary64.pow2 1024 ->
  Binary64.round q = Num (Qred q).
Proof.
  intros Hm He E Hi. unfold Binary64.round.
  assert (0 < Qred q) as P.
  { rewrite Qred_correct, E. apply Qmult_lt_0_compat; [|apply pow2_pos].
    change 0 with (inject_Z 0). rewrite <- Zlt_Qlt. lia. }
  pose proof P as G. apply Qgt_alt in G. rewrite G. cbv zeta.
  assert (Binary64.nearest (Qred q) == Qred q) as F.
  { apply (grid_fixed (Qred q) m e Hm He). now rewrite Qred_correct. }
  destruct (Qle_bool _ _) eqn:T.
  - apply Qle_bool_iff in T. rewrite F, Qred_correct in T. exfalso. lra.
  - f_equal. rewrite (Qred_complete _ _ F). apply Qred_Qred.
Qed.

Lemma Qred_inject_Z (z : Z) : Qred (inject_Z z) = inject_Z z.
Proof.
  unfold Qred, inject_Z.
  pose proof (Z.ggcd_gcd z 1) as G. pose proof (Z.ggcd_correct_divisors z 1) as D.
  destruct (Z.ggcd z 1) as (g & a & b). cbn [fst snd] in *.
  rewrite Z.gcd_1_r in G. subst g. destruct D as (Da & Db).
  rewrite Z.mul_1_l in Da, Db. subst a b. reflexivity.
Qed.

Lemma round_integer (z : Z) :
  (Z.abs z <= 2 ^ 53)%Z -> Binary64.round (inject_Z z) = Num (inject_Z z).
Proof.
  intros B.
  assert (forall m, (0 < m <= 2 ^ 53)%Z ->
                    Binary64.round (inject_Z m) = Num (inject_Z m)) as Pos.
  { intros m Hm. rewrite (round_grid (inject_Z m) m 0 Hm); [|lia| |].
    - now rewrite Qred_inject_Z.
    - change (Binary64.pow2 0) with 1. ring.
    - rewrite (pow2_Z 1024) by lia. rewrite <- Zlt_Qlt.
      apply Z.le_lt_trans with (2 ^ 53)%Z; [lia|reflexivity]. }
  destruct (Z.lt_trichotomy z 0) as [N|[Z0|P]].
  - replace (inject_Z z) with (- inject_Z (- z)).
    + rewrite round_opp, Pos by lia. reflexivity.
    + unfold inject_Z, Qopp. cbn [Qnum Qden]. now rewrite Z.opp_involutive.
  - subst z. reflexivity.
  - apply Pos. lia.
Qed.

Lemma nearest_on_grid (q : Q) :
  0 < q ->
  exists m e, (0 <= m <= 2 ^ 53)%Z /\ (-1074 <= e)%Z
              /\ Binary64.nearest q == inject_Z m * Binary64.pow2 e.
Proof.
  intros P. exists (Binary64.nearest_even (q / Binary64.pow2 (Binary64.ulp_exponent q))),
                   (Binary64.ulp_exponent q).
  split; [|split; [apply ulp_exponent_ge|reflexivity]].
  split.
  - pose proof (nearest_even_bounds (q / Binary64.pow2 (Binary64.ulp_exponent q))) as B.
    assert (0 <= Qfloor (q / Binary64.pow2 (Binary64.ulp_exponent q)))%Z; [|lia].
    change 0%Z with (Qfloor 0). apply Qfloor_resp_le.
    apply Qle_shift_div_l; [apply pow2_pos|]. rewrite Qmult_0_l.
    now apply Qlt_le_weak.
  - rewrite <- (nearest_even_Z (2 ^ 53)). apply nearest_even_le.
    rewrite <- pow2_Z by lia. apply Qlt_le_weak, scaled_lt. now apply below_top.
Qed.

(** What [round] returns is a point of the grid: it rounds to itself. *)
Lemma round_fixed (p q : Q) :
  Binary64.round p = Num q -> Binary64.round q = Num q.
Proof.
  assert (forall a v, 0 < a -> v = Binary64.nearest a ->
                      Qle_bool (Binary64.pow2 1024) v = false ->
                      Binary64.round (Qred v) = Num (Qred v)) as Pos.
  { intros a v Pa -> T.
    destruct (nearest_on_grid a Pa) as (m & e & (M0 & M1) & He & E).
    assert (Binary64.nearest a < Binary64.pow2 1024) as Hi.
    { apply Qnot_le_lt. intros C. apply Qle_bool_iff in C. congruence. }
    destruct (Z.eq_dec m 0) as [->|N].
    - rewrite Qmult_0_l in E. rewrite (Qred_complete _ _ E). reflexivity.
    - rewrite (round_grid (Qred (Binary64.nearest a)) m e);
        [now rewrite Qred_Qred|lia|exact He| |];
        now rewrite Qred_correct. }
  unfold Binary64.round at 1. set (c := Qred p).
  destruct (Qcompare_spec c 0) as [E|L|G]; cbv zeta.
  - intros [= <-]. reflexivity.
  - destruct (Qle_bool _ _) eqn:T; [discriminate|]. intros H.
    assert (q = Qred (- Binary64.nearest (- c))) as -> by congruence.
    rewrite Qred_opp, round_opp.
    rewrite (Pos (- c) _ ltac:(lra) eq_refl T). reflexivity.
  - destruct (Qle_bool _ _) eqn:T; [discriminate|]. intros H.
    assert (q = Qred (Binary64.nearest c)) as -> by congruence.
    apply (Pos c _ G eq_refl T).
Qed.

(** Binary64 has what [Lawful] asks of a rounding. *)
Lemma binary64_lawful : Lawful binary64.
Proof.
  split.
  - exact round_comp.
  - exact round_le.
  - exact round_integer.
  - reflexivity.
  - exact round_opp.
  - exact round_fixed.
Qed.

(** ** C1: the number of curved paths *)

Section CurvedPaths.

Context `{Imports} `{Trigonometry} `{RandomSource}.
Context {arithmetic : Rounding}.

(** As long as no line is given infinitely many waypoints,
    [getCurvedPaths] returns as many paths as its outer loop has
    iterations. *)
Lemma getCurvedPaths_count (link : Flow.t) (p : PathsParams) (s k : nat) :
  (forall j, numWaypoints link p (Num (draw j)) <> PosInf) ->
  trip_count (numLinesPerLink link p) = Some k ->
  exists paths s',
    getCurvedPaths link p s = Returns paths s' /\ List.length paths = k.
Proof.
  intros Hfinite Hk. unfold getCurvedPaths, for_lt. rewrite Hk.
  match goal with |- context [foldM ?b _ _ _] => pose proof (foldM_grows b) as G end.
  destruct (G) with (l := seq 0 k) (acc := @nil Path.t) (s := s)
    as (paths & s' & E & L).
  - intros i acc s0. unfold bind, Math.random.
    destruct (trip_count (numWaypoints link p (Num (draw s0)))) as [n|] eqn:Hn.
    2:{ exfalso. apply (Hfinite s0).
        destruct (numWaypoints link p (Num (draw s0))); try discriminate.
        reflexivity. }
    match goal with |- context [foldM ?b _ _ _] => pose proof (foldM_grows b) as G' end.
    destruct (G') with (l := seq 0 n) (acc := @nil Position) (s := S s0)
      as (waypoints & s1 & E1 & _).
    + intros j acc' s2. unfold ret. eexists _, _. reflexivity.
    + rewrite E1. destruct (getDistances _) as [distances totalDistance].
      unfold ret. eexists _, _. reflexivity.
  - exists paths, s'. split; [exact E|]. rewrite L, length_seq. reflexivity.
Qed.

(** Under a finite cap the outer loop of [getCurvedPaths] has a count. *)
Lemma numLinesPerLink_count (link : Flow.t) (p : PathsParams) :
  JS.is_finite (maxLinesPerLink p) = true ->
  exists k, trip_count (numLinesPerLink link p) = Some k.
Proof.
  unfold numLinesPerLink.
  destruct (maxLinesPerLink p) as [c| | |]; try discriminate. intros _.
  destruct (Math.round _) as [r| | |].
  - change (Math.min (Num r) (Num c))
      with (if JS.lt (Num c) (Num r) then Num c else Num r).
    destruct (JS.lt _ _); eexists; reflexivity.
  - now exists 0%nat.
  - eexists; reflexivity.
  - now exists 0%nat.
Qed.

Context {lawful : Lawful arithmetic}.

(** C1, as amended, in the arithmetic of the source (any rounding that is
    [Lawful], as that of binary64 is): for a flow whose source and target
    ids differ, the curved-path hook calls [getCurvedPaths]; under a finite
    [maxLinesPerLink], and as long as no line is given infinitely many
    waypoints, it returns as many paths as there are naturals below
    [K = min(round(value * linesPerLinkMultiplicator), maxLinesPerLink)],
    the product being the rounded one; when [maxLinesPerLink] is an integer
    [z], that is exactly [K] paths when [0 <= K] and none otherwise; when
    moreover [0 <= z], the number of paths is at most [maxLinesPerLink];
    and a value of 2 under a multiplicator of 1 and a cap of 30 gives
    exactly 2 paths. *)
Theorem getCurvedPaths_number_of_paths (link : Flow.t) (p : PathsParams)
    (s : nat) :
  Flow.sourceId link <> Flow.targetId link ->
  (forall j, numWaypoints link p (Num (draw j)) <> PosInf) ->
  JS.is_finite (maxLinesPerLink p) = true ->
  let K := numLinesPerLink link p in
  exists paths s',
    curvedPathsOf p link s = getCurvedPaths link p s
    /\ getCurvedPaths link p s = Returns paths s'
    /\ trip_count K = Some (List.length paths)
    /\ forall z : Z,
        maxLinesPerLink p = lit z ->
        (JS.le (lit 0) K = true -> JS.of_nat (List.length paths) =js= K)
        /\ (JS.le (lit 0) K = false -> paths = [])
        /\ ((0 <= z)%Z ->
            JS.le (JS.of_nat (List.length paths)) (maxLinesPerLink p) = true)
        /\ (Flow.value link =js= lit 2 ->
            linesPerLinkMultiplicator p =js= lit 1 ->
            z = 30%Z -> List.length paths = 2%nat).
Proof.
  intros Hids Hfinite Hfin K.
  destruct (numLinesPerLink_count link p Hfin) as (k & Hk). fold K in Hk.
  destruct (getCurvedPaths_count link p s k Hfinite Hk) as (paths & s' & E & L).
  exists paths, s'. rewrite L. split.
  { unfold curvedPathsOf, isSelf.
    destruct (String.eqb_spec (Flow.sourceId link) (Flow.targetId link));
      [contradiction|reflexivity]. }
  split; [exact E|]. split; [exact Hk|].
  intros z Hcap.
  assert ((JS.le (lit 0) K = true -> JS.of_nat k =js= K)
          /\ (JS.le (lit 0) K = false -> k = 0%nat)
          /\ ((0 <= z)%Z -> JS.le (JS.of_nat k) (lit z) = true))
    as (Hpos & Hneg & Hle).
  { revert Hk. subst K. unfold numLinesPerLink. rewrite Hcap.
    destruct (min_round_integer
                (Flow.value link * linesPerLinkMultiplicator p)%js z)
      as [(m & Em & Lm)|[Em|Em]]; rewrite Em.
    - rewrite trip_count_lit. intros Hk. injection Hk as <-.
      split; [|split].
      + intros L0. apply le_lit_iff in L0.
        unfold JS.of_nat. rewrite Z2Nat.id by exact L0. simpl. reflexivity.
      + intros L0. destruct (Z.le_gt_cases 0 m) as [L'|L']; [|lia].
        apply le_lit_iff in L'. congruence.
      + intros Lz. unfold JS.of_nat. apply le_lit_iff. lia.
    - intros Hk. injection Hk as <-. repeat split; try discriminate.
      intros Lz. apply (le_lit_iff 0 z). exact Lz.
    - intros Hk. injection Hk as <-. repeat split; try discriminate.
      intros Lz. apply (le_lit_iff 0 z). exact Lz. }
  split; [exact Hpos|]. split; [|split].
  - intros N. specialize (Hneg N). subst k. now destruct paths.
  - rewrite Hcap. exact Hle.
  - intros Hv Hm Hz.
    assert (K = lit 2) as HK.
    { subst K z. unfold numLinesPerLink. rewrite Hcap.
      destruct (Flow.value link) as [v| | |]; simpl in Hv; try tauto.
      destruct (linesPerLinkMultiplicator p) as [m| | |]; simpl in Hm; try tauto.
      cbn [JS.mul].
      assert (v * m == inject_Z 2) as P by (rewrite Hv, Hm; reflexivity).
      rewrite (rnd_eq _ _ P), rnd_integer by (cbn; lia). reflexivity. }
    rewrite HK, trip_count_lit in Hk. now inversion Hk.
Qed.

End CurvedPaths.

(** The draws of the sample never give a line of the sample flow
    infinitely many waypoints. *)
Lemma quarters_finite_waypoints (value : number) (p : PathsParams) :
  minWaypointsPer1000km p = lit 4 -> maxWaypointsPer1000km p = lit 8 ->
  forall j,
    @numWaypoints Sample.imports binary64 (Sample.flow value) p
      (Num (@draw Sample.quarters j)) <> PosInf.
Proof.
  intros Hmin Hmax j. unfold numWaypoints, maxWaypoints, minWaypoints.
  rewrite Hmin, Hmax. unfold draw, Sample.quarters.
  assert (j mod 4 < 4)%nat as B by (apply Nat.mod_upper_bound; lia).
  destruct (j mod 4)%nat as [|[|[|[|m]]]]; [vm_compute; discriminate..|lia].
Qed.

(** A run of the theorem in binary64: a value of 2 gives two paths; and
    the value of a flow of total 410000000, which is the double nearest to
    2.05, under a multiplicator of 30 and a cap of 100 gives 61 paths, the
    product of the doubles being 61.49999999999999. *)
Lemma getCurvedPaths_number_of_paths_witness :
  (exists paths s',
      @getCurvedPaths Sample.imports Sample.trigonometry Sample.quarters binary64
        (Sample.flow (lit 2)) (@defaultPathsParams binary64) 0%nat
      = Returns paths s'
      /\ List.length paths = 2%nat)
  /\ (exists paths s',
         @getCurvedPaths Sample.imports Sample.trigonometry Sample.quarters
           binary64 (Sample.flow (@JS.div binary64 (lit 410000000) (lit 200000000)))
           (Scenario.lines (lit 30) (lit 100)) 0%nat
         = Returns paths s'
         /\ List.length paths = 61%nat).
Proof.
  split.
  - destruct (@getCurvedPaths_number_of_paths Sample.imports Sample.trigonometry
                Sample.quarters binary64 binary64_lawful
                (Sample.flow (lit 2)) (@defaultPathsParams binary64) 0%nat)
      as (paths & s' & _ & E & _ & C);
      [discriminate|now apply quarters_finite_waypoints|reflexivity|].
    exists paths, s'. split; [exact E|].
    destruct (C 30%Z eq_refl) as (_ & _ & _ & L).
    apply L; [reflexivity|reflexivity|reflexivity].
  - destruct (@getCurvedPaths_number_of_paths Sample.imports Sample.trigonometry
                Sample.quarters binary64 binary64_lawful
                (Sample.flow (@JS.div binary64 (lit 410000000) (lit 200000000)))
                (Scenario.lines (lit 30) (lit 100)) 0%nat)
      as (paths & s' & _ & E & K & _);
      [discriminate|now apply quarters_finite_waypoints|reflexivity|].
    exists paths, s'. split; [exact E|].
    assert (@numLinesPerLink binary64
              (Sample.flow (@JS.div binary64 (lit 410000000) (lit 200000000)))
              (Scenario.lines (lit 30) (lit 100)) = lit 61) as N
        by (vm_compute; reflexivity).
    rewrite N, trip_count_lit in K. now injection K as <-.
Defined.

(** C1, as stated, fails when the cap is not a nonnegative integer (a run
    in binary64).  Under a cap of 5/2 a flow of value 3 gets three paths,
    which is neither [K = 5/2] nor at most the cap; under a cap of -1 it
    gets no path, and [0 <= -1] fails. *)
Lemma getCurvedPaths_fractional_cap :
  (exists paths s',
      @getCurvedPaths Sample.imports Sample.trigonometry Sample.quarters binary64
        (Sample.flow (lit 3)) (Scenario.lines (lit 1) (Num (5 # 2))) 0%nat
      = Returns paths s'
      /\ List.length paths = 3%nat
      /\ @numLinesPerLink binary64 (Sample.flow (lit 3))
           (Scenario.lines (lit 1) (Num (5 # 2)))
         = Num (5 # 2)
      /\ ~ JS.of_nat (List.length paths) =js= Num (5 # 2)
      /\ JS.le (JS.of_nat (List.length paths)) (Num (5 # 2)) = false)
  /\ (exists s',
         @getCurvedPaths Sample.imports Sample.trigonometry Sample.quarters
           binary64 (Sample.flow (lit 3)) (Scenario.lines (lit 1) (lit (-1)))
           0%nat
         = Returns [] s'
         /\ JS.le (JS.of_nat 0%nat) (lit (-1)) = false).
Proof.
  split.
  - destruct (@getCurvedPaths Sample.imports Sample.trigonometry Sample.quarters
                binary64 (Sample.flow (lit 3))
                (Scenario.lines (lit 1) (Num (5 # 2))) 0%nat)
      as [paths s'| |] eqn:E; try (vm_compute in E; discriminate).
    exists paths, s'. split; [reflexivity|].
    assert (List.length paths = 3%nat) as L.
    { vm_compute in E. injection E as <- _. reflexivity. }
    rewrite L. repeat split; try (vm_compute; reflexivity).
    vm_compute. discriminate.
  - eexists. split; vm_compute; reflexivity.
Qed.

(** ** The trips of a path *)

Section Trips.

Context `{Imports} `{RandomSource} {arithmetic : Rounding}.

(** With shares, the trips are those of the particles below [numParticles],
    three draws each, unless one of them throws. *)
Lemma getPathTrips_shares (path : Path.t) (flow : Flow.t) (p : TripsParams)
    (ratios : list number) (k s : nat) :
  Flow.valuesRatiosByFoodGroup flow = Some ratios ->
  trip_count (numParticles flow p) = Some k ->
  getPathTrips path flow p s =
  match those (map (fun j => tripAt path flow p ratios j (s + 3 * j))%nat
                   (seq 0 k)) with
  | Some trips => Returns trips (s + 3 * k)
  | None => Throws "TypeError"
  end.
Proof.
  intros Hratios Hk. unfold getPathTrips, particle, for_lt.
  rewrite Hk, Hratios.
  rewrite (foldM_push _ (tripAt path flow p ratios) 3 "TypeError").
  - reflexivity.
  - intros i acc s0. unfold bind, Math.random, tripAt, categoryColor.
    replace (s0 + 3)%nat with (S (S (S s0))) by lia.
    destruct (nth_error CATEGORIES _); reflexivity.
Qed.

(** Without shares every iteration reaches [continue] after two draws. *)
Lemma getPathTrips_no_shares (path : Path.t) (flow : Flow.t) (p : TripsParams)
    (k s : nat) :
  Flow.valuesRatiosByFoodGroup flow = None ->
  trip_count (numParticles flow p) = Some k ->
  getPathTrips path flow p s = Returns [] (s + 2 * k).
Proof.
  intros Hratios Hk. unfold getPathTrips, particle, for_lt.
  rewrite Hk, Hratios.
  rewrite (foldM_skip _ 2).
  - now rewrite length_seq.
  - intros i acc s0. unfold bind, Math.random, ret. f_equal. lia.
Qed.

(** The category index is [0] or an index into the shares. *)
Lemma categoryIndex_bound (r : number) (ratios : list number) :
  categoryIndex r ratios = 0%nat
  \/ (categoryIndex r ratios < List.length ratios)%nat.
Proof.
  unfold categoryIndex, reduce.
  assert (forall l i acc,
             match acc with Some j => (j < i)%nat | None => True end ->
             match reduce_from
                     (fun (acc : option nat) ratio i =>
                        match acc with
                        | Some _ => acc
                        | None => if JS.lt r ratio then Some i else acc
                        end) i l acc with
             | Some j => (j < i + List.length l)%nat
             | None => True
             end) as G.
  { induction l as [|x l IH]; intros i acc Hacc; simpl.
    - destruct acc; [lia|exact I].
    - specialize (IH (S i)).
      destruct acc as [j|].
      + specialize (IH (Some j)). simpl in IH.
        destruct (reduce_from _ _ _ _); [|exact I].
        assert (j < S i)%nat as L by lia. specialize (IH L). lia.
      + destruct (JS.lt r x).
        * specialize (IH (Some i)).
          destruct (reduce_from _ _ _ _); [|exact I].
          assert (i < S i)%nat as L by lia. specialize (IH L). lia.
        * specialize (IH None I).
          destruct (reduce_from _ _ _ _); [lia|exact I]. }
  specialize (G ratios 0%nat None I).
  destruct (reduce_from _ _ _ _) as [[|j]|]; simpl in *; auto.
Qed.

(** When [CATEGORIES] is not empty and has an entry for every share, no
    particle throws. *)
Lemma tripAt_covered (path : Path.t) (flow : Flow.t) (p : TripsParams)
    (ratios : list number) (i s : nat) :
  (0 < List.length CATEGORIES)%nat ->
  (List.length ratios <= List.length CATEGORIES)%nat ->
  tripAt path flow p ratios i s <> None.
Proof.
  intros Hne Hlen. unfold tripAt.
  destruct (nth_error CATEGORIES _) eqn:E; [discriminate|].
  apply nth_error_None in E.
  destruct (categoryIndex_bound (Num (draw (S (S s)))) ratios); lia.
Qed.

Lemma getPathTrips_returns (path : Path.t) (flow : Flow.t) (p : TripsParams)
    (ratios : list number) (k s : nat) :
  Flow.valuesRatiosByFoodGroup flow = Some ratios ->
  trip_count (numParticles flow p) = Some k ->
  (0 < List.length CATEGORIES)%nat ->
  (List.length ratios <= List.length CATEGORIES)%nat ->
  exists trips,
    getPathTrips path flow p s = Returns trips (s + 3 * k)
    /\ List.length trips = k.
Proof.
  intros Hratios Hk Hne Hlen.
  rewrite (getPathTrips_shares path flow p ratios k s Hratios Hk).
  destruct (those_all (map (fun j => tripAt path flow p ratios j (s + 3 * j))%nat
                           (seq 0 k))) as (trips & E).
  - intros o Ho. apply in_map_iff in Ho. destruct Ho as (j & <- & _).
    now apply tripAt_covered.
  - rewrite E. exists trips. split; [reflexivity|].
    apply those_length in E. now rewrite E, length_map, length_seq.
Qed.

(** Whatever [getPathTrips] returns has one trip per iteration when the flow
    has shares and none otherwise, and trip [i] is the one [tripAt] builds. *)
Lemma getPathTrips_returned (path : Path.t) (flow : Flow.t) (p : TripsParams)
    (s s' : nat) (trips : list (Trip.t Category)) :
  getPathTrips path flow p s = Returns trips s' ->
  exists k,
    trip_count (numParticles flow p) = Some k
    /\ match Flow.valuesRatiosByFoodGroup flow with
       | Some ratios =>
           List.length trips = k
           /\ forall i t, nth_error trips i = Some t ->
                          tripAt path flow p ratios i (s + 3 * i) = Some t
       | None => trips = []
       end.
Proof.
  intros E.
  destruct (trip_count (numParticles flow p)) as [k|] eqn:Hk.
  2:{ unfold getPathTrips, for_lt in E. rewrite Hk in E. discriminate. }
  exists k. split; [reflexivity|].
  destruct (Flow.valuesRatiosByFoodGroup flow) as [ratios|] eqn:Hratios.
  - rewrite (getPathTrips_shares path flow p ratios k s Hratios Hk) in E.
    destruct (those _) as [ts|] eqn:T; [|discriminate].
    injection E as <- <-. split.
    + apply those_length in T. now rewrite T, length_map, length_seq.
    + intros i t N. pose proof (those_nth _ _ _ _ T N) as N'.
      rewrite nth_error_map, nth_error_seq in N'.
      destruct (Nat.ltb i k); [|discriminate].
      simpl in N'. now inversion N'.
  - rewrite (getPathTrips_no_shares path flow p k s Hratios Hk) in E.
    now injection E as <- _.
Qed.

End Trips.

(** The ceiling of the lesser of a number and an integer cap is at most
    the cap. *)
Lemma min_integer_count (x : number) (z : Z) :
  (0 <= z)%Z ->
  exists k, trip_count (Math.min x (lit z)) = Some k /\ (Z.of_nat k <= z)%Z.
Proof.
  intros Hz. destruct x as [q| | |].
  - change (Math.min (Num q) (lit z))
      with (if JS.lt (lit z) (Num q) then lit z else Num q).
    destruct (JS.lt (lit z) (Num q)) eqn:E.
    + exists (Z.to_nat z). rewrite trip_count_lit. split; [reflexivity|lia].
    + exists (Z.to_nat (Qceiling q)). split; [reflexivity|].
      apply lt_false_iff in E. apply Qceiling_resp_le in E.
      rewrite Qceiling_Z in E. lia.
  - exists 0%nat. split; [reflexivity|lia].
  - exists (Z.to_nat z). split; [apply trip_count_lit|lia].
  - exists 0%nat. split; [reflexivity|lia].
Qed.

(** ** C7: at most [maxParticles] trips, none without shares *)

Section TripCounts.

Context `{Imports} `{RandomSource} {arithmetic : Rounding}.

(** C7: when [maxParticles] is a nonnegative integer, whatever
    [getPathTrips] returns has between 0 and [maxParticles] trips; when the
    flow has no shares it returns the empty sequence, without an error; and
    when the flow has shares that [CATEGORIES] covers, it does return. *)
Theorem getPathTrips_at_most_maxParticles (path : Path.t) (flow : Flow.t)
    (p : TripsParams) (s : nat) (z : Z) :
  maxParticles p = lit z -> (0 <= z)%Z ->
  (forall trips s',
      getPathTrips path flow p s = Returns trips s' ->
      JS.le (lit 0) (JS.of_nat (List.length trips)) = true
      /\ JS.le (JS.of_nat (List.length trips)) (maxParticles p) = true)
  /\ (Flow.valuesRatiosByFoodGroup flow = None ->
      exists s', getPathTrips path flow p s = Returns [] s')
  /\ (forall ratios,
         Flow.valuesRatiosByFoodGroup flow = Some ratios ->
         (0 < List.length CATEGORIES)%nat ->
         (List.length ratios <= List.length CATEGORIES)%nat ->
         exists trips s', getPathTrips path flow p s = Returns trips s').
Proof.
  intros Hcap Hz.
  destruct (min_integer_count
              (Flow.value flow * numParticlesMultiplicator p)%js z Hz)
    as (k & Hk & Lk).
  rewrite <- Hcap in Hk. fold (numParticles flow p) in Hk.
  split; [|split].
  - intros trips s' E.
    destruct (getPathTrips_returned path flow p s s' trips E) as (k' & Hk' & R).
    rewrite Hk in Hk'. injection Hk' as <-.
    assert (List.length trips <= k)%nat as L.
    { destruct (Flow.valuesRatiosByFoodGroup flow).
      - destruct R as [-> _]. lia.
      - subst trips. simpl. lia. }
    rewrite Hcap. unfold JS.of_nat. split; apply le_lit_iff; lia.
  - intros Hnone. eexists.
    apply (getPathTrips_no_shares path flow p k s Hnone Hk).
  - intros ratios Hratios Hne Hlen.
    destruct (getPathTrips_returns path flow p ratios k s Hratios Hk Hne Hlen)
      as (trips & E & _).
    now exists trips, (s + 3 * k)%nat.
Qed.

End TripCounts.

(** A run of C7: the straight sample path, a flow of value 2 without shares
    and then with them, under the default parameters. *)
Lemma getPathTrips_at_most_maxParticles_witness :
  (exists s',
      getPathTrips Sample.straight_path
        {| Flow.source := (lit 0, lit 0); Flow.target := (lit 4, lit 0);
           Flow.sourceId := "A"; Flow.targetId := "B";
           Flow.routeGeometry := None; Flow.value := lit 2;
           Flow.valuesRatiosByFoodGroup := None |}
        defaultTripsParams 0%nat = Returns [] s')
  /\ (exists trips s',
         getPathTrips Sample.straight_path (Sample.flow (lit 2))
           defaultTripsParams 0%nat = Returns trips s'
         /\ JS.le (JS.of_nat (List.length trips)) (lit 500) = true).
Proof.
  split.
  - apply (getPathTrips_at_most_maxParticles Sample.straight_path _
             defaultTripsParams 0%nat 500%Z); [reflexivity|lia|reflexivity].
  - destruct (getPathTrips_at_most_maxParticles Sample.straight_path
                (Sample.flow (lit 2)) defaultTripsParams 0%nat 500%Z)
      as (B & _ & R); [reflexivity|lia|].
    destruct (R _ eq_refl) as (trips & s' & E); [simpl; lia|simpl; lia|].
    exists trips, s'. split; [exact E|]. apply (B trips s' E).
Defined.

(** ** C9 and C10: how many trips a path gets *)

Section TripNumbers.

Context `{Imports} `{RandomSource} {arithmetic : Rounding}.

(** C10, as amended, whatever the rounding of the arithmetic: for a flow
    with shares and a finite
    [numParticles = min(value * numParticlesMultiplicator, maxParticles)],
    the product being the rounded one, whatever [getPathTrips] returns has
    [ceil(numParticles)] trips when [numParticles] is not negative, and no
    trip otherwise: the loop bound is never rounded to an integer, and a
    fractional bound runs the loop its ceiling many times.  And it does
    return when [CATEGORIES] covers the shares. *)
Theorem getPathTrips_ceiling_trips (path : Path.t) (flow : Flow.t)
    (p : TripsParams) (ratios : list number) (s : nat) (q : Q) :
  Flow.valuesRatiosByFoodGroup flow = Some ratios ->
  numParticles flow p = Num q ->
  (forall trips s',
      getPathTrips path flow p s = Returns trips s' ->
      Z.of_nat (List.length trips) = Z.max 0 (Qceiling q)
      /\ (0 <= q -> Z.of_nat (List.length trips) = Qceiling q))
  /\ ((0 < List.length CATEGORIES)%nat ->
      (List.length ratios <= List.length CATEGORIES)%nat ->
      exists trips s', getPathTrips path flow p s = Returns trips s').
Proof.
  intros Hratios Hq.
  assert (trip_count (numParticles flow p) = Some (Z.to_nat (Qceiling q))) as Hk.
  { now rewrite Hq. }
  split.
  - intros trips s' E.
    destruct (getPathTrips_returned path flow p s s' trips E) as (k & Hk' & R).
    rewrite Hk in Hk'. injection Hk' as <-.
    rewrite Hratios in R. destruct R as (L & _). rewrite L.
    split; [lia|].
    intros Hpos. apply Qceiling_resp_le in Hpos.
    change (Qceiling 0) with 0%Z in Hpos. lia.
  - intros Hne Hlen.
    destruct (getPathTrips_returns path flow p ratios _ s Hratios Hk Hne Hlen)
      as (trips & E & _).
    now exists trips, (s + 3 * Z.to_nat (Qceiling q))%nat.
Qed.

End TripNumbers.

Section EmptyPath.

Context `{Imports} `{RandomSource}.


End EmptyPath.

(** A run of C10 in binary64: the value of a flow of total 220000000 is
    the double nearest to 1.1; under a multiplicator of 100 the bound is
    the product of the doubles, 110.00000000000001, and 111 trips come
    out.  And the double nearest to 1.3 under a multiplicator of 10 gives
    the bound 13, and 13 trips. *)
Lemma getPathTrips_ceiling_trips_witness :
  (exists trips s',
      @getPathTrips Sample.imports Sample.quarters binary64 Sample.straight_path
        (Scenario.flow_of_total binary64 [inject_Z 220000000])
        (Sample.particles (lit 100) (lit 500)) 0%nat = Returns trips s'
      /\ List.length trips = 111%nat)
  /\ (exists trips s',
         @getPathTrips Sample.imports Sample.quarters binary64
           Sample.straight_path
           (Sample.flow (@decimal binary64 (13 # 10)))
           (Sample.particles (lit 10) (lit 500)) 0%nat = Returns trips s'
         /\ List.length trips = 13%nat).
Proof.
  split.
  - destruct (@getPathTrips_ceiling_trips Sample.imports Sample.quarters binary64
                Sample.straight_path
                (Scenario.flow_of_total binary64 [inject_Z 220000000])
                (Sample.particles (lit 100) (lit 500))
                (Sample.cumulative 0 (Sample.total [inject_Z 220000000])
                   [inject_Z 220000000])
                0%nat (7740561859543041 # 70368744177664))
      as (Count & Run); [reflexivity|vm_compute; reflexivity|].
    destruct Run as (trips & s' & E); [simpl; lia|simpl; lia|].
    exists trips, s'. split; [exact E|].
    destruct (Count trips s' E) as (L & _).
    change (Z.max 0 (Qceiling (7740561859543041 # 70368744177664)))
      with 111%Z in L. lia.
  - destruct (@getPathTrips_ceiling_trips Sample.imports Sample.quarters binary64
                Sample.straight_path
                (Sample.flow (@decimal binary64 (13 # 10)))
                (Sample.particles (lit 10) (lit 500))
                [Num (2 # 10); Num (5 # 10); lit 1] 0%nat (13 # 1))
      as (Count & Run); [reflexivity|vm_compute; reflexivity|].
    destruct Run as (trips & s' & E); [simpl; lia|simpl; lia|].
    exists trips, s'. split; [exact E|].
    destruct (Count trips s' E) as (L & _).
    change (Z.max 0 (Qceiling (13 # 1))) with 13%Z in L. lia.
Defined.

(** C10, as stated, fails when the bound is negative (a run in binary64):
    a flow of value 1 under a multiplicator of -2, as a flow of value -2
    under the default parameters, has [numParticles = -2], whose ceiling is
    -2, and gets no trip. *)
Lemma getPathTrips_negative_bound :
  (@numParticles binary64 (Sample.flow (lit 1))
     (Sample.particles (lit (-2)) (lit 500))
   = lit (-2)
   /\ Qceiling (inject_Z (-2)) = (-2)%Z
   /\ @getPathTrips Sample.imports Sample.quarters binary64 Sample.straight_path
        (Sample.flow (lit 1)) (Sample.particles (lit (-2)) (lit 500)) 0%nat
      = Returns [] 0%nat)
  /\ (@numParticles binary64 (Sample.flow (lit (-2))) defaultTripsParams
      = lit (-2)
      /\ Qceiling (inject_Z (-2)) = (-2)%Z
      /\ @getPathTrips Sample.imports Sample.quarters binary64
           Sample.straight_path (Sample.flow (lit (-2))) defaultTripsParams
           0%nat = Returns [] 0%nat)
  /\ Z.of_nat (List.length (@nil (Trip.t Category))) <> (-2)%Z.
Proof.
  repeat split; try (vm_compute; reflexivity). discriminate.
Qed.



(** ** C6: the category and the colour of a trip *)

Section Categories.

Context `{Imports} `{RandomSource} {arithmetic : Rounding}.

(** Once the reduction has found an index it keeps it. *)
Lemma reduce_from_found (r : number) (l : list number) (i j : nat) :
  reduce_from
    (fun (acc : option nat) ratio i =>
       match acc with
       | Some _ => acc
       | None => if JS.lt r ratio then Some i else acc
       end) i l (Some j) = Some j.
Proof.
  revert i; induction l as [|x l IH]; intros i; simpl; [reflexivity|apply IH].
Qed.

(** The reduction finds the first share above the sample. *)
Lemma reduce_from_first (r : number) (l : list number) (i k : nat) (x : number) :
  nth_error l k = Some x ->
  JS.lt r x = true ->
  (forall j y, (j < k)%nat -> nth_error l j = Some y -> JS.lt r y = false) ->
  reduce_from
    (fun (acc : option nat) ratio i =>
       match acc with
       | Some _ => acc
       | None => if JS.lt r ratio then Some i else acc
       end) i l None = Some (i + k)%nat.
Proof.
  revert i k; induction l as [|y l IH]; intros i k Hk Hx Hbefore.
  - now destruct k.
  - destruct k as [|k]; simpl in *.
    + injection Hk as ->. rewrite Hx, Nat.add_0_r. apply reduce_from_found.
    + rewrite (Hbefore 0%nat y); [|lia|reflexivity].
      rewrite (IH (S i) k Hk Hx).
      * f_equal. lia.
      * intros j z Lj Hj. apply (Hbefore (S j) z); [lia|exact Hj].
Qed.

Lemma reduce_from_none (r : number) (l : list number) (i : nat) :
  (forall y, In y l -> JS.lt r y = false) ->
  reduce_from
    (fun (acc : option nat) ratio i =>
       match acc with
       | Some _ => acc
       | None => if JS.lt r ratio then Some i else acc
       end) i l None = None.
Proof.
  revert i; induction l as [|y l IH]; intros i Hall; simpl; [reflexivity|].
  rewrite (Hall y); [|now left]. apply IH. intros z Hz. apply Hall. now right.
Qed.

(** C6: the category index is the smallest index whose cumulative share
    exceeds the sample [r], and [0] when no share does; trip [i] of
    [getPathTrips] takes the category at the index chosen by its third
    draw, and its colour is the RGB colour of that category followed by
    255; for the shares 0.2, 0.5, 1.0 and the sample 0.35 the index is 1. *)
Theorem getPathTrips_category (path : Path.t) (flow : Flow.t)
    (p : TripsParams) (ratios : list number) (s s' : nat)
    (trips : list (Trip.t Category)) :
  Flow.valuesRatiosByFoodGroup flow = Some ratios ->
  getPathTrips path flow p s = Returns trips s' ->
  (forall (r : number) (k : nat) (x : number),
      nth_error ratios k = Some x ->
      JS.lt r x = true ->
      (forall j y, (j < k)%nat -> nth_error ratios j = Some y ->
                   JS.lt r y = false) ->
      categoryIndex r ratios = k)
  /\ (forall r : number,
         (forall y, In y ratios -> JS.lt r y = false) ->
         categoryIndex r ratios = 0%nat)
  /\ (forall i t,
         nth_error trips i = Some t ->
         let r := Num (draw (s + 3 * i + 2)) in
         nth_error CATEGORIES (categoryIndex r ratios) = Some (Trip.foodGroup t)
         /\ Trip.color t
            = hexToRgb (hex_color (CATEGORIES_PROPS (Trip.foodGroup t)))
                ++ [lit 255])
  /\ categoryIndex (Num (35 # 100)) [Num (2 # 10); Num (5 # 10); lit 1] = 1%nat.
Proof.
  intros Hratios E. split; [|split; [|split]].
  - intros r k x Hk Hx Hbefore. unfold categoryIndex, reduce.
    rewrite (reduce_from_first r ratios 0 k x Hk Hx Hbefore).
    now destruct k.
  - intros r Hall. unfold categoryIndex, reduce.
    now rewrite (reduce_from_none r ratios 0 Hall).
  - intros i t Ni r.
    destruct (getPathTrips_returned path flow p s s' trips E) as (k & _ & R).
    rewrite Hratios in R. destruct R as (_ & R).
    specialize (R i t Ni). unfold tripAt in R.
    replace (S (S (s + 3 * i))) with (s + 3 * i + 2)%nat in R by lia.
    fold r in R.
    destruct (nth_error CATEGORIES (categoryIndex r ratios)) as [c|];
      [|discriminate].
    injection R as <-. split; reflexivity.
  - reflexivity.
Qed.

End Categories.

(** A run of C6: the two trips of the sample flow of value 2 on the
    straight path; their third draws are 1/2 and 1/4, which pick the
    categories at the indices 2 and 1. *)
Lemma getPathTrips_category_witness :
  exists t0 t1 s',
    getPathTrips Sample.straight_path (Sample.flow (lit 2)) defaultTripsParams
      0%nat = Returns [t0; t1] s'
    /\ Trip.foodGroup t0 = "vegetables"%string
    /\ Trip.color t0 = [lit 77; lit 175; lit 74; lit 255]
    /\ Trip.foodGroup t1 = "nuts"%string
    /\ Trip.color t1 = [lit 55; lit 126; lit 184; lit 255].
Proof.
  destruct (getPathTrips Sample.straight_path (Sample.flow (lit 2))
              defaultTripsParams 0%nat) as [trips s'| |] eqn:E;
    try (vm_compute in E; discriminate).
  destruct (getPathTrips_category Sample.straight_path (Sample.flow (lit 2))
              defaultTripsParams [Num (2 # 10); Num (5 # 10); lit 1]
              0%nat s' trips eq_refl E) as (_ & _ & C & _).
  destruct trips as [|t0 [|t1 [|t2 trips]]];
    try (vm_compute in E; discriminate).
  exists t0, t1, s'. split; [reflexivity|].
  destruct (C 0%nat t0 eq_refl) as (F0 & C0).
  destruct (C 1%nat t1 eq_refl) as (F1 & C1).
  assert (@Trip.foodGroup (@Category Sample.imports) t0 = "vegetables"%string)
    as G0 by (injection F0 as F0; symmetry; exact F0).
  assert (@Trip.foodGroup (@Category Sample.imports) t1 = "nuts"%string)
    as G1 by (injection F1 as F1; symmetry; exact F1).
  rewrite C0, C1, G0, G1. repeat split; reflexivity.
Defined.

(** ** C4 and C5: the value and the route of a normalised flow *)

Section Normaliser.

Context `{Imports}.


End Normaliser.

Section Routes.

Context `{Imports} {arithmetic : Rounding}.

(** C5: for a record with an encoded route, the route of the flow is the
    decoded sequence with every pair swapped, in reverse order when the
    direction is ["backward"] (its first position is then the last decoded
    one, and position [i] the decoded one [i] places from the end), and in
    the decoded order otherwise. *)
Theorem useFlows_routeGeometry (flowType : string) (selectedCentroid : Position)
    (selectedId : string) (raw : Raw.t FlowsByCrop FlowsByCropGroup)
    (encoded : string) :
  Raw.route_geometry raw = Some encoded ->
  encoded <> EmptyString ->
  let flow := useFlows_record flowType selectedCentroid selectedId raw in
  let decoded := map swap (polyline_decode encoded) in
  (Raw.route_direction raw = Some "backward"%string ->
   Flow.routeGeometry flow = Some (rev decoded)
   /\ forall i d, (i < List.length decoded)%nat ->
                  nth i (rev decoded) d = nth (List.length decoded - S i) decoded d)
  /\ (Raw.route_direction raw <> Some "backward"%string ->
      Flow.routeGeometry flow = Some decoded).
Proof.
  intros Hroute Hne flow decoded.
  assert (truthy encoded = true) as T.
  { unfold truthy. destruct (String.eqb_spec encoded EmptyString); [contradiction|reflexivity]. }
  subst flow. unfold useFlows_record. simpl Flow.routeGeometry.
  rewrite Hroute, T. fold decoded. split.
  - intros ->. rewrite String.eqb_refl. simpl. split; [reflexivity|].
    intros i d L. now apply rev_nth.
  - intros N. destruct (Raw.route_direction raw) as [direction|]; [|reflexivity].
    destruct (String.eqb_spec direction "backward"); [|reflexivity].
    subst direction. contradiction.
Qed.

End Routes.


(** A run of C5: the route ["ab"] traced backward. *)
Lemma useFlows_routeGeometry_witness :
  Flow.routeGeometry
    (useFlows_record "consumer" (lit 0, lit 0) "21137"
       (Sample.record [] (Some "ab"%string) (Some "backward"%string)))
  = Some [(lit 1, lit 98); (lit 0, lit 97)].
Proof.
  apply (useFlows_routeGeometry "consumer" (lit 0, lit 0) "21137"
           (Sample.record [] (Some "ab"%string) (Some "backward"%string)) "ab");
    [reflexivity|discriminate|reflexivity].
Defined.

(** ** C2: the timestamps along a trip *)

Lemma nth_error_combine_seq {A : Type} (l : list A) (i k : nat) (x : nat * A) :
  nth_error (combine (seq i (List.length l)) l) k = Some x ->
  fst x = (i + k)%nat /\ nth_error l k = Some (snd x).
Proof.
  revert i k; induction l as [|a l IH]; intros i k E; simpl in E.
  - now destruct k.
  - destruct k as [|k]; simpl in *.
    + injection E as <-. simpl. split; [lia|reflexivity].
    + destruct (IH (S i) k E) as (F & N). split; [lia|exact N].
Qed.

Section Timestamps.

Context `{Imports} `{RandomSource} {arithmetic : Rounding}.

(** The reduction over the coordinates, in closed form: coordinate [k] gets
    the timestamp [timestampStart + accDistance / totalDistance *
    timestampDelta] with the distance accumulated before [k]. *)
Lemma waypointsAccumulator_closed_form (path : Path.t) (start delta : number) :
  waypoints (waypointsAccumulator path start delta)
  = map (fun kc : nat * Position =>
           {| Waypoint.coordinates := snd kc;
              Waypoint.timestamp :=
                (start
                 + accDistanceBefore (Path.distances path) (fst kc)
                   / Path.totalDistance path * delta)%js |})
        (combine (seq 0 (List.length (Path.coordinates path)))
                 (Path.coordinates path)).
Proof.
  unfold waypointsAccumulator, reduce.
  generalize (Path.coordinates path) as l.
  assert (forall l i ws,
             waypoints
               (reduce_from
                  (fun accumulator currentCoords currentIndex =>
                     {| accDistance :=
                          (accDistance accumulator
                           + index (Path.distances path) currentIndex)%js;
                        waypoints :=
                          waypoints accumulator
                          ++ [{| Waypoint.coordinates := currentCoords;
                                 Waypoint.timestamp :=
                                   (start
                                    + accDistance accumulator
                                      / Path.totalDistance path * delta)%js |}] |})
                  i l
                  {| waypoints := ws;
                     accDistance := accDistanceBefore (Path.distances path) i |})
             = ws ++ map (fun kc : nat * Position =>
                            {| Waypoint.coordinates := snd kc;
                               Waypoint.timestamp :=
                                 (start
                                  + accDistanceBefore (Path.distances path) (fst kc)
                                    / Path.totalDistance path * delta)%js |})
                         (combine (seq i (List.length l)) l)) as G.
  { induction l as [|c l IH]; intros i ws; simpl.
    - now rewrite app_nil_r.
    - change (accDistanceBefore (Path.distances path) i
              + index (Path.distances path) i)%js
        with (accDistanceBefore (Path.distances path) (S i)).
      rewrite IH, <- app_assoc. reflexivity. }
  intros l. apply (G l 0%nat []).
Qed.

Lemma map_snd_combine_seq {A : Type} (l : list A) (i : nat) :
  map snd (combine (seq i (List.length l)) l) = l.
Proof.
  revert i; induction l as [|a l IH]; intros i; simpl; [reflexivity|].
  now rewrite IH.
Qed.

(** What adds up to a finite number is finite. *)
Lemma add_Num_inv (x y : number) (a : Q) :
  (x + y)%js = Num a -> exists p q, x = Num p /\ y = Num q /\ rnd (p + q) = Num a.
Proof.
  destruct x as [p| | |], y as [q| | |]; cbn [JS.add]; try discriminate.
  intros E. now exists p, q.
Qed.

Lemma le_trans (a b c : number) :
  JS.le a b = true -> JS.le b c = true -> JS.le a c = true.
Proof.
  destruct a as [p| | |], b as [q| | |], c as [r| | |]; cbn [JS.le];
    try discriminate; try reflexivity.
  intros L1 L2. apply Qle_bool_iff in L1, L2. apply Qle_bool_iff.
  now apply Qle_trans with q.
Qed.

Lemma le_refl (a : number) : a <> NaN -> JS.le a a = true.
Proof.
  destruct a as [p| | |]; cbn [JS.le]; try reflexivity; [|contradiction].
  intros _. apply Qle_bool_iff, Qle_refl.
Qed.

Lemma le_PosInf (a : number) : a <> NaN -> JS.le a PosInf = true.
Proof. destruct a; try reflexivity. contradiction. Qed.

Lemma le_not_NaN (a b : number) : JS.le a b = true -> a <> NaN /\ b <> NaN.
Proof. destruct a, b; cbn [JS.le]; try discriminate; split; discriminate. Qed.

Context {lawful : Lawful arithmetic}.

Lemma rnd_not_NaN (q : Q) : rnd q <> NaN.
Proof. exact (proj1 (le_not_NaN _ _ (rnd_le q q (Qle_refl q)))). Qed.

Lemma rnd_zero : rnd 0 = Num 0.
Proof. apply (rnd_integer 0). cbn. lia. Qed.

Lemma rnd_one : rnd 1 = Num 1.
Proof. apply (rnd_integer 1). cbn. lia. Qed.

(** Adding to a finite number keeps the order. *)
Lemma add_le_r (a : Q) (x y : number) :
  JS.le x y = true -> JS.le (Num a + x) (Num a + y) = true.
Proof.
  destruct x as [p| | |], y as [q| | |]; cbn [JS.le JS.add]; try discriminate;
    intros L; try reflexivity.
  - apply rnd_le. apply Qle_bool_iff in L. now apply Qplus_le_r.
  - apply le_PosInf, rnd_not_NaN.
  - pose proof (rnd_not_NaN (a + q)) as N.
    destruct (rnd (a + q)); try reflexivity. contradiction.
Qed.

(** The accumulated distance, as long as the entries read are finite and
    not negative: it never decreases, and it is [Infinity] or a number the
    rounding returns. *)
Lemma accDistanceBefore_order (distances : list number) (n : nat) :
  (forall j, (j < n)%nat -> exists d, index distances j = Num d /\ 0 <= d) ->
  forall k, (k <= n)%nat ->
    (accDistanceBefore distances k = PosInf
     \/ exists a, accDistanceBefore distances k = Num a
                  /\ 0 <= a /\ rnd a = Num a)
    /\ forall j, (j <= k)%nat ->
                 JS.le (accDistanceBefore distances j)
                       (accDistanceBefore distances k) = true.
Proof.
  intros Hd. induction k as [|k IH]; intros Lk.
  - split.
    + right. exists (inject_Z 0). split; [reflexivity|].
      split; [apply Qle_refl|]. apply rnd_integer. cbn. lia.
    + intros j Lj. replace j with 0%nat by lia. reflexivity.
  - destruct IH as (Shape & Order); [lia|].
    destruct (Hd k) as (d & Ed & Pd); [lia|].
    assert (JS.le (accDistanceBefore distances k)
                  (accDistanceBefore distances (S k)) = true) as Step.
    { cbn [accDistanceBefore]. rewrite Ed.
      destruct Shape as [->|(a & -> & Pa & Fa)]; [reflexivity|].
      cbn [JS.add]. rewrite <- Fa at 1. apply rnd_le. lra. }
    split.
    + destruct Shape as [Inf|(a & Ea & Pa & Fa)].
      * left. cbn [accDistanceBefore]. now rewrite Inf, Ed.
      * rewrite Ea in Step. cbn [accDistanceBefore] in Step |- *.
        rewrite Ea, Ed in Step |- *. cbn [JS.add] in Step |- *.
        destruct (rnd (a + d)) as [b| | |] eqn:Eb; try discriminate.
        -- right. exists b. split; [reflexivity|]. split.
           ++ apply le_true_iff in Step. lra.
           ++ exact (rnd_fixed _ _ Eb).
        -- now left.
    + intros j Lj. destruct (Nat.eq_dec j (S k)) as [->|N].
      * apply le_refl. exact (proj2 (le_not_NaN _ _ Step)).
      * apply le_trans with (accDistanceBefore distances k); [|exact Step].
        apply Order. lia.
Qed.


End Timestamps.

Lemma quarters_unit_draws : unit_draws Sample.quarters.
Proof.
  intros i. unfold draw, Sample.quarters.
  assert (i mod 4 < 4)%nat as B by (apply Nat.mod_upper_bound; lia).
  destruct (i mod 4)%nat as [|[|[|[|m]]]];
    [split; [apply Qle_bool_iff; reflexivity|apply Qlt_alt; reflexivity]..|lia].
Qed.



(** ** C3: the deviation of the interior waypoints *)

(** The displacement of a waypoint from the point of the straight line it
    deviates from is [deviation * (cos angle, - sin angle)], [angle] being
    the direction from the source to the target. *)
Lemma waypoint_displacement `{Imports} `{Trigonometry} (link : Flow.t)
    (numWaypoints : number) (waypointIndex : nat) (deviation : number) :
  let '(startX, startY) := Flow.source link in
  let '(endX, endY) := Flow.target link in
  let angle := Math.atan2 (endY - startY) (endX - startX) in
  exists midX midY,
    waypoint link numWaypoints waypointIndex deviation
    = (deviation * Math.cos angle + midX, - deviation * Math.sin angle + midY)%js.
Proof.
  unfold waypoint. destruct (Flow.source link) as [startX startY].
  destruct (Flow.target link) as [endX endY]. eexists _, _. reflexivity.
Qed.

(** C3 at a failing input: a flow due east from (0, 0) to (4, 0), under a
    minimal deviation of 0.2 and a maximal one of 0.6.  At a draw of 1/4
    the deviation is 0.3 at index 0 and 0.1 at index 1: the second is on the
    same side as the first and below the minimum.  And the two interior
    waypoints the code generates lie on the straight line from the source
    to the target, as their latitude 0 shows: they are moved along the
    direction of the flow, not across it. *)
Theorem getCurvedPaths_deviation_eastward :
  deviation Sample.deviating 0 (Num (1 # 4)) =js= Num (3 # 10)
  /\ deviation Sample.deviating 1 (Num (1 # 4)) =js= Num (1 # 10)
  /\ JS.le (minDeviationDegrees Sample.deviating)
           (deviation Sample.deviating 1 (Num (1 # 4))) = false
  /\ JS.lt (deviation Sample.deviating 1 (Num (1 # 4))) (lit 0) = false
  /\ exists w0 w1 distances totalDistance s',
      getCurvedPaths (Sample.flow (lit 1)) Sample.deviating 0%nat
      = Returns [{| Path.coordinates :=
                      [(lit 0, lit 0); w0; w1; (lit 4, lit 0)];
                    Path.distances := distances;
                    Path.totalDistance := totalDistance |}] s'
      /\ snd w0 =js= lit 0 /\ snd w1 =js= lit 0
      /\ JS.lt (lit 0) (fst w0) = true /\ JS.lt (fst w1) (lit 4) = true.
Proof.
  repeat split; try reflexivity.
  eexists _, _, _, _, _. split; [vm_compute; reflexivity|].
  repeat split.
Qed.

(** * Further properties of the hooks *)

(** ** [useFlows] *)

Section UseFlowsMore.

Context `{Imports} {arithmetic : Rounding}.

(** X1: [useFlows] has no flow while the selected county, the counties or
    the flows are missing.  Otherwise it normalises the records in their
    order, as many as the truncated cap allows when the cap is not negative,
    and all but the last [-z] when the cap is a negative integer [z]. *)
Theorem useFlows_first_records (selectedId : string) (selectedCentroid : Position)
    (flows : list (Raw.t FlowsByCrop FlowsByCropGroup)) (flowType : string) :
  (forall selectedCounty counties flowsData cap,
      selectedCounty = None \/ counties = None \/ flowsData = None ->
      useFlows selectedCounty counties flowsData flowType cap = [])
  /\ (forall q : Q,
         0 <= q ->
         useFlows (Some (selectedId, selectedCentroid)) (Some tt) (Some flows)
           flowType (Num q)
         = map (useFlows_record flowType selectedCentroid selectedId)
               (firstn (Z.to_nat (Qfloor q)) flows))
  /\ (forall z : Z,
         (z < 0)%Z ->
         useFlows (Some (selectedId, selectedCentroid)) (Some tt) (Some flows)
           flowType (lit z)
         = map (useFlows_record flowType selectedCentroid selectedId)
               (firstn (List.length flows - Z.to_nat (- z)) flows)).
Proof.
  split; [|split].
  - intros selectedCounty counties flowsData cap [->|[->| ->]].
    + reflexivity.
    + unfold useFlows. now destruct selectedCounty as [[? ?]|].
    + unfold useFlows. destruct selectedCounty as [[? ?]|]; [|reflexivity].
      now destruct counties.
  - intros [n d] Lq. unfold useFlows, slice_to. cbn [Qnum Qden Qfloor].
    assert (0 <= n)%Z as Ln.
    { unfold Qle in Lq. simpl in Lq. lia. }
    rewrite Z.quot_div_nonneg by lia.
    destruct (Z.ltb_spec (n / Z.pos d) 0) as [L|L]; [|reflexivity].
    pose proof (Z.div_pos n (Z.pos d) Ln eq_refl). lia.
  - intros z Lz. unfold useFlows, slice_to, lit, JS.of_Z, inject_Z.
    cbn [Qnum Qden]. rewrite Z.quot_1_r.
    destruct (Z.ltb_spec z 0) as [_|L]; [|lia].
    do 2 f_equal. lia.
Qed.

(** X2: the flow type only decides which end of a flow is its source.  In
    any other mode than ["consumer"] the source and the target, and their
    ids, are those of the consumer mode exchanged; the value, the shares
    and the route, with its orientation, are the same. *)
Theorem useFlows_record_flowType (flowType : string) (selectedCentroid : Position)
    (selectedId : string) (raw : Raw.t FlowsByCrop FlowsByCropGroup) :
  flowType <> "consumer"%string ->
  let consumer := useFlows_record "consumer" selectedCentroid selectedId raw in
  let other := useFlows_record flowType selectedCentroid selectedId raw in
  Flow.source other = Flow.target consumer
  /\ Flow.target other = Flow.source consumer
  /\ Flow.sourceId other = Flow.targetId consumer
  /\ Flow.targetId other = Flow.sourceId consumer
  /\ Flow.value other = Flow.value consumer
  /\ Flow.valuesRatiosByFoodGroup other = Flow.valuesRatiosByFoodGroup consumer
  /\ Flow.routeGeometry other = Flow.routeGeometry consumer
  /\ Flow.source consumer = Raw.county_centroid raw
  /\ Flow.target consumer = selectedCentroid.
Proof.
  intros Hother. unfold useFlows_record.
  destruct (String.eqb_spec flowType "consumer") as [E|_]; [contradiction|].
  cbn. repeat split; reflexivity.
Qed.

End UseFlowsMore.

Section RecordPaths.

Context `{Imports} `{Trigonometry} `{RandomSource} {arithmetic : Rounding}.

(** X3: a normalised record is a flow from a county to itself exactly when
    the record is that of the selected county, whatever the flow type; both
    path hooks then give it the one path of [getSelfPath], and its
    coordinates are what the call [circle(point(source), 30, 20,
    "kilometers")] of the source returns, the source of the flow being the
    centroid of the record in consumer mode and that of the selected county
    otherwise.  (What ring turf returns for these arguments is not part of
    the statement.) *)
Theorem useFlows_record_self (flowType : string) (selectedCentroid : Position)
    (selectedId : string) (raw : Raw.t FlowsByCrop FlowsByCropGroup)
    (params : PathsParams) (s : nat) :
  let flow := useFlows_record flowType selectedCentroid selectedId raw in
  isSelf flow = String.eqb (Raw.county_id raw) selectedId
  /\ (Raw.county_id raw = selectedId ->
      roadPathsOf flow = getSelfPath flow
      /\ curvedPathsOf params flow s = Returns (getSelfPath flow) s
      /\ exists path,
          getSelfPath flow = [path]
          /\ Path.coordinates path
             = circle (if String.eqb flowType "consumer"
                       then Raw.county_centroid raw else selectedCentroid)
                      (lit 30) (lit 20) "kilometers").
Proof.
  intros flow.
  assert (isSelf flow = String.eqb (Raw.county_id raw) selectedId) as E.
  { unfold flow, isSelf, useFlows_record. cbn [Flow.sourceId Flow.targetId].
    destruct (String.eqb flowType "consumer"); [reflexivity|apply String.eqb_sym]. }
  split; [exact E|]. intros Hid.
  assert (isSelf flow = true) as S by (rewrite E, Hid; apply String.eqb_refl).
  unfold roadPathsOf, curvedPathsOf. rewrite S. split; [reflexivity|].
  split; [reflexivity|]. unfold getSelfPath.
  destruct (getDistances _) as [distances totalDistance].
  eexists. split; [reflexivity|]. cbn [Path.coordinates].
  unfold flow, useFlows_record. cbn [Flow.source].
  now destruct (String.eqb flowType "consumer").
Qed.

(** X4: in road mode a record of another county than the selected one gets
    exactly one path, with the distance table of its coordinates.  The
    coordinates are the decoded route, pairs swapped, reversed when the
    direction is ["backward"]; a record without a route, or with an empty
    one, gets a path without coordinates, whatever its direction. *)
Theorem roadPathsOf_record (flowType : string) (selectedCentroid : Position)
    (selectedId : string) (raw : Raw.t FlowsByCrop FlowsByCropGroup) :
  Raw.county_id raw <> selectedId ->
  let flow := useFlows_record flowType selectedCentroid selectedId raw in
  exists path,
    roadPathsOf flow = [path]
    /\ (Path.distances path, Path.totalDistance path)
       = getDistances (Path.coordinates path)
    /\ (Raw.route_geometry raw = None \/ Raw.route_geometry raw = Some EmptyString ->
        Path.coordinates path = [])
    /\ (forall encoded,
           Raw.route_geometry raw = Some encoded -> encoded <> EmptyString ->
           Path.coordinates path
           = if match Raw.route_direction raw with
                | Some direction => String.eqb direction "backward"
                | None => false
                end
             then rev (map swap (polyline_decode encoded))
             else map swap (polyline_decode encoded)).
Proof.
  intros Hid flow.
  assert (isSelf flow = false) as S.
  { unfold flow, isSelf, useFlows_record. cbn [Flow.sourceId Flow.targetId].
    destruct (String.eqb flowType "consumer").
    - now apply String.eqb_neq.
    - apply String.eqb_neq. congruence. }
  unfold roadPathsOf. rewrite S. unfold getRoadPaths.
  destruct (getDistances (routeCoordinates flow)) as [distances totalDistance] eqn:D.
  eexists. split; [reflexivity|]. cbn [Path.coordinates Path.distances Path.totalDistance].
  split; [now rewrite D|].
  unfold routeCoordinates, flow, useFlows_record. cbn [Flow.routeGeometry].
  split.
  - intros [-> | ->]; cbn [truthy String.eqb negb];
      destruct (Raw.route_direction raw) as [direction|]; try reflexivity;
      now destruct (String.eqb direction "backward").
  - intros encoded -> Hne.
    assert (truthy encoded = true) as ->.
    { unfold truthy. now destruct (String.eqb_spec encoded EmptyString). }
    destruct (Raw.route_direction raw) as [direction|]; [|reflexivity].
    now destruct (String.eqb direction "backward").
Qed.

(** X5: [useFlowsWithRoadPaths] keeps the flows, one entry each in their
    order, and gives every flow exactly one path. *)
Theorem useFlowsWithRoadPaths_one_path_each (flows : list Flow.t) :
  map fst (useFlowsWithRoadPaths flows) = flows
  /\ Forall (fun entry => List.length (snd entry) = 1%nat)
            (useFlowsWithRoadPaths flows).
Proof.
  unfold useFlowsWithRoadPaths. split.
  - rewrite map_map. cbn [fst]. apply map_id.
  - apply Forall_map, Forall_forall. intros l _. cbn [snd].
    unfold roadPathsOf, getSelfPath, getRoadPaths.
    destruct (isSelf l); destruct (getDistances _); reflexivity.
Qed.

End RecordPaths.

(** ** The generated paths *)

(** What holds of the initial value of a loop and is kept by every
    iteration that returns holds of what the loop returns. *)
Lemma foldM_invariant {St : Type} (body : nat -> St -> M St) (Q : St -> Prop) :
  (forall i acc s out s', Q acc -> body i acc s = Returns out s' -> Q out) ->
  forall l acc s out s',
    Q acc -> foldM body l acc s = Returns out s' -> Q out.
Proof.
  intros Hbody l; induction l as [|i l IH]; intros acc s out s' Hacc E.
  - injection E as <- _. exact Hacc.
  - cbn [foldM] in E. unfold bind in E.
    destruct (body i acc s) as [acc' s1| |] eqn:B; try discriminate.
    apply (IH acc' s1 out s'); [|exact E]. now apply (Hbody i acc s acc' s1).
Qed.

Lemma for_lt_invariant {St : Type} (n : number) (body : nat -> St -> M St)
    (Q : St -> Prop) :
  (forall i acc s out s', Q acc -> body i acc s = Returns out s' -> Q out) ->
  forall init s out s',
    Q init -> for_lt n body init s = Returns out s' -> Q out.
Proof.
  intros Hbody init s out s' Hinit E. unfold for_lt in E.
  destruct (trip_count n) as [k|]; [|discriminate].
  now apply (foldM_invariant body Q Hbody (seq 0 k) init s out s').
Qed.

(** A loop that pushes one element per iteration returns as many elements
    as it has iterations. *)
Lemma for_lt_pushes {A : Type} (n : number) (body : nat -> list A -> M (list A))
    (s s' : nat) (out : list A) (k : nat) :
  (forall i acc s, exists x s', body i acc s = Returns (acc ++ [x]) s') ->
  trip_count n = Some k ->
  for_lt n body [] s = Returns out s' -> List.length out = k.
Proof.
  intros Hbody Hk E. unfold for_lt in E. rewrite Hk in E.
  destruct (foldM_grows body Hbody (seq 0 k) [] s) as (out' & s1 & E' & L).
  rewrite E' in E. injection E as <- _. now rewrite L, length_seq.
Qed.

Section PathShapes.

Context `{Imports} `{Trigonometry} `{RandomSource} {arithmetic : Rounding}.

(** The body of the outer loop of [getCurvedPaths], read off an iteration
    that returns. *)
Lemma getCurvedPaths_invariant (link : Flow.t) (p : PathsParams)
    (P : Path.t -> Prop) (s s' : nat) (paths : list Path.t) :
  (forall (r : nat) (waypoints : list Position) s1 s2,
      for_lt (numWaypoints link p (Num (draw r)))
        (fun waypointIndex waypoints =>
           random <- Math.random ;;
           ret (waypoints
                  ++ [waypoint link (numWaypoints link p (Num (draw r)))
                        waypointIndex (deviation p waypointIndex random)]))
        [] s1 = Returns waypoints s2 ->
      let allWaypoints := [Flow.source link] ++ waypoints ++ [Flow.target link] in
      let feature := if smooth p then bezierSpline allWaypoints else allWaypoints in
      P {| Path.coordinates := feature;
           Path.distances := fst (getDistances feature);
           Path.totalDistance := snd (getDistances feature) |}) ->
  getCurvedPaths link p s = Returns paths s' ->
  Forall P paths.
Proof.
  intros Hline E. unfold getCurvedPaths in E.
  refine (for_lt_invariant _ _ (Forall P) _ [] s paths s' (Forall_nil P) E).
  clear E. intros i acc s0 out s1 Hacc B. unfold bind, Math.random in B.
  destruct (for_lt _ _ _ _) as [waypoints s2| |] eqn:W; try discriminate.
  specialize (Hline s0 waypoints (S s0) s2 W). cbv zeta in Hline.
  destruct (getDistances _) as [distances totalDistance].
  injection B as <- _. apply Forall_app. split; [exact Hacc|].
  now constructor.
Qed.

(** X6: every path a generator returns carries the distance table of its
    own coordinates: the curved paths, smoothed or not, the circle of a
    flow from a county to itself, and the road. *)
Theorem paths_carry_their_distances (link : Flow.t) (p : PathsParams)
    (s s' : nat) (paths : list Path.t) :
  curvedPathsOf p link s = Returns paths s' ->
  Forall (fun path =>
            (Path.distances path, Path.totalDistance path)
            = getDistances (Path.coordinates path))
         (paths ++ roadPathsOf link).
Proof.
  intros E. apply Forall_app. split.
  - unfold curvedPathsOf in E. destruct (isSelf link).
    + injection E as <- _. unfold getSelfPath.
      destruct (getDistances _) as [d t] eqn:D. constructor; [|constructor].
      cbn. now rewrite D.
    + apply (getCurvedPaths_invariant link p _ s s' paths); [|exact E].
      intros r waypoints s1 s2 _. cbn.
      now destruct (getDistances _).
  - unfold roadPathsOf, getSelfPath, getRoadPaths.
    destruct (isSelf link); destruct (getDistances _) as [d t] eqn:D;
      (constructor; [|constructor]); cbn; now rewrite D.
Qed.

(** X7: without smoothing, every curved path starts at the source of the
    flow and ends at its target. *)
Theorem getCurvedPaths_endpoints (link : Flow.t) (p : PathsParams)
    (s s' : nat) (paths : list Path.t) :
  smooth p = false ->
  getCurvedPaths link p s = Returns paths s' ->
  Forall (fun path =>
            exists waypoints,
              Path.coordinates path
              = Flow.source link :: waypoints ++ [Flow.target link])
         paths.
Proof.
  intros Hsmooth E.
  apply (getCurvedPaths_invariant link p _ s s' paths); [|exact E].
  intros r waypoints s1 s2 _. rewrite Hsmooth. cbn. now exists waypoints.
Qed.

End PathShapes.

(** *** Ranges of the waypoints, in the arithmetic of the rationals *)

Section WaypointRanges.

Context `{Imports} `{Trigonometry} `{RandomSource}.

Local Open Scope Q_scope.

(** The number of waypoints of a line lies between the two bounds. *)
Lemma numWaypoints_between (link : Flow.t) (p : PathsParams) (d a b r : Q) :
  distance (Flow.source link) (Flow.target link) = Num d -> 0 <= d ->
  minWaypointsPer1000km p = Num a -> 0 <= a ->
  maxWaypointsPer1000km p = Num b -> a <= b ->
  0 <= r -> r < 1 ->
  exists m M k : Z,
    minWaypoints link p = lit m /\ maxWaypoints link p = lit M
    /\ numWaypoints link p (Num r) = Num (inject_Z (k - m) + inject_Z m)
    /\ (0 <= m <= k)%Z /\ (k <= M)%Z.
Proof.
  intros Hd Ld Ha La Hb Lab Lr0 Lr1.
  unfold numWaypoints, minWaypoints, maxWaypoints. rewrite Hd, Ha, Hb.
  change (Num d / lit 1000)%js with (Num (d / inject_Z 1000)).
  cbn [JS.mul Math.round].
  set (m := Qfloor (d / inject_Z 1000 * a + (1 # 2))).
  set (M := Qfloor (d / inject_Z 1000 * b + (1 # 2))).
  assert (0 <= d / inject_Z 1000) as Ld'.
  { apply Qle_shift_div_l; [reflexivity|]. now rewrite Qmult_0_l. }
  assert (0 <= m)%Z as Lm.
  { change 0%Z with (Qfloor 0). apply Qfloor_resp_le.
    apply Qle_trans with (0 + 0); [discriminate|].
    apply Qplus_le_compat; [|discriminate].
    now apply Qmult_le_0_compat. }
  assert (m <= M)%Z as LmM.
  { apply Qfloor_resp_le. apply Qplus_le_l. rewrite !(Qmult_comm (d / _)).
    now apply Qmult_le_compat_r. }
  unfold lit, JS.of_Z. cbn [JS.add JS.sub JS.neg JS.mul Math.floor].
  unfold JS.of_Z. change (inject_Z 1) with 1.
  set (x := r * (1 + inject_Z M + - inject_Z m)).
  assert (1 + inject_Z M + - inject_Z m == inject_Z (M - m + 1)) as Ew.
  { unfold Z.sub. rewrite !inject_Z_plus, inject_Z_opp. ring. }
  assert (0 <= inject_Z (M - m + 1)) as Lw.
  { change 0 with (inject_Z 0). rewrite <- Zle_Qle. lia. }
  assert (0 <= Qfloor x)%Z as Lf0.
  { change 0%Z with (Qfloor 0). apply Qfloor_resp_le. unfold x. rewrite Ew.
    now apply Qmult_le_0_compat. }
  assert (Qfloor x <= M - m)%Z as Lf1.
  { assert (Qfloor x < M - m + 1)%Z as L; [|lia]. rewrite Zlt_Qlt.
    apply Qle_lt_trans with x; [apply Qfloor_le|]. unfold x. rewrite Ew.
    rewrite <- (Qmult_1_l (inject_Z (M - m + 1))) at 2.
    apply Qmult_lt_compat_r; [|exact Lr1].
    change 0 with (inject_Z 0). rewrite <- Zlt_Qlt. lia. }
  exists m, M, (Qfloor x + m)%Z. split; [reflexivity|]. split; [reflexivity|].
  split; [|lia]. cbn [JS.add].
  replace (Qfloor x + m - m)%Z with (Qfloor x) by lia. reflexivity.
Qed.



End WaypointRanges.

(** ** Mapping with effects *)

(** What relates an element to the value [f] returns for it relates a list
    to what [mapM f] returns for it, element by element. *)
Lemma mapM_Forall2 {A B : Type} (f : A -> M B) (R : A -> B -> Prop) :
  (forall x s y s', f x s = Returns y s' -> R x y) ->
  forall l s ys s', mapM f l s = Returns ys s' -> Forall2 R l ys.
Proof.
  intros Hf l; induction l as [|x l IH]; intros s ys s' E.
  - injection E as <- _. constructor.
  - cbn [mapM] in E. unfold bind in E.
    destruct (f x s) as [y s1| |] eqn:F; try discriminate.
    destruct (mapM f l s1) as [ys' s2| |] eqn:Rest; try discriminate.
    injection E as <- _. constructor; [now apply (Hf x s y s1)|].
    now apply (IH s1 ys' s2).
Qed.

(** An [f] that returns without a draw makes [mapM f] the plain map. *)
Lemma mapM_pure {A B : Type} (f : A -> M B) (g : A -> B) (l : list A) (s : nat) :
  (forall x, In x l -> f x s = Returns (g x) s) ->
  mapM f l s = Returns (map g l) s.
Proof.
  induction l as [|x l IH]; intros Hf; [reflexivity|].
  cbn [mapM map]. unfold bind. rewrite Hf by now left.
  rewrite IH; [reflexivity|]. intros y Hy. apply Hf. now right.
Qed.

Section CurvedHook.

Context `{Imports} `{Trigonometry} `{RandomSource} {arithmetic : Rounding}.

(** X10: whatever [useFlowsWithCurvedPaths] returns keeps the flows, one
    entry each in their order; the entry of a flow from a county to itself
    holds its circle, the entry of any other flow what [getCurvedPaths]
    returns for it.  Flows from a county to itself take no draw: when all
    flows are such, the hook returns what [useFlowsWithRoadPaths] does, the
    cursor where it was. *)
Theorem useFlowsWithCurvedPaths_entries (flows : list Flow.t)
    (params : PathsParams) (s : nat) :
  (forall result s',
      useFlowsWithCurvedPaths flows params s = Returns result s' ->
      map fst result = flows
      /\ Forall (fun entry =>
                   if isSelf (fst entry)
                   then snd entry = getSelfPath (fst entry)
                   else exists s1 s2,
                       getCurvedPaths (fst entry) params s1
                       = Returns (snd entry) s2)
                result)
  /\ ((forall l, In l flows -> Flow.sourceId l = Flow.targetId l) ->
      useFlowsWithCurvedPaths flows params s
      = Returns (useFlowsWithRoadPaths flows) s).
Proof.
  split.
  - intros result s' E. unfold useFlowsWithCurvedPaths in E.
    apply (mapM_Forall2 _
             (fun l entry =>
                fst entry = l
                /\ if isSelf (fst entry)
                   then snd entry = getSelfPath (fst entry)
                   else exists s1 s2,
                       getCurvedPaths (fst entry) params s1
                       = Returns (snd entry) s2)) in E.
    + clear s s'. induction E as [|l entry flows result (F & P) _ (IH1 & IH2)].
      * split; constructor.
      * split; [cbn; now rewrite F, IH1|]. now constructor.
    + intros l s0 entry s1 B. unfold bind, curvedPathsOf in B.
      destruct (isSelf l) eqn:S.
      * injection B as <- _. cbn. rewrite S. now split.
      * destruct (getCurvedPaths l params s0) as [paths s2| |] eqn:G;
          try discriminate.
        injection B as <- _. cbn. rewrite S. split; [reflexivity|].
        now exists s0, s2.
  - intros Hself. unfold useFlowsWithCurvedPaths, useFlowsWithRoadPaths.
    apply mapM_pure. intros l Hl. unfold bind, curvedPathsOf, roadPathsOf.
    assert (isSelf l = true) as ->; [|reflexivity].
    unfold isSelf. rewrite (Hself l Hl). apply String.eqb_refl.
Qed.

End CurvedHook.

(** ** More on the trips *)

(** The order of JavaScript numbers: what is at most a number below another
    is below it. *)
Lemma le_lt_trans (a b c : number) :
  JS.le a b = true -> JS.lt b c = true -> JS.lt a c = true.
Proof.
  destruct a as [p| | |], b as [q| | |], c as [r| | |];
    simpl; try discriminate; try reflexivity.
  intros L1 L2. apply Qle_bool_iff in L1. apply negb_true_iff in L2.
  apply negb_true_iff. destruct (Qle_bool r p) eqn:E; [|reflexivity].
  apply Qle_bool_iff in E.
  assert (Qle_bool r q = true) as C by (apply Qle_bool_iff; lra).
  congruence.
Qed.

(** What the search for the category finds: the first share above the
    sample, with its place, or nothing when no share is above it. *)
Lemma reduce_from_search (r : number) (l : list number) (i : nat) :
  match reduce_from
          (fun (acc : option nat) ratio i =>
             match acc with
             | Some _ => acc
             | None => if JS.lt r ratio then Some i else acc
             end) i l None with
  | Some k =>
      exists j x,
        k = (i + j)%nat /\ nth_error l j = Some x /\ JS.lt r x = true
        /\ forall j' y, (j' < j)%nat -> nth_error l j' = Some y ->
                        JS.lt r y = false
  | None => forall y, In y l -> JS.lt r y = false
  end.
Proof.
  revert i; induction l as [|x l IH]; intros i; cbn [reduce_from].
  - now intros y [].
  - destruct (JS.lt r x) eqn:Lx.
    + rewrite reduce_from_found. exists 0%nat, x.
      repeat split; [lia|exact Lx|]. intros j' y L. lia.
    + specialize (IH (S i)). destruct (reduce_from _ _ _ _) as [k|].
      * destruct IH as (j & y & -> & N & Ly & Before).
        exists (S j), y. repeat split; [lia|exact N|exact Ly|].
        intros [|j'] z L Nz; [now injection Nz as <-|].
        apply (Before j' z); [lia|exact Nz].
      * intros y [<-|Hy]; [exact Lx|now apply IH].
Qed.

(** X11: as long as a share exceeds the sample, the share at the category
    index is the first one that does, and the index does not go down when
    the sample goes up. *)
Theorem categoryIndex_monotone (r r' : number) (ratios : list number) :
  JS.le r r' = true ->
  (exists y, In y ratios /\ JS.lt r' y = true) ->
  (exists x x',
      nth_error ratios (categoryIndex r ratios) = Some x /\ JS.lt r x = true
      /\ nth_error ratios (categoryIndex r' ratios) = Some x'
      /\ JS.lt r' x' = true)
  /\ (categoryIndex r ratios <= categoryIndex r' ratios)%nat.
Proof.
  intros Lr (y & Hy & Ly).
  assert (forall q, (exists y, In y ratios /\ JS.lt q y = true) ->
                    exists x, nth_error ratios (categoryIndex q ratios) = Some x
                              /\ JS.lt q x = true
                              /\ forall j' z, (j' < categoryIndex q ratios)%nat ->
                                              nth_error ratios j' = Some z ->
                                              JS.lt q z = false) as Found.
  { intros q (z & Hz & Lz). unfold categoryIndex, reduce.
    pose proof (reduce_from_search q ratios 0) as S.
    destruct (reduce_from _ _ _ _) as [k|].
    - destruct S as (j & x & -> & N & Lx & Before). cbn [Nat.add].
      replace (or_zero (Some j)) with j by now destruct j.
      now exists x.
    - rewrite (S z Hz) in Lz. discriminate. }
  destruct (Found r') as (x' & N' & L' & _); [now exists y|].
  destruct (Found r) as (x & N & L & Before).
  { exists y. split; [exact Hy|]. now apply (le_lt_trans r r' y). }
  split; [now exists x, x'|].
  destruct (Nat.le_gt_cases (categoryIndex r ratios) (categoryIndex r' ratios))
    as [Le|Gt]; [exact Le|].
  pose proof (Before _ x' Gt N') as C.
  rewrite (le_lt_trans r r' x' Lr L') in C. discriminate.
Qed.

Section TripsMore.

Context `{Imports} `{RandomSource} {arithmetic : Rounding}.

(** X12: [getPathTrips] reads the draws in order, three for every particle
    of a flow with shares (speed, start, category) and two for every
    particle of a flow without (which gets no trip): when it returns, the
    cursor has moved by that many draws. *)
Theorem getPathTrips_draws (path : Path.t) (flow : Flow.t) (p : TripsParams)
    (s s' : nat) (trips : list (Trip.t Category)) :
  getPathTrips path flow p s = Returns trips s' ->
  exists k,
    trip_count (numParticles flow p) = Some k
    /\ match Flow.valuesRatiosByFoodGroup flow with
       | Some _ => List.length trips = k /\ s' = (s + 3 * k)%nat
       | None => trips = [] /\ s' = (s + 2 * k)%nat
       end.
Proof.
  intros E.
  destruct (trip_count (numParticles flow p)) as [k|] eqn:Hk.
  2:{ unfold getPathTrips, for_lt in E. rewrite Hk in E. discriminate. }
  exists k. split; [reflexivity|].
  destruct (Flow.valuesRatiosByFoodGroup flow) as [ratios|] eqn:Hratios.
  - rewrite (getPathTrips_shares path flow p ratios k s Hratios Hk) in E.
    destruct (those _) as [ts|] eqn:T; [|discriminate].
    injection E as <- <-. split; [|reflexivity].
    apply those_length in T. now rewrite T, length_map, length_seq.
  - rewrite (getPathTrips_no_shares path flow p k s Hratios Hk) in E.
    injection E as <- <-. now split.
Qed.

(** X13: every trip [getPathTrips] returns has one waypoint per coordinate
    of the path, at that coordinate and in the order of the path, whatever
    the distances and the timing. *)
Theorem getPathTrips_waypoints_follow_path (path : Path.t) (flow : Flow.t)
    (p : TripsParams) (s s' : nat) (trips : list (Trip.t Category)) :
  getPathTrips path flow p s = Returns trips s' ->
  Forall (fun t =>
            map Waypoint.coordinates (Trip.waypoints t) = Path.coordinates path)
         trips.
Proof.
  intros E. apply Forall_forall. intros t Ht.
  apply In_nth_error in Ht. destruct Ht as (i & Ni).
  destruct (getPathTrips_returned path flow p s s' trips E) as (k & _ & R).
  destruct (Flow.valuesRatiosByFoodGroup flow) as [ratios|];
    [|subst trips; now destruct i].
  destruct R as (_ & R). specialize (R i t Ni). unfold tripAt in R.
  destruct (nth_error CATEGORIES _); [|discriminate].
  injection R as <-. cbn [Trip.waypoints]. unfold tripWaypoints.
  rewrite waypointsAccumulator_closed_form, map_map. cbn [Waypoint.coordinates].
  apply map_snd_combine_seq.
Qed.

(** Whatever [getPathTrips] returns under a cap that is an integer and
    not negative has at most that many trips, and none for a flow without
    shares. *)
Lemma getPathTrips_bounded (path : Path.t) (flow : Flow.t) (p : TripsParams)
    (s s' : nat) (trips : list (Trip.t Category)) (z : Z) :
  maxParticles p = lit z -> (0 <= z)%Z ->
  getPathTrips path flow p s = Returns trips s' ->
  (List.length trips <= Z.to_nat z)%nat
  /\ (Flow.valuesRatiosByFoodGroup flow = None -> trips = []).
Proof.
  intros Hcap Hz E.
  destruct (getPathTrips_returned path flow p s s' trips E) as (k & Hk & R).
  destruct (min_integer_count
              (Flow.value flow * numParticlesMultiplicator p)%js z Hz)
    as (k' & Hk' & Lk).
  rewrite <- Hcap in Hk'. fold (numParticles flow p) in Hk'.
  rewrite Hk in Hk'. injection Hk' as <-.
  destruct (Flow.valuesRatiosByFoodGroup flow).
  - destruct R as (<- & _). split; [lia|discriminate].
  - subst trips. split; [cbn; lia|reflexivity].
Qed.

(** X16: the trips of a flow are those of its paths, one path after the
    other, and every path gets the same number of them: a flow with shares
    that [CATEGORIES] covers gets [numParticles] trips (rounded up) for each
    of its paths, at three draws a trip; a flow without shares gets none,
    at two draws a particle and path. *)
Theorem flowTrips_count (params : TripsParams) (l : Flow.t)
    (paths : list Path.t) (s k : nat) :
  trip_count (numParticles l params) = Some k ->
  (Flow.valuesRatiosByFoodGroup l = None ->
   flowTrips params l paths s = Returns [] (s + 2 * k * List.length paths))
  /\ (forall ratios,
         Flow.valuesRatiosByFoodGroup l = Some ratios ->
         (0 < List.length CATEGORIES)%nat ->
         (List.length ratios <= List.length CATEGORIES)%nat ->
         exists trips,
           flowTrips params l paths s
           = Returns trips (s + 3 * k * List.length paths)
           /\ List.length trips = (List.length paths * k)%nat).
Proof.
  intros Hk. unfold flowTrips, bind. split.
  - intros Hnone.
    assert (forall s0, mapM (fun p => getPathTrips p l params) paths s0
                       = Returns (map (fun _ => []) paths)
                                 (s0 + 2 * k * List.length paths)) as G.
    { induction paths as [|p paths IH]; intros s0.
      - cbn. unfold ret. f_equal. lia.
      - cbn [mapM map]. unfold bind.
        rewrite (getPathTrips_no_shares p l params k s0 Hnone Hk), IH.
        unfold ret. f_equal. cbn [List.length]. lia. }
    rewrite G. unfold ret. f_equal.
    clear G. induction paths as [|p paths IH]; [reflexivity|exact IH].
  - intros ratios Hratios Hne Hlen.
    assert (forall s0, exists tss,
               mapM (fun p => getPathTrips p l params) paths s0
               = Returns tss (s0 + 3 * k * List.length paths)
               /\ List.length (List.concat tss) = (List.length paths * k)%nat) as G.
    { induction paths as [|p paths IH]; intros s0.
      - exists []. cbn. unfold ret. split; [f_equal; lia|reflexivity].
      - destruct (getPathTrips_returns p l params ratios k s0 Hratios Hk Hne Hlen)
          as (ts & E & L).
        destruct (IH (s0 + 3 * k)%nat) as (tss & E' & L').
        exists (ts :: tss). cbn [mapM]. unfold bind. rewrite E, E'.
        unfold ret. split; [f_equal; cbn [List.length]; lia|].
        cbn [List.concat List.length]. rewrite length_app, L, L'. lia. }
    destruct (G s) as (tss & E & L). rewrite E.
    exists (List.concat tss). now split.
Qed.

(** X17: whatever [useFlowsWithTrips] returns keeps the flows with the
    paths of the mode in force, the road paths when [roads] is set and the
    curved paths otherwise, one entry each in their order, and passes the
    multiplicator of that mode to [getPathTrips].  Under a cap that is an
    integer and not negative a flow has at most that many trips for each of
    its paths, and a flow without shares has none. *)
Theorem useFlowsWithTrips_entries
    (flowsWithCurvedPaths flowsWithRoadPaths : list (Flow.t * list Path.t))
    (params : Controls.t) (roads : bool) (s s' : nat)
    (result : list (Flow.t * list Path.t * list (Trip.t Category))) (z : Z) :
  Controls.maxParticles params = lit z -> (0 <= z)%Z ->
  useFlowsWithTrips flowsWithCurvedPaths flowsWithRoadPaths params roads s
  = Returns result s' ->
  map fst result = (if roads then flowsWithRoadPaths else flowsWithCurvedPaths)
  /\ numParticlesMultiplicator (tripsParams roads params)
     = (if roads then Controls.numParticlesRoadsMultiplicator params
        else Controls.numParticlesCurvedPathsMultiplicator params)
  /\ Forall (fun entry =>
               let '(l, paths, trips) := entry in
               (List.length trips <= List.length paths * Z.to_nat z)%nat
               /\ (Flow.valuesRatiosByFoodGroup l = None -> trips = []))
            result.
Proof.
  intros Hcap Hz E. unfold useFlowsWithTrips in E.
  apply (mapM_Forall2 _
           (fun l entry =>
              fst entry = l
              /\ (List.length (snd entry)
                  <= List.length (snd l) * Z.to_nat z)%nat
              /\ (Flow.valuesRatiosByFoodGroup (fst l) = None ->
                  snd entry = []))) in E.
  - split; [|split; [reflexivity|]].
    + clear s s'. induction E as [|l entry ls result (F & _) _ IH];
        [reflexivity|]. cbn. now rewrite F, IH.
    + clear s s'. induction E as [|l entry ls result (F & B & N) _ IH];
        constructor; [|exact IH].
      destruct entry as [[l' paths] trips]. cbn in F. subst l.
      cbn in B, N. now split.
  - intros [l paths] s0 entry s1 B. unfold bind, flowTrips in B. cbn [fst snd] in B.
    unfold bind in B.
    destruct (mapM _ paths s0) as [tss s2| |] eqn:Mp; try discriminate.
    injection B as <- _. cbn [fst snd]. split; [reflexivity|].
    apply (mapM_Forall2 _
             (fun (_ : Path.t) ts =>
                (List.length ts <= Z.to_nat z)%nat
                /\ (Flow.valuesRatiosByFoodGroup l = None -> ts = []))) in Mp.
    + clear s0 s2. induction Mp as [|p ts paths tss (B & N) _ (IH1 & IH2)].
      * split; [cbn; lia|reflexivity].
      * cbn [List.concat List.length]. rewrite length_app. split; [lia|].
        intros Hnone. now rewrite (N Hnone), (IH2 Hnone).
    + intros p s3 ts s4 G.
      now apply (getPathTrips_bounded p l (tripsParams roads params) s3 s4 ts z).
Qed.

End TripsMore.

(** *** When a particle starts and how fast it goes, under rounding *)

Section ParticleTiming.

Context `{Imports} `{RandomSource}.
Context {arithmetic : Rounding} {lawful : Lawful arithmetic}.

Local Open Scope Q_scope.

(** What lies between two finite numbers is finite. *)
Lemma between_finite (a b : Q) (x : number) :
  JS.le (Num a) x = true -> JS.le x (Num b) = true ->
  exists q, x = Num q /\ a <= q /\ q <= b.
Proof.
  destruct x as [q| | |]; cbn [JS.le]; try discriminate.
  intros L1 L2. apply Qle_bool_iff in L1, L2. now exists q.
Qed.

(** A product by a factor that is not negative stays within the products
    of the bounds. *)
Lemma mul_within (a x c : Q) :
  - a <= x -> x <= a -> 0 <= c ->
  JS.le (- (Num a * Num c))%js (Num x * Num c)%js = true
  /\ JS.le (Num x * Num c)%js (Num a * Num c)%js = true.
Proof.
  intros L1 L2 Lc. cbn [JS.mul]. rewrite <- rnd_opp. split; apply rnd_le.
  - setoid_replace (- (a * c)) with (- a * c) by ring.
    now apply Qmult_le_compat_r.
  - now apply Qmult_le_compat_r.
Qed.

(** [(Math.random() - 0.5) * 2] lies between -1 and 1. *)
Lemma humanize_factor (r : Q) :
  0 <= r -> r < 1 ->
  exists c, ((Num r - half) * lit 2)%js = Num c /\ - (1) <= c /\ c <= 1.
Proof.
  intros Lr0 Lr1. unfold half, JS.sub. cbn [JS.neg JS.add].
  destruct (between_finite (- (1 # 2)) (1 # 2) (rnd (r + - (1 # 2))))
    as (x & Ex & Lx0 & Lx1).
  { change (Num (- (1 # 2))) with (JS.neg (Num (1 # 2))).
    rewrite <- rnd_half, <- rnd_opp. apply rnd_le. lra. }
  { rewrite <- rnd_half. apply rnd_le. lra. }
  rewrite Ex. unfold lit, JS.of_Z. cbn [JS.mul].
  destruct (between_finite (- (1)) 1 (rnd (x * inject_Z 2)))
    as (c & Ec & Lc0 & Lc1).
  { change (Num (- (1))) with (JS.neg (Num 1)).
    rewrite <- rnd_one, <- rnd_opp. apply rnd_le.
    change (inject_Z 2) with 2. lra. }
  { rewrite <- rnd_one. apply rnd_le. change (inject_Z 2) with 2. lra. }
  now exists c.
Qed.

(** A quotient that is finite is a number of the arithmetic. *)
Lemma div_value (a b : number) (q : Q) : (a / b)%js = Num q -> rnd q = Num q.
Proof.
  destruct a as [x| | |], b as [y| | |]; cbn [JS.div]; try discriminate.
  - destruct (JS.sign y).
    + destruct (JS.sign x); discriminate.
    + apply rnd_fixed.
    + apply rnd_fixed.
  - intros [= <-]. apply rnd_zero.
  - intros [= <-]. apply rnd_zero.
  - destruct (JS.sign y); discriminate.
  - destruct (JS.sign y); discriminate.
Qed.

(** The humanisation [(Math.random() - 0.5) * 2 * x * h] of a finite [x]
    that is a number of the arithmetic and is not negative, by an [h] that
    is not negative, as long as [x * h] is finite: it lies within [x * h]
    of zero, and it is zero when [h] is. *)
Lemma humanize_within (x h r e : Q) :
  0 <= x -> rnd x = Num x -> 0 <= h -> (Num x * Num h)%js = Num e ->
  0 <= r -> r < 1 ->
  exists w, ((Num r - half) * lit 2 * Num x * Num h)%js = Num w
            /\ - e <= w /\ w <= e /\ (h == 0 -> w = 0).
Proof.
  intros Lx Fx Lh Ee Lr0 Lr1.
  destruct (humanize_factor r Lr0 Lr1) as (c & -> & Lc0 & Lc1).
  destruct (between_finite (- x) x (Num c * Num x)%js) as (y & Ey & Ly0 & Ly1).
  { cbn [JS.mul]. change (Num (- x)) with (JS.neg (Num x)).
    rewrite <- Fx, <- rnd_opp. apply rnd_le. nra. }
  { cbn [JS.mul]. rewrite <- Fx. apply rnd_le. nra. }
  rewrite Ey. destruct (mul_within x y h Ly0 Ly1 Lh) as (B0 & B1).
  rewrite Ee in B0, B1. cbn [JS.neg] in B0.
  destruct (between_finite _ _ _ B0 B1) as (w & Ew & Lw0 & Lw1).
  exists w. repeat split; try assumption.
  intros Z0. cbn [JS.mul] in Ew. rewrite (rnd_eq (y * h) 0) in Ew.
  - rewrite rnd_zero in Ew. congruence.
  - rewrite Z0. ring.
Qed.

(** A finite number moved by what lies within [e] of zero lies within [e]
    of it, as the arithmetic adds and subtracts. *)
Lemma add_within (b : number) (w e : Q) :
  b <> NaN -> - e <= w -> w <= e ->
  JS.le (b - Num e)%js (b + Num w)%js = true
  /\ JS.le (b + Num w)%js (b + Num e)%js = true.
Proof.
  intros N L0 L1. unfold JS.sub. cbn [JS.neg].
  destruct b as [q| | |]; cbn [JS.add JS.le]; try contradiction;
    try (split; reflexivity).
  split; apply rnd_le; lra.
Qed.

(** X14: the start of particle [i], in the arithmetic of the source (any
    rounding that is [Lawful], as that of binary64 is).  For an interval
    [(toTimeStamp - fromTimestamp) / numParticles] that is finite and not
    negative, a humanisation [h] of it that is not negative with
    [interval * h] finite, a regular start [fromTimestamp + i * interval]
    that is not [NaN] and a draw in [[0, 1)]: the start lies between the
    regular start less [interval * h] and the regular start plus
    [interval * h], each as the code's arithmetic computes it; and it is
    the regular start, whatever the draw, when [h] is 0 and the regular
    start is finite. *)
Theorem timestampStart_window (flow : Flow.t) (p : TripsParams) (i : nat)
    (I h r : Q) :
  interval flow p = Num I -> 0 <= I ->
  intervalHumanize p = Num h -> 0 <= h ->
  JS.is_finite (interval flow p * intervalHumanize p) = true ->
  (fromTimestamp p + JS.of_nat i * interval flow p)%js <> NaN ->
  0 <= r -> r < 1 ->
  let regular := (fromTimestamp p + JS.of_nat i * interval flow p)%js in
  let spread := (interval flow p * intervalHumanize p)%js in
  JS.le (regular - spread)%js (timestampStart flow p i (Num r)) = true
  /\ JS.le (timestampStart flow p i (Num r)) (regular + spread)%js = true
  /\ (h == 0 -> JS.is_finite regular = true ->
      timestampStart flow p i (Num r) = regular).
Proof.
  intros HI LI Hh Lh Fe N Lr0 Lr1. cbv zeta. unfold timestampStart.
  pose proof (div_value _ _ _ HI) as FI.
  rewrite HI, Hh in *.
  destruct (Num I * Num h)%js as [e| | |] eqn:Ee; try discriminate.
  destruct (humanize_within I h r e LI FI Lh Ee Lr0 Lr1)
    as (w & -> & Lw0 & Lw1 & Z).
  destruct (add_within _ w e N Lw0 Lw1) as (B0 & B1).
  split; [exact B0|]. split; [exact B1|].
  intros Z0 Fb. rewrite (Z Z0).
  destruct (fromTimestamp p + JS.of_nat i * Num I)%js as [b| | |] eqn:Eb;
    try discriminate.
  apply add_Num_inv in Eb. destruct Eb as (x & y & _ & _ & Eb).
  cbn [JS.add]. rewrite (rnd_eq (b + 0) b) by ring.
  exact (rnd_fixed _ _ Eb).
Qed.

(** X15: the speed of a particle, in the arithmetic of the source (any
    rounding that is [Lawful], as that of binary64 is).  For a speed that
    is a number of the arithmetic and is not negative, a humanisation [h]
    of it that is not negative with [speedKps * h] finite, and a draw in
    [[0, 1)]: the humanised speed lies between [speedKps - speedKps * h]
    and [speedKps + speedKps * h], each as the code's arithmetic computes
    it; it is not negative when [h] is at most 1; and when [h] is 0 it is
    [speedKps] whatever the draw, and a particle takes
    [totalDistance / speedKps]. *)
Theorem humanizedSpeedKps_window (path : Path.t) (p : TripsParams) (v h r : Q) :
  speedKps p = Num v -> 0 <= v -> rnd v = Num v ->
  speedKpsHumanize p = Num h -> 0 <= h ->
  JS.is_finite (speedKps p * speedKpsHumanize p) = true ->
  0 <= r -> r < 1 ->
  let spread := (speedKps p * speedKpsHumanize p)%js in
  JS.le (speedKps p - spread)%js (humanizedSpeedKps p (Num r)) = true
  /\ JS.le (humanizedSpeedKps p (Num r)) (speedKps p + spread)%js = true
  /\ (h <= 1 -> JS.le (lit 0) (humanizedSpeedKps p (Num r)) = true)
  /\ (h == 0 -> humanizedSpeedKps p (Num r) = speedKps p
                /\ baseDuration path p (Num r)
                   = (Path.totalDistance path / speedKps p)%js).
Proof.
  intros Hv Lv Fv Hh Lh Fe Lr0 Lr1. cbv zeta.
  unfold baseDuration, humanizedSpeedKps. rewrite Hv, Hh in *.
  destruct (Num v * Num h)%js as [e| | |] eqn:Ee; try discriminate.
  destruct (humanize_within v h r e Lv Fv Lh Ee Lr0 Lr1)
    as (w & -> & Lw0 & Lw1 & Z).
  destruct (add_within (Num v) w e) as (B0 & B1);
    [discriminate|assumption|assumption|].
  split; [exact B0|]. split; [exact B1|]. split.
  - intros L1. apply le_trans with (Num v - Num e)%js; [|exact B0].
    unfold lit, JS.of_Z, JS.sub. cbn [JS.neg JS.add].
    change (inject_Z 0) with 0. rewrite <- rnd_zero. apply rnd_le.
    assert (e <= v) as Le; [|lra].
    apply le_true_iff. rewrite <- Ee. cbn [JS.mul]. rewrite <- Fv.
    apply rnd_le. nra.
  - intros Z0. rewrite (Z Z0). cbn [JS.add].
    rewrite (rnd_eq (v + 0) v) by ring. rewrite Fv. now split.
Qed.

End ParticleTiming.

(** ** The selected county *)

(** X18: the county [selectedCountyAtom] gives is the first feature of the
    collection with the selected id, which is then not empty; it gives
    nothing exactly when the id is empty, the counties are not loaded, or no
    feature has the id. *)
Theorem selectedCountyAtom_found {Geometry : Type} (countyId : string)
    (counties : option (list (County.t Geometry))) :
  (forall county,
      selectedCountyAtom countyId counties = Some county ->
      County.geoid county = countyId /\ countyId <> EmptyString
      /\ exists before after,
           counties = Some (before ++ county :: after)
           /\ Forall (fun c => County.geoid c <> countyId) before)
  /\ (selectedCountyAtom countyId counties = None <->
      countyId = EmptyString \/ counties = None
      \/ exists features,
           counties = Some features
           /\ Forall (fun c => County.geoid c <> countyId) features).
Proof.
  unfold selectedCountyAtom, truthy. rewrite negb_involutive.
  destruct (String.eqb_spec countyId EmptyString) as [E|NE].
  { split; [discriminate|]. split; [now left|reflexivity]. }
  destruct counties as [features|].
  2:{ split; [discriminate|]. split; [now right; left|reflexivity]. }
  split.
  - intros county F. induction features as [|c features IH]; [discriminate|].
    cbn [find] in F. destruct (String.eqb_spec (County.geoid c) countyId) as [G|G].
    + injection F as <-. split; [exact G|]. split; [exact NE|].
      exists [], features. now split.
    + destruct (IH F) as (Hg & _ & before & after & Eq & Fa).
      split; [exact Hg|]. split; [exact NE|].
      injection Eq as ->. exists (c :: before), after. split; [reflexivity|].
      now constructor.
  - split.
    + intros F. right; right. exists features. split; [reflexivity|].
      induction features as [|c features IH]; [constructor|].
      cbn [find] in F. destruct (String.eqb_spec (County.geoid c) countyId) as [G|G];
        [discriminate|]. constructor; [exact G|now apply IH].
    + intros [E|[E|(fs & E & Fa)]]; [contradiction|discriminate|].
      injection E as <-. induction Fa as [|c features G _ IH]; [reflexivity|].
      cbn [find]. now destruct (String.eqb_spec (County.geoid c) countyId).
Qed.

Section SelectedFlows.

Context `{Imports} {arithmetic : Rounding}.

(** X19: [useFlows] over the county [selectedCountyAtom] selects.  Every
    flow it gives has the selected id at the end the flow type names, the
    target for ["consumer"] and the source otherwise, and the centroid of a
    county of the collection with that id at the same end; without an id, or
    with an id no county has, there is no flow. *)
Theorem useFlows_of_selected_county {Geometry : Type}
    (centroid : County.t Geometry -> Position) (countyId : string)
    (counties : option (list (County.t Geometry)))
    (flowsData : option (list (Raw.t FlowsByCrop FlowsByCropGroup)))
    (flowType : string) (maxTargetCounties : number) :
  let flows :=
    useFlows (selectedInput centroid (selectedCountyAtom countyId counties))
             (option_map (fun _ => tt) counties) flowsData flowType
             maxTargetCounties in
  (selectedCountyAtom countyId counties = None -> flows = [])
  /\ Forall (fun flow =>
               exists county features,
                 counties = Some features /\ In county features
                 /\ County.geoid county = countyId
                 /\ if String.eqb flowType "consumer"
                    then Flow.targetId flow = countyId
                         /\ Flow.target flow = centroid county
                    else Flow.sourceId flow = countyId
                         /\ Flow.source flow = centroid county)
            flows.
Proof.
  cbn zeta. split.
  - intros ->. reflexivity.
  - destruct (selectedCountyAtom countyId counties) as [county|] eqn:Sel;
      [|constructor].
    unfold selectedCountyAtom in Sel.
    destruct (negb (truthy countyId)); [discriminate|].
    destruct counties as [features|]; [|discriminate].
    apply find_some in Sel. destruct Sel as (Hfeature & G).
    apply String.eqb_eq in G.
    cbn [selectedInput option_map useFlows].
    destruct flowsData as [raws|]; [|constructor].
    apply Forall_forall. intros flow Hin. apply in_map_iff in Hin.
    destruct Hin as (raw & <- & _).
    exists county, features.
    split; [reflexivity|]. split; [exact Hfeature|]. split; [exact G|].
    unfold useFlows_record. cbn [Flow.targetId Flow.target Flow.sourceId Flow.source].
    rewrite G. now destruct (String.eqb flowType "consumer").
Qed.

End SelectedFlows.

(** ** The style of the map *)

Lemma lookup_assign_same {V : Type} (k : string) (v : V) (o : list (string * V)) :
  MapStyle.lookup k (MapStyle.assign k v o) = Some v.
Proof.
  induction o as [|[k' v'] o IH]; cbn [MapStyle.assign MapStyle.lookup].
  - now rewrite String.eqb_refl.
  - destruct (String.eqb k' k) eqn:E; cbn [MapStyle.lookup]; rewrite ?E;
      [now rewrite String.eqb_refl|exact IH].
Qed.

Lemma lookup_assign_other {V : Type} (k k' : string) (v : V)
    (o : list (string * V)) :
  k' <> k -> MapStyle.lookup k' (MapStyle.assign k v o) = MapStyle.lookup k' o.
Proof.
  intros NE. induction o as [|[k0 v0] o IH]; cbn [MapStyle.assign MapStyle.lookup].
  - destruct (String.eqb_spec k k'); [congruence|reflexivity].
  - destruct (String.eqb_spec k0 k) as [->|N0]; cbn [MapStyle.lookup].
    + destruct (String.eqb_spec k k'); [congruence|reflexivity].
    + now rewrite IH.
Qed.

Lemma lookup_initial {S : Type} (k : string) (o : list (string * S)) :
  MapStyle.lookup k (map (fun kv => (fst kv, MapStyle.InitialSource (snd kv))) o)
  = option_map MapStyle.InitialSource (MapStyle.lookup k o).
Proof.
  induction o as [|[k' v'] o IH]; [reflexivity|].
  cbn [map MapStyle.lookup fst snd]. now destruct (String.eqb k' k).
Qed.

(** [o[k] = v] keeps the keys of [o] where they stand, and adds [k] last
    when it is new. *)
Lemma assign_keys {V : Type} (k : string) (v : V) (o : list (string * V)) :
  map fst (MapStyle.assign k v o)
  = if existsb (String.eqb k) (map fst o) then map fst o else map fst o ++ [k].
Proof.
  induction o as [|[k' v'] o IH]; [reflexivity|].
  cbn [MapStyle.assign map fst existsb].
  rewrite (String.eqb_sym k k').
  destruct (String.eqb_spec k' k) as [->|NE]; [reflexivity|].
  cbn [map fst orb]. rewrite IH.
  now destruct (existsb (String.eqb k) (map fst o)).
Qed.

Section MapStyleProperties.

Context {S L R Stress : Type}.
Variable initialMapStyle : MapStyle.t S L R.
Variable flows : list Flow.t.
Variable colors : StressColors.

(** X20: the layers of the style.  [useMapStyle] keeps the layers of the
    initial style, first and in their order, and whatever else the style
    holds; after them come the layer ["cog-layer"] when a stress is
    selected, then the layer ["routes"] when the roads are shown, and
    nothing else.  Every layer it adds draws from a source the style it
    returns defines.  With no stress and no roads the style is the initial
    one. *)
Theorem useMapStyle_layers (roads : bool) (stress : option Stress) :
  let style := useMapStyle initialMapStyle flows roads stress colors in
  MapStyle.rest style = MapStyle.rest initialMapStyle
  /\ (exists added,
         MapStyle.layers style
         = map MapStyle.InitialLayer (MapStyle.layers initialMapStyle) ++ added
         /\ map MapStyle.added_id added
            = match stress with
              | Some _ => [Some "cog-layer"%string]
              | None => []
              end
              ++ (if roads then [Some "routes"%string] else []))
  /\ Forall (fun layer =>
               forall key, MapStyle.added_source layer = Some key ->
                           MapStyle.lookup key (MapStyle.sources style) <> None)
            (MapStyle.layers style)
  /\ (stress = None -> roads = false ->
      MapStyle.sources style
      = map (fun kv => (fst kv, MapStyle.InitialSource (snd kv)))
            (MapStyle.sources initialMapStyle)
      /\ MapStyle.layers style
         = map MapStyle.InitialLayer (MapStyle.layers initialMapStyle)).
Proof.
  cbn zeta. split; [now destruct stress, roads|]. split.
  { destruct stress, roads; cbn [useMapStyle MapStyle.layers].
    - eexists. rewrite <- app_assoc. split; reflexivity.
    - eexists. split; reflexivity.
    - eexists. split; reflexivity.
    - exists []. now rewrite app_nil_r. }
  split.
  - assert (forall (o : list (string * MapStyle.source S)),
               Forall (fun layer : MapStyle.layer L =>
                         forall key, MapStyle.added_source layer = Some key ->
                                     MapStyle.lookup key o <> None)
                      (map MapStyle.InitialLayer (MapStyle.layers initialMapStyle)))
      as Initial.
    { intros o. apply Forall_forall. intros layer Hin. apply in_map_iff in Hin.
      destruct Hin as (l & <- & _). discriminate. }
    destruct stress, roads; cbn [useMapStyle MapStyle.layers MapStyle.sources];
      repeat (apply Forall_app; split); try apply Initial;
      repeat constructor; intros key [= <-]; cbn [MapStyle.added_source];
      rewrite ?lookup_assign_same; try discriminate.
    rewrite lookup_assign_other by discriminate.
    rewrite lookup_assign_same. discriminate.
  - intros -> ->. split; reflexivity.
Qed.

(** X21: the sources of the style.  Under the key ["stress"] stands the
    raster of the tiles when a stress is selected, and under ["routes"],
    when the roads are shown, the routes of the flows that have one, in the
    order of the flows; a source of the initial style under one of these
    keys is replaced then.  Every other key keeps the source of the initial
    style, and the keys of the initial style keep their order. *)
Theorem useMapStyle_sources (roads : bool) (stress : option Stress) :
  let style := useMapStyle initialMapStyle flows roads stress colors in
  let initial key :=
    option_map MapStyle.InitialSource
               (MapStyle.lookup key (MapStyle.sources initialMapStyle)) in
  (forall key, key <> "stress"%string -> key <> "routes"%string ->
               MapStyle.lookup key (MapStyle.sources style) = initial key)
  /\ (exists tiles,
         MapStyle.lookup "stress" (MapStyle.sources style)
         = match stress with
           | Some _ => Some (MapStyle.Raster tiles (lit 256) "tms")
           | None => initial "stress"%string
           end)
  /\ (exists routes,
         MapStyle.lookup "routes" (MapStyle.sources style)
         = (if roads then Some (MapStyle.GeoJSON routes)
            else initial "routes"%string)
         /\ map Some routes
            = filter (fun route => match route with Some _ => true | None => false end)
                     (map Flow.routeGeometry flows))
  /\ (exists added,
         map fst (MapStyle.sources style)
         = map fst (MapStyle.sources initialMapStyle) ++ added).
Proof.
  cbn zeta. split; [|split; [|split]].
  - intros key N1 N2.
    destruct stress, roads; cbn [useMapStyle MapStyle.sources];
      rewrite ?lookup_assign_other by congruence; apply lookup_initial.
  - eexists.
    destruct stress, roads; cbn [useMapStyle MapStyle.sources];
      rewrite ?(lookup_assign_other "routes" "stress") by discriminate;
      rewrite ?lookup_assign_same; try reflexivity; apply lookup_initial.
  - eexists. split.
    + destruct stress, roads; cbn [useMapStyle MapStyle.sources];
        rewrite ?lookup_assign_same; try reflexivity;
        rewrite ?(lookup_assign_other "stress" "routes") by discriminate;
        apply lookup_initial.
    + induction flows as [|flow fs IH]; [reflexivity|].
      cbn [flat_map map filter].
      destruct (Flow.routeGeometry flow); cbn [app map]; now rewrite IH.
  - assert (forall (k : string) (v : MapStyle.source S)
                   (o : list (string * MapStyle.source S)),
               exists added, map fst (MapStyle.assign k v o) = map fst o ++ added)
      as Keys.
    { intros k v o. rewrite assign_keys.
      destruct (existsb _ _); [exists []; now rewrite app_nil_r|now exists [k]]. }
    assert (map fst (map (fun kv : string * S =>
                            (fst kv, MapStyle.InitialSource (snd kv)))
                         (MapStyle.sources initialMapStyle))
            = map fst (MapStyle.sources initialMapStyle)) as Same.
    { rewrite map_map. reflexivity. }
    destruct stress, roads; cbn [useMapStyle MapStyle.sources].
    + destruct (Keys "routes"%string
                  (MapStyle.GeoJSON
                     (flat_map (fun flow => match Flow.routeGeometry flow with
                                            | Some coordinates => [coordinates]
                                            | None => []
                                            end) flows))
                  (MapStyle.assign "stress"
                     (MapStyle.Raster
                        ["https://food-system-digital-twin-public.s3.us-east-2.amazonaws.com/tiles/{z}/{x}/{y}.png"%string]
                        (lit 256) "tms")
                     (map (fun kv => (fst kv, MapStyle.InitialSource (snd kv)))
                          (MapStyle.sources initialMapStyle)))) as (a2 & E2).
      destruct (Keys "stress"%string
                  (MapStyle.Raster
                     ["https://food-system-digital-twin-public.s3.us-east-2.amazonaws.com/tiles/{z}/{x}/{y}.png"%string]
                     (lit 256) "tms")
                  (map (fun kv => (fst kv, MapStyle.InitialSource (snd kv)))
                       (MapStyle.sources initialMapStyle))) as (a1 & E1).
      exists (a1 ++ a2). rewrite E2, E1, Same. now rewrite app_assoc.
    + destruct (Keys "stress"%string
                  (MapStyle.Raster
                     ["https://food-system-digital-twin-public.s3.us-east-2.amazonaws.com/tiles/{z}/{x}/{y}.png"%string]
                     (lit 256) "tms")
                  (map (fun kv => (fst kv, MapStyle.InitialSource (snd kv)))
                       (MapStyle.sources initialMapStyle))) as (a1 & E1).
      exists a1. now rewrite E1, Same.
    + destruct (Keys "routes"%string
                  (MapStyle.GeoJSON
                     (flat_map (fun flow => match Flow.routeGeometry flow with
                                            | Some coordinates => [coordinates]
                                            | None => []
                                            end) flows))
                  (map (fun kv => (fst kv, MapStyle.InitialSource (snd kv)))
                       (MapStyle.sources initialMapStyle))) as (a1 & E1).
      exists a1. now rewrite E1, Same.
    + exists []. now rewrite Same, app_nil_r.
Qed.

End MapStyleProperties.

(** ** The adverse conditions of the API *)

(** [Math.round] keeps the order. *)
Lemma round_monotone (p q : Q) :
  p <= q -> JS.le (Math.round (Num p)) (Math.round (Num q)) = true.
Proof.
  intros L. unfold Math.round. apply le_lit_iff. apply Qfloor_resp_le. lra.
Qed.


Section AdverseConditions.

Context `{RandomSource} {arithmetic : Rounding} {Columns : Type}.

(** X23: the rows of the answer.  [outboundsWithAdverseConditions] returns
    for any rows, one entry for each row and in their order, each keeping
    its row; it reads two draws for each row, the first for the drought and
    the second for the heat stress. *)
Theorem outboundsWithAdverseConditions_rows (outbound : list (Api.row Columns))
    (s : nat) :
  exists result,
    Api.outboundsWithAdverseConditions outbound s
    = Returns result (s + 2 * List.length outbound)
    /\ map Api.flow result = outbound
    /\ forall i entry,
         nth_error result i = Some entry ->
         Api.value_drought entry
         = Api.adverseValue (Api.value (Api.flow entry)) (Num (draw (s + 2 * i)))
         /\ Api.value_heat_stress entry
            = Api.adverseValue (Api.value (Api.flow entry))
                               (Num (draw (s + 2 * i + 1))).
Proof.
  unfold Api.outboundsWithAdverseConditions.
  set (body := fun f : Api.row Columns => _).
  assert (forall f s0,
             body f s0
             = Returns {| Api.flow := f;
                          Api.value_drought :=
                            Api.adverseValue (Api.value f) (Num (draw s0));
                          Api.value_heat_stress :=
                            Api.adverseValue (Api.value f)
                                             (Num (draw (Datatypes.S s0))) |}
                       (Datatypes.S (Datatypes.S s0))) as B by reflexivity.
  revert s. induction outbound as [|f outbound IH]; intros s.
  - exists []. split; [cbn; unfold ret; f_equal; lia|]. split; [reflexivity|].
    intros [|i] entry E; discriminate.
  - destruct (IH (Datatypes.S (Datatypes.S s))) as (result & E & F & D).
    eexists. cbn [mapM]. unfold bind. rewrite B, E. unfold ret. split.
    { f_equal. cbn [List.length]. lia. }
    split; [cbn [map Api.flow]; now rewrite F|].
    intros [|i] entry Ei.
    + injection Ei as <-. cbn [Api.value_drought Api.value_heat_stress Api.flow].
      now rewrite Nat.add_0_r, Nat.add_1_r.
    + cbn [nth_error] in Ei. destruct (D i entry Ei) as (Dd & Dh).
      rewrite Dd, Dh.
      replace (s + 2 * Datatypes.S i)%nat
        with (Datatypes.S (Datatypes.S s) + 2 * i)%nat by lia.
      now split.
Qed.

End AdverseConditions.

(** ** When the trips fail *)

Section TripErrors.

Context `{Imports} `{RandomSource} {arithmetic : Rounding}.

(** The guard of a counting loop that holds at an index holds at the
    indices before it. *)
Lemma guard_before (i j : nat) (n : number) :
  (j <= i)%nat -> (JS.of_nat i <? n)%js = true -> (JS.of_nat j <? n)%js = true.
Proof.
  intros L. rewrite !guard_trip_count. destruct (trip_count n); [lia|tauto].
Qed.

(** One iteration of [getPathTrips]: two draws and no trip for a flow
    without shares; three draws and the trip of [tripAt] for a flow with
    shares, or a [TypeError] when there is none. *)
Lemma particle_step (path : Path.t) (flow : Flow.t) (p : TripsParams)
    (i : nat) (trips : list (Trip.t Category)) (s : nat) :
  particle path flow p i trips s
  = match Flow.valuesRatiosByFoodGroup flow with
    | None => Returns trips (s + 2)
    | Some ratios =>
        match tripAt path flow p ratios i s with
        | Some t => Returns (trips ++ [t]) (s + 3)
        | None => Throws "TypeError"
        end
    end.
Proof.
  unfold particle, bind, Math.random, tripAt, categoryColor, ret.
  replace (s + 3)%nat with (S (S (S s))) by lia.
  replace (s + 2)%nat with (S (S s)) by lia.
  destruct (Flow.valuesRatiosByFoodGroup flow) as [ratios|]; [|reflexivity].
  destruct (nth_error CATEGORIES _); reflexivity.
Qed.

(** The loop of [getPathTrips] from the index [i0] on throws exactly when
    some particle within the fuel and below the bound draws a category
    index without an entry in [CATEGORIES], the particles before it having
    drawn one with an entry. *)
Lemma particles_throw (path : Path.t) (flow : Flow.t) (p : TripsParams)
    (e : string) (fuel : nat) :
  forall (i0 : nat) (acc : list (Trip.t Category)) (s0 : nat),
    for_lt_guarded fuel i0 (numParticles flow p) (particle path flow p) acc s0
    = Throws e
    <-> e = "TypeError"%string
        /\ exists ratios i,
             Flow.valuesRatiosByFoodGroup flow = Some ratios
             /\ (i0 <= i < i0 + fuel)%nat
             /\ (JS.of_nat i <? numParticles flow p)%js = true
             /\ nth_error CATEGORIES
                  (categoryIndex (Num (draw (s0 + 3 * (i - i0) + 2))) ratios)
                = None
             /\ forall j, (i0 <= j < i)%nat ->
                  nth_error CATEGORIES
                    (categoryIndex (Num (draw (s0 + 3 * (j - i0) + 2))) ratios)
                  <> None.
Proof.
  induction fuel as [|fuel IH]; intros i0 acc s0.
  - cbn [for_lt_guarded]. split; [discriminate|].
    intros (_ & ratios & i & _ & L & _). lia.
  - cbn [for_lt_guarded].
    destruct (JS.of_nat i0 <? numParticles flow p)%js eqn:G.
    2:{ split; [discriminate|].
        intros (_ & ratios & i & _ & L & Gi & _).
        rewrite (guard_before i i0 _ (proj1 L) Gi) in G. discriminate. }
    unfold bind. rewrite particle_step.
    destruct (Flow.valuesRatiosByFoodGroup flow) as [ratios|] eqn:Hratios.
    2:{ rewrite IH. split.
        - intros (_ & ratios & _ & D & _). discriminate.
        - intros (_ & ratios & _ & D & _). discriminate. }
    unfold tripAt.
    replace (S (S s0)) with (s0 + 3 * (i0 - i0) + 2)%nat by lia.
    destruct (nth_error CATEGORIES
                (categoryIndex (Num (draw (s0 + 3 * (i0 - i0) + 2))) ratios))
      as [category|] eqn:C.
    + rewrite IH. split.
      * intros (-> & ratios' & i & [= <-] & L & Gi & N & B).
        split; [reflexivity|]. exists ratios, i.
        split; [reflexivity|]. split; [lia|]. split; [exact Gi|]. split.
        -- replace (s0 + 3 * (i - i0) + 2)%nat
             with (s0 + 3 + 3 * (i - S i0) + 2)%nat by lia. exact N.
        -- intros j Lj. destruct (Nat.eq_dec j i0) as [->|D].
           ++ rewrite C. discriminate.
           ++ replace (s0 + 3 * (j - i0) + 2)%nat
                with (s0 + 3 + 3 * (j - S i0) + 2)%nat by lia.
              apply B. lia.
      * intros (-> & ratios' & i & [= <-] & L & Gi & N & B).
        assert (i <> i0) as D by (intros ->; congruence).
        split; [reflexivity|]. exists ratios, i.
        split; [reflexivity|]. split; [lia|]. split; [exact Gi|]. split.
        -- replace (s0 + 3 + 3 * (i - S i0) + 2)%nat
             with (s0 + 3 * (i - i0) + 2)%nat by lia. exact N.
        -- intros j Lj.
           replace (s0 + 3 + 3 * (j - S i0) + 2)%nat
             with (s0 + 3 * (j - i0) + 2)%nat by lia.
           apply B. lia.
    + split.
      * intros [= <-]. split; [reflexivity|]. exists ratios, i0.
        split; [reflexivity|]. split; [lia|]. split; [exact G|].
        split; [exact C|]. intros j Lj. lia.
      * now intros (-> & _).
Qed.

(** X24: when [getPathTrips] throws.  The loop, driven by its guard (so
    also under the bound [Infinity]), throws within [fuel] tests of the
    guard exactly when the flow has shares and some particle [i] below the
    bound draws a category index that has no entry in [CATEGORIES], the
    particles before it having drawn one that has; the table is then empty
    or the flow has more shares than the table has categories.  What it
    throws is the [TypeError] of the read of [.color].  Under a finite bound
    and fuel for its tests this is the run of [getPathTrips]. *)
Theorem getPathTrips_throws (path : Path.t) (flow : Flow.t) (p : TripsParams)
    (fuel s : nat) (e : string) :
  (getPathTrips_guarded fuel path flow p s = Throws e
   <-> e = "TypeError"%string
       /\ exists ratios i,
            Flow.valuesRatiosByFoodGroup flow = Some ratios
            /\ (i < fuel)%nat
            /\ (JS.of_nat i <? numParticles flow p)%js = true
            /\ nth_error CATEGORIES
                 (categoryIndex (Num (draw (s + 3 * i + 2))) ratios) = None
            /\ (List.length CATEGORIES = 0%nat
                \/ (List.length CATEGORIES < List.length ratios)%nat)
            /\ forall j, (j < i)%nat ->
                 nth_error CATEGORIES
                   (categoryIndex (Num (draw (s + 3 * j + 2))) ratios)
                 <> None)
  /\ forall k, trip_count (numParticles flow p) = Some k -> (k < fuel)%nat ->
       getPathTrips_guarded fuel path flow p s = getPathTrips path flow p s.
Proof.
  split.
  - unfold getPathTrips_guarded. rewrite particles_throw. split.
    + intros (-> & ratios & i & Hratios & L & G & N & B).
      rewrite Nat.sub_0_r in N.
      split; [reflexivity|]. exists ratios, i.
      split; [exact Hratios|]. split; [lia|]. split; [exact G|].
      split; [exact N|]. split.
      * apply nth_error_None in N.
        destruct (categoryIndex_bound (Num (draw (s + 3 * i + 2))) ratios)
          as [Z|Bd]; [left|right]; lia.
      * intros j Lj. specialize (B j). rewrite Nat.sub_0_r in B.
        apply B. lia.
    + intros (-> & ratios & i & Hratios & L & G & N & _ & B).
      split; [reflexivity|]. exists ratios, i.
      split; [exact Hratios|]. split; [lia|]. split; [exact G|].
      rewrite Nat.sub_0_r. split; [exact N|].
      intros j Lj. rewrite Nat.sub_0_r. apply B. lia.
  - intros k Hk Lk. unfold getPathTrips_guarded, getPathTrips.
    now apply for_lt_guarded_enough with k.
Qed.

End TripErrors.

(** ** Runs on the sample setting *)

(** A run of X2: the record of county 21001 for the selected county 21137,
    read as a producer flow. *)
Lemma useFlows_record_flowType_witness :
  Flow.sourceId
    (useFlows_record "producer" (lit 0, lit 0) "21137" (Sample.record [] None None))
  = Flow.targetId
      (useFlows_record "consumer" (lit 0, lit 0) "21137"
         (Sample.record [] None None))
  /\ Flow.source
       (useFlows_record "producer" (lit 0, lit 0) "21137"
          (Sample.record [] None None))
     = Flow.target
         (useFlows_record "consumer" (lit 0, lit 0) "21137"
            (Sample.record [] None None)).
Proof.
  destruct (useFlows_record_flowType "producer" (lit 0, lit 0) "21137"
              (Sample.record [] None None)) as (A & _ & C & _);
    [discriminate|].
  split; [exact C|exact A].
Defined.

(** A run of X4: the route ["ab"] of county 21001, traced backward. *)
Lemma roadPathsOf_record_witness :
  exists path,
    roadPathsOf
      (useFlows_record "consumer" (lit 0, lit 0) "21137"
         (Sample.record [] (Some "ab"%string) (Some "backward"%string)))
    = [path]
    /\ Path.coordinates path = [(lit 1, lit 98); (lit 0, lit 97)].
Proof.
  destruct (roadPathsOf_record "consumer" (lit 0, lit 0) "21137"
              (Sample.record [] (Some "ab"%string) (Some "backward"%string)))
    as (path & E & _ & _ & C); [discriminate|].
  exists path. split; [exact E|].
  rewrite (C "ab"%string eq_refl); [reflexivity|discriminate].
Defined.

(** A run of X6: the two curved paths and the road path of the sample flow
    of value 2. *)
Lemma paths_carry_their_distances_witness :
  exists paths s',
    curvedPathsOf defaultPathsParams (Sample.flow (lit 2)) 0%nat
    = Returns paths s'
    /\ Forall (fun path =>
                 (Path.distances path, Path.totalDistance path)
                 = getDistances (Path.coordinates path))
              (paths ++ roadPathsOf (Sample.flow (lit 2))).
Proof.
  destruct (curvedPathsOf defaultPathsParams (Sample.flow (lit 2)) 0%nat)
    as [paths s'| |] eqn:E; try (vm_compute in E; discriminate).
  exists paths, s'. split; [reflexivity|].
  exact (paths_carry_their_distances (Sample.flow (lit 2)) defaultPathsParams
           0%nat s' paths E).
Defined.

(** A run of X7: the curved paths of the sample flow of value 2 run from A
    to B. *)
Lemma getCurvedPaths_endpoints_witness :
  exists paths s',
    getCurvedPaths (Sample.flow (lit 2)) defaultPathsParams 0%nat
    = Returns paths s'
    /\ Forall (fun path =>
                 exists waypoints,
                   Path.coordinates path
                   = (lit 0, lit 0) :: waypoints ++ [(lit 4, lit 0)])
              paths.
Proof.
  destruct (getCurvedPaths (Sample.flow (lit 2)) defaultPathsParams 0%nat)
    as [paths s'| |] eqn:E; try (vm_compute in E; discriminate).
  exists paths, s'. split; [reflexivity|].
  exact (getCurvedPaths_endpoints (Sample.flow (lit 2)) defaultPathsParams
           0%nat s' paths eq_refl E).
Defined.



(** A run of X11: on the shares 0.2, 0.5, 1 the sample 0.3 picks index 1
    and the larger sample 0.6 index 2. *)
Lemma categoryIndex_monotone_witness :
  (categoryIndex (Num (3 # 10)) [Num (2 # 10); Num (5 # 10); lit 1]
   <= categoryIndex (Num (6 # 10)) [Num (2 # 10); Num (5 # 10); lit 1])%nat.
Proof.
  apply (categoryIndex_monotone (Num (3 # 10)) (Num (6 # 10))
           [Num (2 # 10); Num (5 # 10); lit 1]); [reflexivity|].
  exists (lit 1). split; [right; right; now left|reflexivity].
Defined.

(** A run of X12 in binary64: the value of a flow of total 220000000 is the
    double nearest to 1.1; under a multiplicator of 100 the bound is
    110.00000000000001, and the 111 trips take 333 draws. *)
Lemma getPathTrips_draws_witness :
  exists trips s',
    @getPathTrips Sample.imports Sample.quarters binary64 Sample.straight_path
      (Scenario.flow_of_total binary64 [inject_Z 220000000])
      (Sample.particles (lit 100) (lit 500)) 0%nat = Returns trips s'
    /\ List.length trips = 111%nat /\ s' = 333%nat.
Proof.
  destruct (@getPathTrips Sample.imports Sample.quarters binary64
              Sample.straight_path
              (Scenario.flow_of_total binary64 [inject_Z 220000000])
              (Sample.particles (lit 100) (lit 500)) 0%nat)
    as [trips s'| |] eqn:E; try (vm_compute in E; discriminate).
  exists trips, s'. split; [reflexivity|].
  destruct (@getPathTrips_draws Sample.imports Sample.quarters binary64
              Sample.straight_path
              (Scenario.flow_of_total binary64 [inject_Z 220000000])
              (Sample.particles (lit 100) (lit 500)) 0%nat s' trips E)
    as (k & Hk & L & C).
  assert (k = 111%nat) as -> by (vm_compute in Hk; congruence).
  split; [exact L|exact C].
Defined.

(** A run of X13: the trips of the sample flow on the straight path visit A
    and then B. *)
Lemma getPathTrips_waypoints_follow_path_witness :
  exists trips s',
    getPathTrips Sample.straight_path (Sample.flow (lit 2)) defaultTripsParams
      0%nat = Returns trips s'
    /\ Forall (fun t =>
                 map Waypoint.coordinates (Trip.waypoints t)
                 = [(lit 0, lit 0); (lit 4, lit 0)])
              trips.
Proof.
  destruct (getPathTrips Sample.straight_path (Sample.flow (lit 2))
              defaultTripsParams 0%nat) as [trips s'| |] eqn:E;
    try (vm_compute in E; discriminate).
  exists trips, s'. split; [reflexivity|].
  exact (getPathTrips_waypoints_follow_path Sample.straight_path
           (Sample.flow (lit 2)) defaultTripsParams 0%nat s' trips E).
Defined.

(** A run of X14 in binary64: three particles over the window from 0 to
    100 are 33.333333333333336 apart; under a humanisation of a half and
    the draw 0 the first one starts at -16.666666666666668, which is the
    regular start 0 less the spread as the code computes it, and is
    earlier than 50/3 before 0. *)
Lemma timestampStart_window_witness :
  JS.le (@JS.sub binary64
           (@JS.add binary64 (lit 0)
              (@JS.mul binary64 (JS.of_nat 0)
                 (@interval binary64 (Sample.flow (lit 3)) defaultTripsParams)))
           (@JS.mul binary64
              (@interval binary64 (Sample.flow (lit 3)) defaultTripsParams)
              half))
        (@timestampStart binary64 (Sample.flow (lit 3)) defaultTripsParams 0
           (Num 0)) = true
  /\ JS.lt (@timestampStart binary64 (Sample.flow (lit 3)) defaultTripsParams 0
              (Num 0))
           (Num (- (50 # 3))) = true.
Proof.
  split; [|vm_compute; reflexivity].
  refine (proj1 (@timestampStart_window binary64 binary64_lawful
                   (Sample.flow (lit 3)) defaultTripsParams 0
                   (4691249611844267 # 140737488355328) (1 # 2) 0
                   _ _ _ _ _ _ _ _)).
  - vm_compute; reflexivity.
  - discriminate.
  - reflexivity.
  - discriminate.
  - vm_compute; reflexivity.
  - vm_compute; discriminate.
  - discriminate.
  - reflexivity.
Defined.

(** A run of X15 in binary64: at a speed of 100 under a humanisation of
    0.7 and the draw 0 a particle moves at 30, the speed less the product
    of the doubles. *)
Lemma humanizedSpeedKps_window_witness :
  JS.le (@JS.sub binary64 (lit 100)
           (@JS.mul binary64 (lit 100) (@decimal binary64 (7 # 10))))
        (@humanizedSpeedKps binary64
           (Sample.humanized (@decimal binary64 (7 # 10))) (Num 0)) = true
  /\ @humanizedSpeedKps binary64
       (Sample.humanized (@decimal binary64 (7 # 10))) (Num 0) = Num 30.
Proof.
  split; [|vm_compute; reflexivity].
  refine (proj1 (@humanizedSpeedKps_window binary64 binary64_lawful
                   Sample.straight_path
                   (Sample.humanized (@decimal binary64 (7 # 10)))
                   100 (3152519739159347 # 4503599627370496) 0
                   _ _ _ _ _ _ _ _)).
  - reflexivity.
  - discriminate.
  - vm_compute; reflexivity.
  - vm_compute; reflexivity.
  - discriminate.
  - vm_compute; reflexivity.
  - discriminate.
  - reflexivity.
Defined.

(** A run of X16 in binary64: the flow whose value is the double nearest to
    1.3, under a multiplicator of 10, gets 13 trips on each of two paths,
    at 78 draws. *)
Lemma flowTrips_count_witness :
  exists trips,
    @flowTrips Sample.imports Sample.quarters binary64
      (Sample.particles (lit 10) (lit 500))
      (Sample.flow (@decimal binary64 (13 # 10)))
      [Sample.straight_path; Sample.still_path] 0%nat
    = Returns trips 78%nat
    /\ List.length trips = 26%nat.
Proof.
  assert (trip_count
            (@numParticles binary64 (Sample.flow (@decimal binary64 (13 # 10)))
               (Sample.particles (lit 10) (lit 500))) = Some 13%nat) as Hk
      by (vm_compute; reflexivity).
  destruct (@flowTrips_count Sample.imports Sample.quarters binary64
              (Sample.particles (lit 10) (lit 500))
              (Sample.flow (@decimal binary64 (13 # 10)))
              [Sample.straight_path; Sample.still_path] 0%nat 13%nat Hk)
    as (_ & R).
  destruct (R [Num (2 # 10); Num (5 # 10); lit 1] eq_refl)
    as (trips & E & L); [simpl; lia|simpl; lia|].
  exists trips. split; [exact E|exact L].
Defined.

(** A run of X17: the sample flow of value 1 in curved mode under the
    initial controls. *)
Lemma useFlowsWithTrips_entries_witness :
  exists result s',
    useFlowsWithTrips Scenario.curved Scenario.road Controls.initial false 0%nat
    = Returns result s'
    /\ map fst result = Scenario.curved
    /\ Forall (fun entry =>
                 let '(l, paths, trips) := entry in
                 (List.length trips <= List.length paths * 100)%nat
                 /\ (Flow.valuesRatiosByFoodGroup l = None -> trips = []))
              result.
Proof.
  destruct (useFlowsWithTrips Scenario.curved Scenario.road Controls.initial
              false 0%nat) as [result s'| |] eqn:E;
    try (vm_compute in E; discriminate).
  exists result, s'. split; [reflexivity|].
  destruct (useFlowsWithTrips_entries Scenario.curved Scenario.road
              Controls.initial false 0%nat s' result 100%Z eq_refl) as (F & _ & B);
    [lia|exact E|].
  split; [exact F|exact B].
Defined.


(** A run of X24: under a bound of [Infinity] and a table of one category
    the first particle of the sample flow draws the index 2, and the loop
    throws on its first iteration. *)
Lemma getPathTrips_throws_witness :
  @getPathTrips_guarded Scenario.uncovered Sample.quarters binary64 1
    Sample.straight_path (Sample.flow PosInf)
    (Sample.particles (lit 1) PosInf) 0%nat
  = Throws "TypeError".
Proof.
  apply (proj1 (@getPathTrips_throws Scenario.uncovered Sample.quarters binary64
                  Sample.straight_path (Sample.flow PosInf)
                  (Sample.particles (lit 1) PosInf) 1 0 "TypeError")).
  split; [reflexivity|]. exists [Num (2 # 10); Num (5 # 10); lit 1], 0%nat.
  split; [reflexivity|]. split; [lia|]. split; [reflexivity|].
  split; [reflexivity|]. split; [right; simpl; lia|].
  intros j Lj. lia.
Defined.
